(** * beat-detector: real-time communication and lifecycle layer

    A shallow embedding of the parts of the detector that carry its
    contract: the BPM rolling buffer and [averageBpm], the SPSC event ring
    between the real-time callback and the mainloop, the stream callbacks
    with [stop] and [signalHandler], the SPA buffer validation with the
    block iterator of [audio_blocks::BufferView], the log lines, and the
    command-line parser with the exit codes of [main].

    Sources: [modules/beat/detector/impl.cpp], [modules/audio.blocks.spa.ixx],
    the [audio.blocks:core] partition and [src/main.cpp].

    The first part holds the model, the second part the lemmas. *)

From Stdlib Require Import ZArith NArith Lia List Bool Ascii String.
From Stdlib Require Import Floats.SpecFloat.
From Stdlib Require DecimalString.
From stdpp Require Import base list.

Import ListNotations.
Open Scope nat_scope.

(** * Part I: the model *)

(** ** IEEE binary32, the [float] of the C++ code

    [SpecFloat] gives the IEEE operations for any precision; [float] is
    precision 24 with maximal exponent 128, rounding to nearest even. *)
Module F32.

Definition prec : Z := 24%Z.
Definition emax : Z := 128%Z.

Definition t : Type := spec_float.

(** [0.0F]. *)
Definition zero : t := S754_zero false.

(** [a + b] on [float]. *)
Definition add (a b : t) : t := SFadd prec emax a b.

(** [a / b] on [float]. *)
Definition div (a b : t) : t := SFdiv prec emax a b.

(** [static_cast<float>(n)] for an unsigned integer. *)
Definition of_nat (n : nat) : t :=
  binary_normalize prec emax (Z.of_nat n) 0%Z false.

(** [a == b] on [float] (false on NaN, true on [0.0 == -0.0]). *)
Definition eqb (a b : t) : bool := SFeqb a b.

(** [a != b] on [float]. *)
Definition neqb (a b : t) : bool := negb (eqb a b).

End F32.

(** [std::size_t] and [std::uint64_t] arithmetic wraps at [2^64],
    [std::uint32_t] arithmetic at [2^32]. *)
Definition wrap64 (x : N) : N := (x mod 2 ^ 64)%N.
Definition wrap32 (x : N) : N := (x mod 2 ^ 32)%N.

(** ** The BPM rolling buffer ([DetectorState::BPMBuffer]) *)

Definition kBPMCapacity : nat := 10.

(** [values] is the [std::array<float, kBPMCapacity>]. [count] and [head]
    are [std::size_t]; every expression on them below is reduced modulo the
    capacity or capped by it, far from the 64-bit wrap, so they are [nat]. *)
Record BPMBuffer : Type := mkBPMBuffer {
  values : list F32.t;
  count : nat;
  head : nat
}.

(** [BPMBuffer bpm {}]: ten zeros, [count = 0], [head = 0]. *)
Definition bpm_init : BPMBuffer :=
  {| values := replicate kBPMCapacity F32.zero; count := 0; head := 0 |}.

(** The three statements of the real-time callback that record a beat:
    [values[head] = bpm_now; head = (head + 1) % cap;
     count = min(count + 1, cap)]. *)
Definition bpm_record (b : BPMBuffer) (bpm_now : F32.t) : BPMBuffer :=
  {| values := <[head b := bpm_now]> (values b);
     head := (head b + 1) mod kBPMCapacity;
     count := Nat.min (count b + 1) kBPMCapacity |}.

(** The element the [transform] view of [averageBpm] yields at [index]. *)
Definition bpm_value_view (b : BPMBuffer) (index : nat) : F32.t :=
  let capacity := kBPMCapacity in
  let first_index := (head b + capacity - count b) mod capacity in
  nth ((first_index + index) mod capacity) (values b) F32.zero.

(** [averageBpm]: [0.0F] on an empty buffer, otherwise
    [std::accumulate] from [0.0F] over the view, divided by the count. *)
Definition averageBpm (b : BPMBuffer) : F32.t :=
  if count b =? 0 then F32.zero
  else
    let total_bpm :=
      fold_left F32.add (map (bpm_value_view b) (seq 0 (count b))) F32.zero in
    F32.div total_bpm (F32.of_nat (count b)).

(** ** Events and the analysis engine *)

Module Event.

(** [DetectorState::Event]; [process_ms] is a [double]. *)
Record t : Type := mk {
  is_beat : bool;
  is_onset : bool;
  bpm : F32.t;
  pitch_hz : F32.t;
  process_ms : spec_float
}.

(** A value-initialised slot of [events {}]. *)
Definition zero : t :=
  {| is_beat := false; is_onset := false; bpm := F32.zero;
     pitch_hz := F32.zero; process_ms := S754_zero false |}.

End Event.

(** The aubio objects ([tempo], [onset], [pitch]) are an external
    capability. [E] is their joint state; each call reads the block that
    was copied into [input_vector] and leaves [data[0]] of its output
    vector. *)
Class AnalysisEngine (E : Type) : Type := {
  aubio_tempo_do : E -> list F32.t -> E * F32.t;
  aubio_onset_do : E -> list F32.t -> E * F32.t;
  aubio_pitch_do : E -> list F32.t -> E * F32.t;
  aubio_tempo_get_bpm : E -> F32.t
}.

(** ** [DetectorState] *)

Definition kEventCap : nat := 1024.

(** What a callback does to the outside world, in program order.
    [AnalyseBlock] marks the block handed to the analysis engine. *)
Inductive Effect : Type :=
| AnalyseBlock (block : list F32.t)
| PwStreamQueueBuffer
| PwLoopSignalEvent
| PwMainLoopQuit
| PwStreamDisconnect
| PwStreamSetActive (active : bool)
| StderrLine (line : string)
| LogLine (line : string).

(** The fields of [DetectorState] that the callbacks read or write.
    Pointers are kept as [bool] (non-null); [log_open] is [log.is_open()];
    [quit_monitor] tells whether the monitor thread still polls; [quit] and
    [instance] are the two static members. [ev_head] and [ev_tail] are
    [std::size_t] that are only ever assigned a value reduced modulo
    [kEventCap], which divides [2^64]: the wrap of [head + 1] cannot be
    seen, so they are [nat]. The console rendering and the clocks
    [start] and [last_beat] are left out. *)
Record DetectorState (E : Type) : Type := mkDetectorState {
  main_loop : bool;
  stream : bool;
  engine : E;
  buffer_size : N;
  log_enabled : bool;
  pitch_enabled : bool;
  log_open : bool;
  total_beats : N;
  total_onsets : N;
  last_bpm : F32.t;
  events : list Event.t;
  ev_head : nat;
  ev_tail : nat;
  event_src : bool;
  stopping : bool;
  quit_monitor : bool;
  bpm : BPMBuffer;
  quit : bool;
  instance : bool
}.

Arguments mkDetectorState {E}.
Arguments main_loop {E} _.
Arguments stream {E} _.
Arguments engine {E} _.
Arguments buffer_size {E} _.
Arguments log_enabled {E} _.
Arguments pitch_enabled {E} _.
Arguments log_open {E} _.
Arguments total_beats {E} _.
Arguments total_onsets {E} _.
Arguments last_bpm {E} _.
Arguments events {E} _.
Arguments ev_head {E} _.
Arguments ev_tail {E} _.
Arguments event_src {E} _.
Arguments stopping {E} _.
Arguments quit_monitor {E} _.
Arguments bpm {E} _.
Arguments quit {E} _.
Arguments instance {E} _.

(** Field updates. *)
Definition set_stream {E : Type} (st : DetectorState E) (v : bool) : DetectorState E :=
  {| main_loop := main_loop st; stream := v; engine := engine st;
     buffer_size := buffer_size st; log_enabled := log_enabled st;
     pitch_enabled := pitch_enabled st; log_open := log_open st; total_beats
     := total_beats st; total_onsets := total_onsets st; last_bpm :=
     last_bpm st; events := events st; ev_head := ev_head st; ev_tail :=
     ev_tail st; event_src := event_src st; stopping := stopping st;
     quit_monitor := quit_monitor st; bpm := bpm st; quit := quit st;
     instance := instance st |}.

Definition set_engine {E : Type} (st : DetectorState E) (v : E) : DetectorState E :=
  {| main_loop := main_loop st; stream := stream st; engine := v;
     buffer_size := buffer_size st; log_enabled := log_enabled st;
     pitch_enabled := pitch_enabled st; log_open := log_open st; total_beats
     := total_beats st; total_onsets := total_onsets st; last_bpm :=
     last_bpm st; events := events st; ev_head := ev_head st; ev_tail :=
     ev_tail st; event_src := event_src st; stopping := stopping st;
     quit_monitor := quit_monitor st; bpm := bpm st; quit := quit st;
     instance := instance st |}.

Definition set_total_beats {E : Type} (st : DetectorState E) (v : N) : DetectorState E :=
  {| main_loop := main_loop st; stream := stream st; engine := engine st;
     buffer_size := buffer_size st; log_enabled := log_enabled st;
     pitch_enabled := pitch_enabled st; log_open := log_open st; total_beats
     := v; total_onsets := total_onsets st; last_bpm := last_bpm st; events
     := events st; ev_head := ev_head st; ev_tail := ev_tail st; event_src
     := event_src st; stopping := stopping st; quit_monitor := quit_monitor
     st; bpm := bpm st; quit := quit st; instance := instance st |}.

Definition set_total_onsets {E : Type} (st : DetectorState E) (v : N) : DetectorState E :=
  {| main_loop := main_loop st; stream := stream st; engine := engine st;
     buffer_size := buffer_size st; log_enabled := log_enabled st;
     pitch_enabled := pitch_enabled st; log_open := log_open st; total_beats
     := total_beats st; total_onsets := v; last_bpm := last_bpm st; events
     := events st; ev_head := ev_head st; ev_tail := ev_tail st; event_src
     := event_src st; stopping := stopping st; quit_monitor := quit_monitor
     st; bpm := bpm st; quit := quit st; instance := instance st |}.

Definition set_last_bpm {E : Type} (st : DetectorState E) (v : F32.t) : DetectorState E :=
  {| main_loop := main_loop st; stream := stream st; engine := engine st;
     buffer_size := buffer_size st; log_enabled := log_enabled st;
     pitch_enabled := pitch_enabled st; log_open := log_open st; total_beats
     := total_beats st; total_onsets := total_onsets st; last_bpm := v;
     events := events st; ev_head := ev_head st; ev_tail := ev_tail st;
     event_src := event_src st; stopping := stopping st; quit_monitor :=
     quit_monitor st; bpm := bpm st; quit := quit st; instance := instance
     st |}.

Definition set_events {E : Type} (st : DetectorState E) (v : list Event.t) : DetectorState E :=
  {| main_loop := main_loop st; stream := stream st; engine := engine st;
     buffer_size := buffer_size st; log_enabled := log_enabled st;
     pitch_enabled := pitch_enabled st; log_open := log_open st; total_beats
     := total_beats st; total_onsets := total_onsets st; last_bpm :=
     last_bpm st; events := v; ev_head := ev_head st; ev_tail := ev_tail st;
     event_src := event_src st; stopping := stopping st; quit_monitor :=
     quit_monitor st; bpm := bpm st; quit := quit st; instance := instance
     st |}.

Definition set_ev_head {E : Type} (st : DetectorState E) (v : nat) : DetectorState E :=
  {| main_loop := main_loop st; stream := stream st; engine := engine st;
     buffer_size := buffer_size st; log_enabled := log_enabled st;
     pitch_enabled := pitch_enabled st; log_open := log_open st; total_beats
     := total_beats st; total_onsets := total_onsets st; last_bpm :=
     last_bpm st; events := events st; ev_head := v; ev_tail := ev_tail st;
     event_src := event_src st; stopping := stopping st; quit_monitor :=
     quit_monitor st; bpm := bpm st; quit := quit st; instance := instance
     st |}.

Definition set_ev_tail {E : Type} (st : DetectorState E) (v : nat) : DetectorState E :=
  {| main_loop := main_loop st; stream := stream st; engine := engine st;
     buffer_size := buffer_size st; log_enabled := log_enabled st;
     pitch_enabled := pitch_enabled st; log_open := log_open st; total_beats
     := total_beats st; total_onsets := total_onsets st; last_bpm :=
     last_bpm st; events := events st; ev_head := ev_head st; ev_tail := v;
     event_src := event_src st; stopping := stopping st; quit_monitor :=
     quit_monitor st; bpm := bpm st; quit := quit st; instance := instance
     st |}.

Definition set_stopping {E : Type} (st : DetectorState E) (v : bool) : DetectorState E :=
  {| main_loop := main_loop st; stream := stream st; engine := engine st;
     buffer_size := buffer_size st; log_enabled := log_enabled st;
     pitch_enabled := pitch_enabled st; log_open := log_open st; total_beats
     := total_beats st; total_onsets := total_onsets st; last_bpm :=
     last_bpm st; events := events st; ev_head := ev_head st; ev_tail :=
     ev_tail st; event_src := event_src st; stopping := v; quit_monitor :=
     quit_monitor st; bpm := bpm st; quit := quit st; instance := instance
     st |}.

Definition set_quit_monitor {E : Type} (st : DetectorState E) (v : bool) : DetectorState E :=
  {| main_loop := main_loop st; stream := stream st; engine := engine st;
     buffer_size := buffer_size st; log_enabled := log_enabled st;
     pitch_enabled := pitch_enabled st; log_open := log_open st; total_beats
     := total_beats st; total_onsets := total_onsets st; last_bpm :=
     last_bpm st; events := events st; ev_head := ev_head st; ev_tail :=
     ev_tail st; event_src := event_src st; stopping := stopping st;
     quit_monitor := v; bpm := bpm st; quit := quit st; instance := instance
     st |}.

Definition set_bpm {E : Type} (st : DetectorState E) (v : BPMBuffer) : DetectorState E :=
  {| main_loop := main_loop st; stream := stream st; engine := engine st;
     buffer_size := buffer_size st; log_enabled := log_enabled st;
     pitch_enabled := pitch_enabled st; log_open := log_open st; total_beats
     := total_beats st; total_onsets := total_onsets st; last_bpm :=
     last_bpm st; events := events st; ev_head := ev_head st; ev_tail :=
     ev_tail st; event_src := event_src st; stopping := stopping st;
     quit_monitor := quit_monitor st; bpm := v; quit := quit st; instance :=
     instance st |}.

Definition set_quit {E : Type} (st : DetectorState E) (v : bool) : DetectorState E :=
  {| main_loop := main_loop st; stream := stream st; engine := engine st;
     buffer_size := buffer_size st; log_enabled := log_enabled st;
     pitch_enabled := pitch_enabled st; log_open := log_open st; total_beats
     := total_beats st; total_onsets := total_onsets st; last_bpm :=
     last_bpm st; events := events st; ev_head := ev_head st; ev_tail :=
     ev_tail st; event_src := event_src st; stopping := stopping st;
     quit_monitor := quit_monitor st; bpm := bpm st; quit := v; instance :=
     instance st |}.

(** The [DetectorState] constructor: empty ring and BPM buffer, flags
    down, no loop and no stream yet, the monitor thread started. The
    options are the constructor's arguments; [quit_in] is the value the
    static [quit] holds when the object is built. *)
Definition DetectorState_new {E : Type} (engine0 : E) (buffer_size_in : N)
    (enable_logging enable_pitch_detection quit_in : bool) : DetectorState E :=
  {| main_loop := false; stream := false; engine := engine0;
     buffer_size := buffer_size_in; log_enabled := enable_logging;
     pitch_enabled := enable_pitch_detection; log_open := false;
     total_beats := 0%N; total_onsets := 0%N; last_bpm := F32.zero;
     events := replicate kEventCap Event.zero; ev_head := 0; ev_tail := 0;
     event_src := false; stopping := false; quit_monitor := true;
     bpm := bpm_init; quit := quit_in; instance := true |}.

(** ** [std::expected] *)

Inductive expected (T Err : Type) : Type :=
| Ok (value : T)
| Unexpected (error : Err).

Arguments Ok {T Err} value.
Arguments Unexpected {T Err} error.

(** ** [audio_blocks]: buffer views and their block iterator *)

Module audio_blocks.

Inductive ViewError : Type :=
| NullData
| ZeroBlockSize
| MisalignedBytes
| UnsupportedStride.

Definition toString (error : ViewError) : string :=
  match error with
  | NullData => "null data pointer"
  | ZeroBlockSize => "block size must be > 0"
  | MisalignedBytes => "byte size is not a multiple of sample size"
  | UnsupportedStride => "unsupported stride/layout"
  end.

(** [BufferView<float>]: the span of samples and the block size. *)
Record BufferView : Type := mkBufferView {
  samples_ : list F32.t;
  block_size_ : N
}.

(** [all.size()]. *)
Definition span_size (all : list F32.t) : N := N.of_nat (length all).

(** [all.subspan(offset, count)]. *)
Definition subspan (all : list F32.t) (offset count : N) : list F32.t :=
  take (N.to_nat count) (drop (N.to_nat offset) all).

(** [BlockRange::Iterator]. *)
Record Iterator : Type := mkIterator {
  all_ : list F32.t;
  block_ : N;
  offset_ : N
}.

(** [operator!=] compares the offsets only. *)
Definition it_ne (lhs rhs : Iterator) : bool :=
  negb (offset_ lhs =? offset_ rhs)%N.

(** [operator*]. *)
Definition it_deref (it : Iterator) : list F32.t :=
  subspan (all_ it) (offset_ it) (block_ it).

(** [operator++]: [offset_ += block_] on [std::size_t]. *)
Definition it_next (it : Iterator) : Iterator :=
  {| all_ := all_ it; block_ := block_ it;
     offset_ := wrap64 (offset_ it + block_ it) |}.

(** [BlockRange::begin] and [BlockRange::end]. The division is undefined
    in C++ for [block = 0]; every view the detector builds has a positive
    block size. *)
Definition range_begin (all : list F32.t) (block : N) : Iterator :=
  {| all_ := all; block_ := block; offset_ := 0%N |}.

Definition range_end (all : list F32.t) (block : N) : Iterator :=
  let usable := wrap64 ((span_size all / block) * block) in
  {| all_ := all; block_ := block; offset_ := usable |}.

(** The range-based [for (auto block : view.blocks()) body]: the body is
    folded over the blocks, from [it] until [it != last] fails. [None] when
    the fuel runs out first. *)
Fixpoint for_loop {St : Type} (fuel : nat) (it last : Iterator)
    (body : St -> list F32.t -> St) (s : St) : option St :=
  match fuel with
  | O => None
  | S fuel' =>
      if it_ne it last
      then for_loop fuel' (it_next it) last body (body s (it_deref it))
      else Some s
  end.

Definition for_blocks {St : Type} (fuel : nat) (view : BufferView)
    (body : St -> list F32.t -> St) (s : St) : option St :=
  for_loop fuel (range_begin (samples_ view) (block_size_ view))
    (range_end (samples_ view) (block_size_ view)) body s.

(** The blocks a view yields, in order. *)
Definition blocks (fuel : nat) (view : BufferView) : option (list (list F32.t)) :=
  for_blocks fuel view (fun acc block => acc ++ [block]) [].

(** [tailPartial]. *)
Definition tailPartial (view : BufferView) : list F32.t :=
  let tail_size := (span_size (samples_ view) mod block_size_ view)%N in
  if (tail_size =? 0)%N then []
  else drop (length (samples_ view) - N.to_nat tail_size) (samples_ view).

Definition sizeof_float : N := 4%N.

(** [makeBufferViewFromBytes<float>]. The memory behind [data] is given
    as the floats it holds; the span covers its first [count] floats. *)
Definition makeBufferViewFromBytes (data : option (list F32.t))
    (byte_size block_size_samples : N) : expected BufferView ViewError :=
  match data with
  | None => Unexpected NullData
  | Some memory =>
      if (block_size_samples =? 0)%N then Unexpected ZeroBlockSize
      else if negb (byte_size mod sizeof_float =? 0)%N then Unexpected MisalignedBytes
      else
        let count := (byte_size / sizeof_float)%N in
        Ok {| samples_ := take (N.to_nat count) memory;
              block_size_ := block_size_samples |}
  end.

(** The parts of [spa_buffer] the code reads: [datas[0].data] and
    [datas[0].chunk] with its [size] (uint32) and [stride] (int32). *)
Record spa_chunk : Type := mk_spa_chunk {
  chunk_size : N;
  chunk_stride : Z
}.

Record spa_buffer : Type := mk_spa_buffer {
  data : option (list F32.t);
  chunk : option spa_chunk
}.

Definition spaDataPtr (buffer : option spa_buffer) : option (list F32.t) :=
  match buffer with
  | Some b => data b
  | None => None
  end.

Definition spaSizeBytes (buffer : option spa_buffer) : N :=
  match buffer with
  | Some b =>
      match chunk b with
      | Some c => chunk_size c
      | None => 0%N
      end
  | None => 0%N
  end.

(** [static_cast<std::size_t>] of the signed stride. *)
Definition spaStrideBytes (buffer : option spa_buffer) (default_stride : N) : N :=
  match buffer with
  | Some b =>
      match chunk b with
      | Some c =>
          let stride := Z.to_N (chunk_stride c mod 2 ^ 64) in
          if negb (stride =? 0)%N then stride else default_stride
      | None => 0%N
      end
  | None => 0%N
  end.

Definition makeBufferViewFromSpaMonoF32 (buffer : option spa_buffer)
    (block_size_samples : N) : expected BufferView ViewError :=
  let data_ptr := spaDataPtr buffer in
  let byte_count := spaSizeBytes buffer in
  let stride := spaStrideBytes buffer sizeof_float in
  match data_ptr with
  | None => Unexpected NullData
  | Some _ =>
      if (block_size_samples =? 0)%N then Unexpected ZeroBlockSize
      else if negb (stride =? sizeof_float)%N then Unexpected UnsupportedStride
      else if negb (byte_count mod sizeof_float =? 0)%N then Unexpected MisalignedBytes
      else makeBufferViewFromBytes data_ptr byte_count block_size_samples
  end.

End audio_blocks.

(** ** The real-time callback ([pw_stream_events.process]) *)

(** The push into the SPSC ring: load both indices, drop the oldest slot
    when the next head would meet the tail, write the slot, publish the
    head. *)
Definition spsc_push {E : Type} (st : DetectorState E) (ev : Event.t) : DetectorState E :=
  let head := ev_head st in
  let tail := ev_tail st in
  let next_head := (head + 1) mod kEventCap in
  let st1 := if next_head =? tail
             then set_ev_tail st ((tail + 1) mod kEventCap)
             else st in
  let st2 := set_events st1 (<[head := ev]> (events st1)) in
  set_ev_head st2 next_head.

(** The body of the loop over the blocks of a view. The block is copied
    into [input_vector] and analysed; a beat is booked in the totals and in
    the BPM buffer; a beat or an onset makes an event, which is pushed and
    signalled. *)
Definition process_block {E : Type} `{AnalysisEngine E}
    (acc : DetectorState E * list Effect) (block : list F32.t)
    : DetectorState E * list Effect :=
  let '(st, effs) := acc in
  let '(e1, tempo_out) := aubio_tempo_do (engine st) block in
  let is_beat := F32.neqb tempo_out F32.zero in
  let '(e2, onset_out) := aubio_onset_do e1 block in
  let is_onset := F32.neqb onset_out F32.zero in
  let '(e3, pitch_hz) :=
    if pitch_enabled st then aubio_pitch_do e2 block else (e2, F32.zero) in
  let st := set_engine st e3 in
  let bpm_now := if is_beat then aubio_tempo_get_bpm e3 else last_bpm st in
  let st :=
    if is_beat then
      let st := set_total_beats st (wrap64 (total_beats st + 1)) in
      let st := set_last_bpm st bpm_now in
      set_bpm st (bpm_record (bpm st) bpm_now)
    else st in
  let st :=
    if is_onset then set_total_onsets st (wrap64 (total_onsets st + 1)) else st in
  let produced_event := is_beat || is_onset in
  if produced_event then
    let st := spsc_push st
      {| Event.is_beat := is_beat; Event.is_onset := is_onset;
         Event.bpm := bpm_now; Event.pitch_hz := pitch_hz;
         Event.process_ms := S754_zero false |} in
    (st, effs ++ [AnalyseBlock block]
              ++ (if event_src st then [PwLoopSignalEvent] else []))
  else (st, effs ++ [AnalyseBlock block]).

(** The [process_view] lambda. *)
Definition process_view {E : Type} `{AnalysisEngine E} (fuel : nat)
    (st : DetectorState E) (view : audio_blocks.BufferView)
    : option (DetectorState E * list Effect) :=
  audio_blocks.for_blocks fuel view process_block (st, []).

(** [pw_buffer]: only its [buffer] pointer is read. *)
Record pw_buffer : Type := mk_pw_buffer {
  buffer : option audio_blocks.spa_buffer
}.

(** The whole callback. [pw_buf] is what [pw_stream_dequeue_buffer]
    returned. The lease re-queues the buffer on every way out of the scope
    in which it was taken. *)
Definition process {E : Type} `{AnalysisEngine E} (fuel : nat)
    (st : DetectorState E) (pw_buf : option pw_buffer)
    : option (DetectorState E * list Effect) :=
  if quit st then Some (st, [])
  else
    match pw_buf with
    | None => Some (st, [])
    | Some pb =>
        let lease := if stream st then [PwStreamQueueBuffer] else [] in
        match buffer pb with
        | Some spa_buf =>
            match audio_blocks.data spa_buf, audio_blocks.chunk spa_buf with
            | Some _, Some _ =>
                match audio_blocks.makeBufferViewFromSpaMonoF32
                        (Some spa_buf) (buffer_size st) with
                | Ok view =>
                    match process_view fuel st view with
                    | Some (st', effs) => Some (st', effs ++ lease)
                    | None => None
                    end
                | Unexpected error =>
                    Some (st, [StderrLine ("SPA buffer rejected: "
                                           ++ audio_blocks.toString error)]
                              ++ lease)
                end
            | _, _ => Some (st, lease)
            end
        | None => Some (st, lease)
        end
    end.

(** ** Log lines *)

(** The [std::format] conversions of the log lines whose output depends on
    the clock or on the C++ library's printing of floats, for a type
    [Time] of clock readings:
    - [format_T t] is [{:%T}] of the system-clock reading,
    - [format_F_T t] is [{:%F %T}] of the same instant on the UTC clock,
    - [time_since_epoch_ms t] is the reading cast to whole milliseconds,
    - [format_1f] and [format_3f] are [{:.1f}] and [{:.3f}]. *)
Class LogFormat (Time : Type) : Type := {
  format_T : Time -> string;
  format_F_T : Time -> string;
  time_since_epoch_ms : Time -> Z;
  format_1f : F32.t -> string;
  format_3f : F32.t -> string
}.

(** Decimal digits of a natural number. *)
Definition decimal (n : N) : string :=
  DecimalString.NilZero.string_of_uint (N.to_uint n).

(** Zero padding on the left up to [width] characters. *)
Definition pad_zeros (width : nat) (s : string) : string :=
  String.concat EmptyString (repeat "0"%string (width - String.length s)) ++ s.

(** [{:03}] of an [int]: the sign counts in the width. *)
Definition format_03 (z : Z) : string :=
  if (z <? 0)%Z then "-" ++ pad_zeros 2 (decimal (Z.to_N (- z)))
  else pad_zeros 3 (decimal (Z.to_N z)).

Definition log_banner {Time : Type} `{LogFormat Time} (utc_current_time : Time) : string :=
  "# Beat Detection Log - " ++ format_F_T utc_current_time.

Definition log_header : string :=
  "# Timestamp,BPM,Onset,Pitch(Hz),ProcessTime(ms)".

(** The line the drain callback prints for one event:
    ["{:%T}.{:03},{:.1f},{},{:.3f},"]. The milliseconds are the remainder
    of the C++ [%] on the signed count. *)
Definition log_line {Time : Type} `{LogFormat Time}
    (current_time : Time) (event : Event.t) : string :=
  let current_time_ms := Z.rem (time_since_epoch_ms current_time) 1000 in
  format_T current_time ++ "." ++ format_03 current_time_ms ++ ","
  ++ format_1f (if Event.is_beat event then Event.bpm event else F32.zero) ++ ","
  ++ (if Event.is_onset event then "1" else "0") ++ ","
  ++ format_3f (Event.pitch_hz event) ++ ",".

(** ** The drain callback ([pw_loop_add_event]) *)

(** What one drain call yields: the state it leaves, the events it read in
    the order it read them, and its effects (the log lines). *)
Record Drained (E : Type) : Type := mkDrained {
  drained_state : DetectorState E;
  drained_events : list Event.t;
  drained_effects : list Effect
}.

Arguments mkDrained {E}.
Arguments drained_state {E} _.
Arguments drained_events {E} _.
Arguments drained_effects {E} _.

(** The [for (;;)] loop of the callback. [clock i] is what
    [system_clock::now()] returns in round [i] of the loop. The console
    output of a beat is left out. [None] when the fuel runs out before the
    loop breaks. *)
Fixpoint drain_loop {E Time : Type} `{LogFormat Time} (fuel : nat)
    (clock : nat -> Time) (round : nat) (st : DetectorState E)
    : option (Drained E) :=
  match fuel with
  | O => None
  | S fuel' =>
      let tail := ev_tail st in
      let head := ev_head st in
      if tail =? head then Some (mkDrained st [] [])
      else
        let event := nth tail (events st) Event.zero in
        let st := set_ev_tail st ((tail + 1) mod kEventCap) in
        let logged :=
          if log_enabled st && log_open st
             && (Event.is_beat event || Event.is_onset event)
          then [LogLine (log_line (clock round) event)]
          else [] in
        match drain_loop fuel' clock (S round) st with
        | Some r =>
            Some (mkDrained (drained_state r) (event :: drained_events r)
                            (logged ++ drained_effects r))
        | None => None
        end
  end.

Definition drain {E Time : Type} `{LogFormat Time} (fuel : nat)
    (clock : nat -> Time) (st : DetectorState E) : option (Drained E) :=
  drain_loop fuel clock 0 st.

(** ** [BeatDetector::initialize] *)

(** What the environment answers to the calls of [initialize]: whether the
    log file opens, the clock reading, and which of the constructors and
    connections succeed. *)
Record InitEnv (Time : Type) : Type := mkInitEnv {
  log_opens : bool;
  utc_current_time : Time;
  pw_main_loop_new_ok : bool;
  new_aubio_tempo_ok : bool;
  new_fvec_ok : bool;
  new_aubio_onset_ok : bool;
  new_aubio_pitch_ok : bool;
  pw_stream_new_simple_ok : bool;
  pw_stream_connect_ok : bool;
  pw_loop_add_event_ok : bool
}.

Arguments mkInitEnv {Time}.
Arguments log_opens {Time} _.
Arguments utc_current_time {Time} _.
Arguments pw_main_loop_new_ok {Time} _.
Arguments new_aubio_tempo_ok {Time} _.
Arguments new_fvec_ok {Time} _.
Arguments new_aubio_onset_ok {Time} _.
Arguments new_aubio_pitch_ok {Time} _.
Arguments pw_stream_new_simple_ok {Time} _.
Arguments pw_stream_connect_ok {Time} _.
Arguments pw_loop_add_event_ok {Time} _.

(** The state after a successful [initialize]. *)
Definition initialized {E : Type} (st : DetectorState E) (event_src_ok : bool)
    : DetectorState E :=
  {| main_loop := true; stream := true; engine := engine st;
     buffer_size := buffer_size st; log_enabled := log_enabled st;
     pitch_enabled := pitch_enabled st; log_open := log_enabled st;
     total_beats := total_beats st; total_onsets := total_onsets st;
     last_bpm := last_bpm st; events := events st; ev_head := ev_head st;
     ev_tail := ev_tail st; event_src := event_src_ok;
     stopping := stopping st; quit_monitor := quit_monitor st;
     bpm := bpm st; quit := quit st; instance := instance st |}.

(** The failure points of [initialize] after the log is open, in program
    order, with the message of each. *)
Definition initialize_resources {Time : Type} (env : InitEnv Time)
    (pitch_enabled_in : bool) : expected unit string :=
  if negb (pw_main_loop_new_ok env) then Unexpected "failed to create main loop"%string
  else if negb (new_aubio_tempo_ok env) then Unexpected "failed to create aubio tempo"%string
  else if negb (new_fvec_ok env) then Unexpected "failed to create aubio buffers"%string
  else if negb (new_aubio_onset_ok env) then Unexpected "failed to create aubio onset"%string
  else if pitch_enabled_in && negb (new_aubio_pitch_ok env)
  then Unexpected "failed to create aubio pitch"%string
  else if negb (pw_stream_new_simple_ok env) then Unexpected "failed to  create stream"%string
  else if negb (pw_stream_connect_ok env) then Unexpected "failed to connect to stream"%string
  else Ok tt.

(** [initialize]: the result and what was written to the log. On success
    the state has its loop, stream and event source. *)
Definition initialize {E Time : Type} `{LogFormat Time} (env : InitEnv Time)
    (st : DetectorState E) : expected (DetectorState E) string * list Effect :=
  if log_enabled st && negb (log_opens env)
  then (Unexpected "failed to open log file"%string, [])
  else
    let written :=
      if log_enabled st
      then [LogLine (log_banner (utc_current_time env)); LogLine log_header]
      else [] in
    match initialize_resources env (pitch_enabled st) with
    | Unexpected message => (Unexpected message, written)
    | Ok _ => (Ok (initialized st (pw_loop_add_event_ok env)), written)
    end.

(** ** Stream callbacks, [run], [stop], [signalHandler] *)

(** [enum pw_stream_state] of PipeWire. *)
Inductive pw_stream_state : Type :=
| PW_STREAM_STATE_ERROR
| PW_STREAM_STATE_UNCONNECTED
| PW_STREAM_STATE_CONNECTING
| PW_STREAM_STATE_PAUSED
| PW_STREAM_STATE_STREAMING.

Definition pw_stream_state_eqb (a b : pw_stream_state) : bool :=
  match a, b with
  | PW_STREAM_STATE_ERROR, PW_STREAM_STATE_ERROR
  | PW_STREAM_STATE_UNCONNECTED, PW_STREAM_STATE_UNCONNECTED
  | PW_STREAM_STATE_CONNECTING, PW_STREAM_STATE_CONNECTING
  | PW_STREAM_STATE_PAUSED, PW_STREAM_STATE_PAUSED
  | PW_STREAM_STATE_STREAMING, PW_STREAM_STATE_STREAMING => true
  | _, _ => false
  end.

(** [icons::kFail], U+F467 in UTF-8. *)
Definition kFail : string :=
  String "239"%char (String "145"%char (String "167"%char EmptyString)).

(** [.destroy]: drop the ownership of the stream. *)
Definition destroy {E : Type} (st : DetectorState E) : DetectorState E :=
  if stream st then set_stream st false else st.

(** [.state_changed]; [error] is the nullable C string. The line about
    the new state on the console is left out. *)
Definition state_changed {E : Type} (st : DetectorState E)
    (state : pw_stream_state) (error : option string)
    : DetectorState E * list Effect :=
  let on_error :=
    if pw_stream_state_eqb state PW_STREAM_STATE_ERROR then
      [StderrLine (kFail ++ " Stream error: "
                   ++ match error with Some e => e | None => "unknown" end)]
      ++ (if main_loop st then [PwMainLoopQuit] else [])
    else [] in
  let on_paused :=
    if pw_stream_state_eqb state PW_STREAM_STATE_PAUSED then
      if stopping st then
        if stream st then [PwStreamDisconnect] else []
      else []
    else [] in
  (st, on_error ++ on_paused).

(** [BeatDetector::run] up to the call of [pw_main_loop_run]: the store
    that opens a run. *)
Definition run_enter {E : Type} (st : DetectorState E) : DetectorState E :=
  if main_loop st then set_quit st false else st.

(** [BeatDetector::stop]. *)
Definition stop {E : Type} (st : DetectorState E) : DetectorState E * list Effect :=
  let st := set_quit st true in
  if stream st then (set_stopping st true, [PwStreamSetActive false])
  else (st, []).

(** [BeatDetector::signalHandler]. *)
Definition signalHandler {E : Type} (st : DetectorState E) : DetectorState E :=
  if instance st then set_quit st true else st.

(** One round of the monitor thread's loop, for a monitor that has not
    been asked to stop: on [quit] it quits the mainloop and ends. *)
Definition quit_monitor_poll {E : Type} (st : DetectorState E)
    : DetectorState E * list Effect :=
  if quit_monitor st then
    if quit st then
      (set_quit_monitor st false, if main_loop st then [PwMainLoopQuit] else [])
    else (st, [])
  else (st, []).

(** What can happen while the mainloop runs: the calls of [stop] and of
    the signal handler, the stream callbacks, the drain callback and a
    round of the monitor. *)
Inductive Op (Time : Type) : Type :=
| OpStop
| OpSignal
| OpStateChanged (state : pw_stream_state) (error : option string)
| OpDestroy
| OpProcess (pw_buf : option pw_buffer)
| OpDrain (clock : nat -> Time)
| OpMonitor.

Arguments OpStop {Time}.
Arguments OpSignal {Time}.
Arguments OpStateChanged {Time} state error.
Arguments OpDestroy {Time}.
Arguments OpProcess {Time} pw_buf.
Arguments OpDrain {Time} clock.
Arguments OpMonitor {Time}.

Definition step {E Time : Type} `{AnalysisEngine E} `{LogFormat Time}
    (fuel : nat) (st : DetectorState E) (op : Op Time)
    : option (DetectorState E * list Effect) :=
  match op with
  | OpStop => Some (stop st)
  | OpSignal => Some (signalHandler st, [])
  | OpStateChanged state error => Some (state_changed st state error)
  | OpDestroy => Some (destroy st, [])
  | OpProcess pw_buf => process fuel st pw_buf
  | OpDrain clock =>
      match drain fuel clock st with
      | Some r => Some (drained_state r, drained_effects r)
      | None => None
      end
  | OpMonitor => Some (quit_monitor_poll st)
  end.

(** A run of the mainloop: the operations in the order they happen, each
    with the effects it had. *)
Fixpoint run_ops {E Time : Type} `{AnalysisEngine E} `{LogFormat Time}
    (fuel : nat) (st : DetectorState E) (ops : list (Op Time))
    : option (DetectorState E * list (Op Time * list Effect)) :=
  match ops with
  | [] => Some (st, [])
  | op :: rest =>
      match step fuel st op with
      | Some (st', effs) =>
          match run_ops fuel st' rest with
          | Some (st'', log) => Some (st'', (op, effs) :: log)
          | None => None
          end
      | None => None
      end
  end.

(** ** The command line ([src/main.cpp]) *)

(** [std::isdigit] in the C locale. *)
Definition isdigit (c : ascii) : bool :=
  (48 <=? N_of_ascii c)%N && (N_of_ascii c <=? 57)%N.

Definition uint32_max : N := (2 ^ 32 - 1)%N.

(** The loop of [detail::parseU32] from the current [parsed_value]. *)
Fixpoint parseU32_loop (input : string) (parsed_value : N) : N * option string :=
  match input with
  | EmptyString => (parsed_value, None)
  | String raw_char rest =>
      let max_before_multiply := (uint32_max / 10)%N in
      let max_last_digit := (uint32_max mod 10)%N in
      if negb (isdigit raw_char) then (0%N, Some "nondigit"%string)
      else
        let digit_value := wrap32 (N_of_ascii raw_char - 48) in
        if (max_before_multiply <? parsed_value)%N
           || ((parsed_value =? max_before_multiply)%N
               && (max_last_digit <? digit_value)%N)
        then (0%N, Some "nondigit"%string)
        else parseU32_loop rest (wrap32 (wrap32 (parsed_value * 10) + digit_value))
  end.

(** [detail::parseU32]: the value and a null message, or [0] and the
    reason. *)
Definition parseU32 (input : string) : N * option string :=
  match input with
  | EmptyString => (0%N, Some "empty"%string)
  | _ => parseU32_loop input 0%N
  end.

Definition kDefaultBufferSize : N := 512%N.
Definition kMinBufferSize : N := 64%N.
Definition kMaxBufferSize : N := 8192%N.

Record Options : Type := mkOptions {
  opt_buffer_size : N;
  logging : bool;
  stats : bool;
  pitch : bool;
  visual : bool
}.

(** [Options options {}]. *)
Definition Options_default : Options :=
  {| opt_buffer_size := kDefaultBufferSize; logging := true; stats := true;
     pitch := false; visual := true |}.

Inductive ParseErrorKind : Type :=
| Help
| Invalid.

Record ParseError : Type := mkParseError {
  kind : ParseErrorKind;
  message : string
}.

(** [!arg.empty() && arg.front() != '-']. *)
Definition is_positional (arg : string) : bool :=
  match arg with
  | EmptyString => false
  | String front _ => negb (Ascii.eqb front "-")
  end.

(** The loop of [parseArgs] over the arguments that are left, with the
    options and [saw_positional] so far. *)
Fixpoint parseArgs_loop (args : list string) (options : Options)
    (saw_positional : bool) : expected Options ParseError :=
  match args with
  | [] => Ok options
  | arg :: rest =>
      if String.eqb arg "--help" || String.eqb arg "-h"
      then Unexpected {| kind := Help; message := EmptyString |}
      else if is_positional arg then
        if saw_positional then
          Unexpected
            {| kind := Invalid;
               message := "Too many positional arguments (only buffer_size is allowed)/" |}
        else
          let '(end_ptr, parse_err) := parseU32 arg in
          match parse_err with
          | Some _ =>
              Unexpected
                {| kind := Invalid;
                   message := "buffer_size must be a base-10 unsigned integer" |}
          | None =>
              if (end_ptr <? kMinBufferSize)%N || (kMaxBufferSize <? end_ptr)%N
              then Unexpected
                     {| kind := Invalid;
                        message := "buffer_size out of range [64, 8192]" |}
              else
                parseArgs_loop rest
                  {| opt_buffer_size := end_ptr; logging := logging options;
                     stats := stats options; pitch := pitch options;
                     visual := visual options |}
                  true
          end
      else if String.eqb arg "--no-log" then
        parseArgs_loop rest
          {| opt_buffer_size := opt_buffer_size options; logging := false;
             stats := stats options; pitch := pitch options;
             visual := visual options |}
          saw_positional
      else if String.eqb arg "--no-stats" then
        parseArgs_loop rest
          {| opt_buffer_size := opt_buffer_size options; logging := logging options;
             stats := false; pitch := pitch options; visual := visual options |}
          saw_positional
      else if String.eqb arg "--pitch" then
        parseArgs_loop rest
          {| opt_buffer_size := opt_buffer_size options; logging := logging options;
             stats := stats options; pitch := true; visual := visual options |}
          saw_positional
      else if String.eqb arg "--no-visual" then
        parseArgs_loop rest
          {| opt_buffer_size := opt_buffer_size options; logging := logging options;
             stats := stats options; pitch := pitch options; visual := false |}
          saw_positional
      else
        Unexpected
          {| kind := Invalid; message := "Unknown option '" ++ arg ++ "'" |}
  end.

(** [parseArgs]: the program name [args[0]] is skipped when present. *)
Definition parseArgs (args : list string) : expected Options ParseError :=
  parseArgs_loop (match args with [] => [] | _ :: rest => rest end)
    Options_default false.

(** [main]: the exit code. [engine0] and [env] are what the analysis
    library and the system answer during [initialize]; [run_throws] tells
    whether [detector.run()] ends with a [std::exception]. *)
Definition main {E Time : Type} `{LogFormat Time} (args : list string)
    (engine0 : E) (env : InitEnv Time) (run_throws : bool) : Z :=
  match parseArgs args with
  | Unexpected error =>
      match kind error with
      | Help => 0%Z
      | Invalid => 1%Z
      end
  | Ok options =>
      let detector :=
        DetectorState_new engine0 (opt_buffer_size options) (logging options)
          (pitch options) false in
      match initialize env detector with
      | (Unexpected _, _) => 1%Z
      | (Ok _, _) => if run_throws then 1%Z else 0%Z
      end
  end.

(** ** Notions used to state the properties *)

(** The mean the way the code computes it on any list of floats: the sum
    from [0.0F], left to right, divided by the number of elements. *)
Definition mean32 (l : list F32.t) : F32.t :=
  F32.div (fold_left F32.add l F32.zero) (F32.of_nat (length l)).

(** The last [k] elements of a list, in order. *)
Definition lastn {A : Type} (k : nat) (l : list A) : list A :=
  drop (length l - k) l.

(** The run of [len] slots of a circular array of capacity [cap] that
    starts at [start]. *)
Definition ring_slice {A : Type} (d : A) (cap : nat) (l : list A)
    (start len : nat) : list A :=
  map (fun i => nth ((start + i) mod cap) l d) (seq 0 len).

(** The values the BPM buffer retains, oldest first. *)
Definition bpm_window (b : BPMBuffer) : list F32.t :=
  map (bpm_value_view b) (seq 0 (count b)).

Definition bpm_wf (b : BPMBuffer) : Prop :=
  length (values b) = kBPMCapacity /\ head b < kBPMCapacity
  /\ count b <= kBPMCapacity.

(** The ring of a state: both indices inside the array. *)
Definition spsc_wf {E : Type} (st : DetectorState E) : Prop :=
  length (events st) = kEventCap /\ ev_head st < kEventCap
  /\ ev_tail st < kEventCap.

(** The number of events waiting in the ring, and the events themselves,
    oldest first. *)
Definition spsc_size {E : Type} (st : DetectorState E) : nat :=
  (ev_head st + kEventCap - ev_tail st) mod kEventCap.

Definition spsc_contents {E : Type} (st : DetectorState E) : list Event.t :=
  ring_slice Event.zero kEventCap (events st) (ev_tail st) (spsc_size st).

(** The whole blocks of [bn] consecutive samples of a buffer, in order:
    [length samples / bn] of them, the [i]-th starting at sample [i * bn]. *)
Definition whole_blocks (samples : list F32.t) (bn : nat) : list (list F32.t) :=
  map (fun i => take bn (drop (i * bn) samples)) (seq 0 (length samples / bn)).

(** The fields that steer the lifecycle, which the two data-path callbacks
    only read. *)
Definition same_control {E : Type} (st st' : DetectorState E) : Prop :=
  quit st' = quit st /\ stopping st' = stopping st /\ stream st' = stream st
  /\ main_loop st' = main_loop st /\ instance st' = instance st
  /\ quit_monitor st' = quit_monitor st /\ event_src st' = event_src st
  /\ log_enabled st' = log_enabled st /\ log_open st' = log_open st
  /\ pitch_enabled st' = pitch_enabled st /\ buffer_size st' = buffer_size st.

(** The effects the real-time callback can have. *)
Definition is_rt_effect (e : Effect) : bool :=
  match e with
  | AnalyseBlock _ | PwLoopSignalEvent | PwStreamQueueBuffer | StderrLine _ => true
  | _ => false
  end.

Definition is_log_line (e : Effect) : bool :=
  match e with
  | LogLine _ => true
  | _ => false
  end.

(** The blocks the analysis engine was handed, read off the effects. *)
Definition analysed (effs : list Effect) : list (list F32.t) :=
  flat_map (fun e => match e with AnalyseBlock b => [b] | _ => [] end) effs.

(** The lines written to the log, read off the effects. *)
Definition log_lines (effs : list Effect) : list string :=
  flat_map (fun e => match e with LogLine l => [l] | _ => [] end) effs.

Definition is_disconnect (e : Effect) : bool :=
  match e with
  | PwStreamDisconnect => true
  | _ => false
  end.

Definition is_deactivate (e : Effect) : bool :=
  match e with
  | PwStreamSetActive false => true
  | _ => false
  end.

(** The number of [pw_stream_disconnect] calls in the log of a run. *)
Definition disconnects {Time : Type} (log : list (Op Time * list Effect)) : nat :=
  length (List.filter is_disconnect (flat_map snd log)).

Definition is_paused_notification {Time : Type} (op : Op Time) : bool :=
  match op with
  | OpStateChanged PW_STREAM_STATE_PAUSED _ => true
  | _ => false
  end.

Definition is_stop {Time : Type} (op : Op Time) : bool :=
  match op with
  | OpStop => true
  | _ => false
  end.

Definition is_destroy {Time : Type} (op : Op Time) : bool :=
  match op with
  | OpDestroy => true
  | _ => false
  end.

(** The number of [Paused] notifications among [ops]. *)
Definition paused_notifications {Time : Type} (ops : list (Op Time)) : nat :=
  length (List.filter is_paused_notification ops).

(** The number of [Paused] notifications that come after the first
    [stop()] of [ops]. *)
Fixpoint paused_after_stop {Time : Type} (ops : list (Op Time)) : nat :=
  match ops with
  | [] => 0
  | op :: rest =>
      if is_stop op then paused_notifications rest else paused_after_stop rest
  end.

(** The disconnects of a run as a function of its operations alone: one
    for each [Paused] notification that arrives while [stopping] is up and
    the stream is held, where [stopping] goes up at a [stop()] with the
    stream held and the stream is given up at [destroy]. *)
Fixpoint expected_disconnects {Time : Type} (stopping_now stream_now : bool)
    (ops : list (Op Time)) : nat :=
  match ops with
  | [] => 0
  | op :: rest =>
      (if is_paused_notification op && stopping_now && stream_now then 1 else 0)
      + expected_disconnects (stopping_now || (is_stop op && stream_now))
          (stream_now && negb (is_destroy op)) rest
  end.

(** [stop()] called [n] times in a row, with all the effects. *)
Fixpoint stop_times {E : Type} (n : nat) (st : DetectorState E)
    : DetectorState E * list Effect :=
  match n with
  | O => (st, [])
  | S n' =>
      let '(st1, effs1) := stop st in
      let '(st2, effs2) := stop_times n' st1 in
      (st2, effs1 ++ effs2)
  end.

(** What [stop()] leaves to observe: the two flags and whether the
    transport was asked to deactivate the stream. *)
Definition stop_observable {E : Type} (r : DetectorState E * list Effect)
    : bool * bool * bool :=
  (quit (fst r), stopping (fst r), existsb is_deactivate (snd r)).

(** The log effects of a drain that reads [evs] from round [round] on,
    [enabled] telling whether the log is enabled and open. *)
Fixpoint drain_log {Time : Type} `{LogFormat Time} (enabled : bool)
    (clock : nat -> Time) (round : nat) (evs : list Event.t) : list Effect :=
  match evs with
  | [] => []
  | event :: rest =>
      (if enabled && (Event.is_beat event || Event.is_onset event)
       then [LogLine (log_line (clock round) event)] else [])
      ++ drain_log enabled clock (S round) rest
  end.

(** What a drain returns when it returns: it has read the waiting events
    oldest first, logged them, and left the ring empty with the head where
    it was. *)
Definition drain_result {E Time : Type} `{LogFormat Time} (clock : nat -> Time)
    (round : nat) (st : DetectorState E) : Drained E :=
  mkDrained (set_ev_tail st (ev_head st)) (spsc_contents st)
    (drain_log (log_enabled st && log_open st) clock round (spsc_contents st)).

(** The characters of a string. *)
Definition chars (s : string) : list ascii := list_ascii_of_string s.

Definition all_digits (s : string) : bool := forallb isdigit (chars s).

(** The number read so far, [acc], continued by the digits of [s], in
    base 10 and unbounded. *)
Definition decimal_from (acc : N) (s : string) : N :=
  fold_left (fun a c => (a * 10 + (N_of_ascii c - 48))%N) (chars s) acc.

(** The number a string of digits denotes. *)
Definition decimal_value (s : string) : N := decimal_from 0 s.

(** The four option flags of the command line. *)
Definition is_flag (arg : string) : bool :=
  String.eqb arg "--no-log" || String.eqb arg "--no-stats"
  || String.eqb arg "--pitch" || String.eqb arg "--no-visual".

(** What one option flag does to the options. *)
Definition apply_flag (options : Options) (arg : string) : Options :=
  if String.eqb arg "--no-log" then
    {| opt_buffer_size := opt_buffer_size options; logging := false;
       stats := stats options; pitch := pitch options; visual := visual options |}
  else if String.eqb arg "--no-stats" then
    {| opt_buffer_size := opt_buffer_size options; logging := logging options;
       stats := false; pitch := pitch options; visual := visual options |}
  else if String.eqb arg "--pitch" then
    {| opt_buffer_size := opt_buffer_size options; logging := logging options;
       stats := stats options; pitch := true; visual := visual options |}
  else if String.eqb arg "--no-visual" then
    {| opt_buffer_size := opt_buffer_size options; logging := logging options;
       stats := stats options; pitch := pitch options; visual := false |}
  else options.

(** [options] with another buffer size. *)
Definition with_buffer_size (options : Options) (n : N) : Options :=
  {| opt_buffer_size := n; logging := logging options; stats := stats options;
     pitch := pitch options; visual := visual options |}.

(** The buffer size on the command line is a number in [64, 8192]. *)
Definition valid_buffer_size (v : string) : bool :=
  all_digits v && (kMinBufferSize <=? decimal_value v)%N
  && (decimal_value v <=? kMaxBufferSize)%N.

(** The fields of a line: the pieces between its commas. *)
Fixpoint split_commas (s : string) : list string :=
  match s with
  | EmptyString => [EmptyString]
  | String c rest =>
      if Ascii.eqb c "," then EmptyString :: split_commas rest
      else
        match split_commas rest with
        | field :: fields => String c field :: fields
        | [] => [String c EmptyString]
        end
  end.

Definition has_comma (s : string) : bool :=
  existsb (fun c => Ascii.eqb c ",") (chars s).

(** ** An engine and a formatter to run the model on

    The scripted engine reads its answers off the block: the first sample
    is the tempo output, the second the onset output, the third the pitch;
    its state counts the blocks it has seen and the tempo it reports is
    that count. *)
#[export] Instance ScriptedEngine : AnalysisEngine nat := {
  aubio_tempo_do := fun e block => (S e, nth 0 block F32.zero);
  aubio_onset_do := fun e block => (e, nth 1 block F32.zero);
  aubio_pitch_do := fun e block => (e, nth 2 block F32.zero);
  aubio_tempo_get_bpm := fun e => F32.of_nat e
}.

(** A clock that counts milliseconds since midnight, printed as the
    number of whole seconds; floats are printed by their integer part when
    they are small non-negative integers and as [?] otherwise. *)
Definition format_small (x : F32.t) : string :=
  match x with
  | S754_zero _ => "0"
  | S754_finite false m e =>
      if (0 <=? e)%Z then decimal (Npos m * 2 ^ Z.to_N e)
      else if (Npos m mod 2 ^ Z.to_N (- e) =? 0)%N
      then decimal (Npos m / 2 ^ Z.to_N (- e))
      else "?"
  | _ => "?"
  end.

#[export] Instance PlainFormat : LogFormat Z := {
  format_T := fun t => decimal (Z.to_N (t / 1000));
  format_F_T := fun t => decimal (Z.to_N (t / 1000));
  time_since_epoch_ms := fun t => t;
  format_1f := fun x => (format_small x ++ ".0")%string;
  format_3f := fun x => (format_small x ++ ".000")%string
}.

Definition f32_60 : F32.t := F32.of_nat 60.
Definition f32_90 : F32.t := F32.of_nat 90.
Definition f32_120 : F32.t := F32.of_nat 120.

(** An event that carries its number as its BPM. *)
Definition numbered_event (i : nat) : Event.t :=
  {| Event.is_beat := true; Event.is_onset := false; Event.bpm := F32.of_nat i;
     Event.pitch_hz := F32.zero; Event.process_ms := S754_zero false |}.

(** A block of 512 samples on which the scripted engine reports a beat. *)
Definition beat_block : list F32.t := F32.of_nat 1 :: replicate 511 F32.zero.

(** A transport buffer that holds [samples], with the given stride. *)
Definition buffer_of (samples : list F32.t) (stride : Z) : pw_buffer :=
  {| buffer :=
       Some {| audio_blocks.data := Some samples;
               audio_blocks.chunk :=
                 Some {| audio_blocks.chunk_size :=
                           (4 * N.of_nat (length samples))%N;
                         audio_blocks.chunk_stride := stride |} |} |}.

(** A detector right after a successful [initialize], on the scripted
    engine. *)
Definition ready_detector (enable_logging enable_pitch : bool) : DetectorState nat :=
  initialized (DetectorState_new 0 512%N enable_logging enable_pitch false) true.

(** ** More notions: the command line *)

(** A help request. *)
Definition is_help (arg : string) : bool :=
  String.eqb arg "--help" || String.eqb arg "-h".

(** Whether the option [name] occurs among the arguments. *)
Definition has_arg (name : string) (args : list string) : bool :=
  existsb (String.eqb name) args.

(** The positional arguments, in order. *)
Definition positionals (args : list string) : list string :=
  List.filter is_positional args.

(** [options] after the flags among [args], with buffer size [n]: a
    [--no-...] flag switches its option off, [--pitch] switches pitch on. *)
Definition merge_flags (options : Options) (args : list string) (n : N) : Options :=
  {| opt_buffer_size := n;
     logging := logging options && negb (has_arg "--no-log" args);
     stats := stats options && negb (has_arg "--no-stats" args);
     pitch := pitch options || has_arg "--pitch" args;
     visual := visual options && negb (has_arg "--no-visual" args) |}.

(** The options a command line asks for, read off the set of its flags. *)
Definition flags_options (args : list string) (n : N) : Options :=
  merge_flags Options_default args n.

(** The FFT size of the constructor: [fft_size(buffer_size_in * 2)] on
    [std::uint32_t]. *)
Definition fft_size_of (buffer_size_in : N) : N := wrap32 (buffer_size_in * 2).

(** ** More notions: the data path *)

(** Two states with the same ring: the same slots and the same indices. *)
Definition same_ring {E : Type} (a b : DetectorState E) : Prop :=
  events a = events b /\ ev_head a = ev_head b /\ ev_tail a = ev_tail b.

Definition is_signal (e : Effect) : bool :=
  match e with
  | PwLoopSignalEvent => true
  | _ => false
  end.

Definition is_queue_buffer (e : Effect) : bool :=
  match e with
  | PwStreamQueueBuffer => true
  | _ => false
  end.

(** The effects of the loop over the blocks: analysing and signalling. *)
Definition is_block_effect (e : Effect) : bool :=
  match e with
  | AnalyseBlock _ | PwLoopSignalEvent => true
  | _ => false
  end.

(** An event that is not a beat repeats the BPM that was current before
    it: [prev] for the first event, the BPM of the event before for the
    others. *)
Fixpoint bpm_chain (prev : F32.t) (evs : list Event.t) : Prop :=
  match evs with
  | [] => True
  | ev :: rest =>
      (Event.is_beat ev = false -> Event.bpm ev = prev)
      /\ bpm_chain (Event.bpm ev) rest
  end.

Definition beat_or_onset (ev : Event.t) : Prop :=
  Event.is_beat ev || Event.is_onset ev = true.

(** The BPM values of the beats among [evs], in order. *)
Definition beat_bpms (evs : list Event.t) : list F32.t :=
  map Event.bpm (List.filter Event.is_beat evs).

(** Whether [pw_stream_dequeue_buffer] handed out a buffer. *)
Definition is_dequeued (pw_buf : option pw_buffer) : bool :=
  match pw_buf with
  | Some _ => true
  | None => false
  end.

(** Whether a call of the real-time callback takes a lease that re-queues
    the buffer: it got past the [quit] check, a buffer was dequeued and
    the stream is held. *)
Definition requeues {E : Type} (st : DetectorState E) (pw_buf : option pw_buffer)
    : bool :=
  negb (quit st) && is_dequeued pw_buf && stream st.

(** ** More notions: runs *)

(** The calls on the stream handle that the code guards by a null check. *)
Definition is_stream_call (e : Effect) : bool :=
  match e with
  | PwStreamQueueBuffer | PwStreamDisconnect | PwStreamSetActive _ => true
  | _ => false
  end.

Definition is_loop_quit (e : Effect) : bool :=
  match e with
  | PwMainLoopQuit => true
  | _ => false
  end.

Definition is_signal_op {Time : Type} (op : Op Time) : bool :=
  match op with
  | OpSignal => true
  | _ => false
  end.

Definition is_error_notification {Time : Type} (op : Op Time) : bool :=
  match op with
  | OpStateChanged PW_STREAM_STATE_ERROR _ => true
  | _ => false
  end.

Definition is_monitor {Time : Type} (op : Op Time) : bool :=
  match op with
  | OpMonitor => true
  | _ => false
  end.

Definition is_process {Time : Type} (op : Op Time) : bool :=
  match op with
  | OpProcess _ => true
  | _ => false
  end.

Definition is_drain {Time : Type} (op : Op Time) : bool :=
  match op with
  | OpDrain _ => true
  | _ => false
  end.

(** All the effects of a run, in order. *)
Definition effects_of {Time : Type} (log : list (Op Time * list Effect))
    : list Effect :=
  flat_map snd log.

(** The rounds of the monitor in which it asked the mainloop to quit. *)
Definition monitor_quits {Time : Type} (log : list (Op Time * list Effect)) : nat :=
  length (List.filter
            (fun entry => is_monitor (fst entry) && existsb is_loop_quit (snd entry))
            log).

(** The operations up to the first [destroy]. *)
Fixpoint before_destroy {Time : Type} (ops : list (Op Time)) : list (Op Time) :=
  match ops with
  | [] => []
  | op :: rest => if is_destroy op then [] else op :: before_destroy rest
  end.

(** The books of the real-time side: the analysis engine, the totals, the
    BPM memory and what the producer writes of the ring. *)
Definition same_books {E : Type} (st st' : DetectorState E) : Prop :=
  engine st' = engine st /\ total_beats st' = total_beats st
  /\ total_onsets st' = total_onsets st /\ last_bpm st' = last_bpm st
  /\ bpm st' = bpm st /\ events st' = events st /\ ev_head st' = ev_head st.

(** [makeBufferViewFromSpan<float>] of [audio.blocks:core]. *)
Definition makeBufferViewFromSpan (samples : list F32.t) (block_size_samples : N)
    : expected audio_blocks.BufferView audio_blocks.ViewError :=
  if (block_size_samples =? 0)%N then Unexpected audio_blocks.ZeroBlockSize
  else Ok {| audio_blocks.samples_ := samples;
             audio_blocks.block_size_ := block_size_samples |}.

(** ** More notions: the conversions of [std::format] *)

(** The [width] low decimal digits of [n], most significant first: what a
    conversion to a fixed number of digits prints. *)
Fixpoint digits_of (width : nat) (n : N) : string :=
  match width with
  | O => EmptyString
  | S width' =>
      (digits_of width' (n / 10)
       ++ String (ascii_of_N (48 + n mod 10)) EmptyString)%string
  end.

(** [{:%T}] of a [std::chrono::system_clock::time_point] whose duration is
    nanoseconds (libstdc++), [t] being the count since the epoch: the time
    of day as [%H:%M:%S], where [%S], for a duration finer than seconds,
    is the seconds in two digits, a dot and the sub-second part in the
    nine digits of the precision. *)
Definition chrono_T (t : Z) : string :=
  let time_of_day := (t mod 86400000000000)%Z in
  let seconds := Z.to_N (time_of_day / 1000000000) in
  let subseconds := Z.to_N (time_of_day mod 1000000000) in
  (digits_of 2 (seconds / 3600) ++ ":" ++ digits_of 2 (seconds / 60 mod 60) ++ ":"
   ++ digits_of 2 (seconds mod 60) ++ "." ++ digits_of 9 subseconds)%string.

(** Rounding of [num / den] to the nearest integer, ties to even. *)
Definition round_half_even (num den : N) : N :=
  let q := (num / den)%N in
  let r := (num mod den)%N in
  if (den <? 2 * r)%N || ((2 * r =? den)%N && N.odd q) then (q + 1)%N else q.

(** [{:.pf}] of a [float]: the exact value rounded to [p] decimals, in
    fixed notation. ([spec_float] keeps no sign for a NaN, which is
    printed without one here.) *)
Definition format_fixed (p : nat) (x : F32.t) : string :=
  let sign (s : bool) := if s then "-"%string else EmptyString in
  let fixed (scaled : N) :=
    (decimal (scaled / 10 ^ N.of_nat p)
     ++ match p with
        | O => EmptyString
        | S _ => "." ++ digits_of p scaled
        end)%string in
  match x with
  | S754_zero s => (sign s ++ fixed 0%N)%string
  | S754_infinity s => (sign s ++ "inf")%string
  | S754_nan => "nan"%string
  | S754_finite s m e =>
      let scaled :=
        if (0 <=? e)%Z then (Npos m * 2 ^ Z.to_N e * 10 ^ N.of_nat p)%N
        else round_half_even (Npos m * 10 ^ N.of_nat p) (2 ^ Z.to_N (- e)) in
      (sign s ++ fixed scaled)%string
  end.

(** The conversions of the log lines on a system clock that counts
    nanoseconds: the clock reading is the count since the epoch,
    [duration_cast<milliseconds>] truncates it. The date and time of the
    banner, on the UTC clock, stay a parameter. *)
Definition SystemClockFormat (date_time : Z -> string) : LogFormat Z := {|
  format_T := chrono_T;
  format_F_T := date_time;
  time_since_epoch_ms := fun t => Z.quot t 1000000;
  format_1f := format_fixed 1;
  format_3f := format_fixed 3
|}.

(** ** More notions: a push and a drain that overlap *)

(** What a push has loaded: [head] and [tail] of [impl.cpp], the values of
    the two indices when the push began. *)
Record PushLoaded : Type := mkPushLoaded {
  loaded_head : nat;
  loaded_tail : nat
}.

(** The push of the real-time callback, split where the other thread can
    come in between: first the two loads of the indices, *)
Definition push_load {E : Type} (st : DetectorState E) : PushLoaded :=
  {| loaded_head := ev_head st; loaded_tail := ev_tail st |}.

(** then, on what was loaded, the store of the tail when the next head
    meets it, the write of the slot and the store of the head. *)
Definition push_store {E : Type} (st : DetectorState E) (loaded : PushLoaded)
    (ev : Event.t) : DetectorState E :=
  let head := loaded_head loaded in
  let tail := loaded_tail loaded in
  let next_head := (head + 1) mod kEventCap in
  let st1 := if next_head =? tail
             then set_ev_tail st ((tail + 1) mod kEventCap)
             else st in
  let st2 := set_events st1 (<[head := ev]> (events st1)) in
  set_ev_head st2 next_head.

(** One round of the loop of the drain callback: the state it leaves and
    the event it has read, if the ring was not empty. *)
Definition drain_round_once {E : Type} (st : DetectorState E)
    : DetectorState E * option Event.t :=
  let tail := ev_tail st in
  let head := ev_head st in
  if tail =? head then (st, None)
  else (set_ev_tail st ((tail + 1) mod kEventCap),
        Some (nth tail (events st) Event.zero)).

(** * Part II: the properties *)

(** ** Modular arithmetic with the wrap written as a comparison *)

Lemma mod_succ_wrap (n a : nat) :
  a < n -> (a + 1) mod n = if a + 1 =? n then 0 else a + 1.
Proof.
  intros Ha. destruct (Nat.eqb_spec (a + 1) n) as [->|Hne].
  - apply Nat.Div0.mod_same.
  - apply Nat.mod_small. lia.
Qed.

Lemma mod_sub_wrap (n a b : nat) :
  a < n -> b <= n -> 0 < n ->
  (a + n - b) mod n = if b <=? a then a - b else a + n - b.
Proof.
  intros Ha Hb Hn. destruct (Nat.leb_spec b a) as [Hle|Hgt].
  - replace (a + n - b) with ((a - b) + 1 * n) by lia.
    rewrite Nat.Div0.mod_add. apply Nat.mod_small. lia.
  - apply Nat.mod_small. lia.
Qed.

(** ** Windows of a circular array *)

Section Ring.

Context {A : Type} (d : A) (cap : nat).
Hypothesis cap_pos : 0 < cap.

Lemma ring_slice_length (l : list A) start len :
  length (ring_slice d cap l start len) = len.
Proof using Type. unfold ring_slice. rewrite length_map. apply length_seq. Qed.

Lemma mod_add_distinct start i len :
  i < len -> len < cap -> (start + i) mod cap <> (start + len) mod cap.
Proof using cap_pos.
  intros Hi Hlen Heq.
  pose proof (Nat.div_mod_eq (start + i) cap) as E1.
  pose proof (Nat.div_mod_eq (start + len) cap) as E2.
  rewrite Heq in E1.
  assert (Hd : len - i = cap * ((start + len) / cap - (start + i) / cap)) by nia.
  destruct ((start + len) / cap - (start + i) / cap) as [|k]; nia.
Qed.

(** Writing the slot just after the window extends the window by the
    written value. *)
Lemma ring_slice_snoc (l : list A) start len v :
  length l = cap -> len < cap ->
  ring_slice d cap (<[(start + len) mod cap := v]> l) start (S len)
  = ring_slice d cap l start len ++ [v].
Proof using cap_pos.
  intros Hl Hlen. unfold ring_slice.
  rewrite seq_S, map_app. cbn [map]. f_equal.
  - apply map_ext_in. intros i Hi. apply in_seq in Hi.
    rewrite !nth_lookup. rewrite list_lookup_insert_ne; [reflexivity|].
    intros Heq. apply (mod_add_distinct start i len); [lia | lia | congruence].
  - rewrite Nat.add_0_l, nth_lookup, list_lookup_insert_eq; [reflexivity|].
    rewrite Hl. apply Nat.mod_upper_bound. lia.
Qed.

(** A window is its first slot followed by the window one slot later. *)
Lemma ring_slice_cons (l : list A) start len :
  ring_slice d cap l start (S len)
  = nth (start mod cap) l d :: ring_slice d cap l ((start + 1) mod cap) len.
Proof using cap_pos.
  unfold ring_slice. cbn [seq map]. rewrite Nat.add_0_r. f_equal.
  rewrite <- seq_shift, map_map. apply map_ext. intros i.
  f_equal. rewrite Nat.Div0.add_mod_idemp_l. f_equal. lia.
Qed.

End Ring.

Lemma lastn_length {A : Type} (k : nat) (l : list A) :
  length (lastn k l) = Nat.min k (length l).
Proof. unfold lastn. rewrite length_drop. lia. Qed.

Lemma tail_drop {A : Type} (n : nat) (l : list A) : tail (drop n l) = drop (S n) l.
Proof.
  revert n. induction l as [|x l IH]; intros [|n]; cbn; try reflexivity.
  apply IH.
Qed.

(** Appending one element to a list shifts its last-[k] window. *)
Lemma lastn_snoc {A : Type} (k : nat) (l : list A) (v : A) :
  0 < k ->
  lastn k (l ++ [v]) = (if length l <? k then lastn k l else tail (lastn k l)) ++ [v].
Proof.
  intros Hk. unfold lastn. rewrite length_app. cbn [length].
  destruct (Nat.ltb_spec (length l) k) as [Hlt|Hge].
  - replace (length l + 1 - k) with 0 by lia.
    replace (length l - k) with 0 by lia. reflexivity.
  - rewrite tail_drop.
    replace (length l + 1 - k) with (S (length l - k)) by lia.
    rewrite drop_app_le; [reflexivity | lia].
Qed.

(** ** The BPM rolling buffer *)

Lemma kBPMCapacity_pos : 0 < kBPMCapacity.
Proof. unfold kBPMCapacity. lia. Qed.

Lemma bpm_window_slice b :
  bpm_window b
  = ring_slice F32.zero kBPMCapacity (values b)
      ((head b + kBPMCapacity - count b) mod kBPMCapacity) (count b).
Proof. reflexivity. Qed.

Lemma bpm_init_wf : bpm_wf bpm_init.
Proof. unfold bpm_wf, bpm_init, kBPMCapacity. cbn. lia. Qed.

Lemma bpm_record_wf b v : bpm_wf b -> bpm_wf (bpm_record b v).
Proof.
  unfold bpm_wf. intros (Hl & Hh & Hc). cbn [bpm_record values head count].
  rewrite length_insert. repeat split; [assumption| |lia].
  apply Nat.mod_upper_bound. unfold kBPMCapacity. lia.
Qed.

(** Recording a value appends it to the window, evicting the oldest entry
    once the buffer holds [kBPMCapacity] values. *)
Lemma bpm_window_record b v :
  bpm_wf b ->
  bpm_window (bpm_record b v)
  = (if count b <? kBPMCapacity then bpm_window b else tail (bpm_window b)) ++ [v].
Proof.
  intros (Hl & Hh & Hc). rewrite !bpm_window_slice. cbn [bpm_record values head count].
  pose proof kBPMCapacity_pos as Hcap.
  set (C := kBPMCapacity) in *.
  destruct (Nat.ltb_spec (count b) C) as [Hlt|Hge].
  - replace (Nat.min (count b + 1) C) with (S (count b)) by lia.
    set (first := (head b + C - count b) mod C).
    assert (Hfirst : ((head b + 1) mod C + C - S (count b)) mod C = first).
    { unfold first. rewrite mod_succ_wrap by lia.
      rewrite !mod_sub_wrap by (try destruct (Nat.eqb_spec (head b + 1) C); lia).
      destruct (Nat.eqb_spec (head b + 1) C);
        destruct (Nat.leb_spec (count b) (head b));
        destruct (Nat.leb_spec (S (count b)) 0);
        destruct (Nat.leb_spec (S (count b)) (head b + 1)); lia. }
    rewrite Hfirst.
    assert (Hpos : head b = (first + count b) mod C).
    { unfold first. rewrite mod_sub_wrap by lia.
      destruct (Nat.leb_spec (count b) (head b)).
      - rewrite Nat.mod_small; lia.
      - replace (head b + C - count b + count b) with (head b + 1 * C) by lia.
        rewrite Nat.Div0.mod_add. rewrite Nat.mod_small; lia. }
    rewrite Hpos at 1. apply ring_slice_snoc; [lia | assumption | lia].
  - assert (Hcnt : count b = C) by lia. rewrite Hcnt.
    replace (Nat.min (C + 1) C) with C by lia.
    replace (head b + C - C) with (head b) by lia.
    rewrite (Nat.mod_small (head b) C) by lia.
    replace (((head b + 1) mod C + C - C)) with ((head b + 1) mod C) by lia.
    rewrite Nat.Div0.mod_mod.
    destruct C as [|C']; [lia|].
    rewrite (ring_slice_cons F32.zero (S C') Hcap (values b) (head b) C'). cbn [tail].
    assert (Hpos : head b = ((head b + 1) mod S C' + C') mod S C').
    { rewrite Nat.Div0.add_mod_idemp_l.
      replace (head b + 1 + C') with (head b + 1 * S C') by lia.
      rewrite Nat.Div0.mod_add. rewrite Nat.mod_small; lia. }
    rewrite Hpos at 1. apply ring_slice_snoc; [lia | assumption | lia].
Qed.

(** After recording [vs] into the empty buffer, the buffer is well formed,
    holds [min (length vs) kBPMCapacity] values, and its window is the last
    [kBPMCapacity] values of [vs] in recording order. *)
Lemma bpm_record_all vs :
  let b := fold_left bpm_record vs bpm_init in
  bpm_wf b /\ count b = Nat.min (length vs) kBPMCapacity
  /\ bpm_window b = lastn kBPMCapacity vs.
Proof.
  induction vs as [|v vs IH] using rev_ind.
  - cbn. split; [apply bpm_init_wf | split; reflexivity].
  - rewrite fold_left_app. cbn [fold_left].
    destruct IH as (Hwf & Hcnt & Hwin).
    set (b := fold_left bpm_record vs bpm_init) in *.
    split; [apply bpm_record_wf; assumption|]. split.
    + cbn [bpm_record count]. rewrite Hcnt, length_app. cbn [length]. lia.
    + rewrite bpm_window_record by assumption.
      rewrite lastn_snoc by apply kBPMCapacity_pos.
      rewrite Hwin, Hcnt.
      destruct (Nat.ltb_spec (length vs) kBPMCapacity);
        destruct (Nat.ltb_spec (Nat.min (length vs) kBPMCapacity) kBPMCapacity);
        try lia; reflexivity.
Qed.

Lemma averageBpm_window b :
  averageBpm b = if count b =? 0 then F32.zero
                 else F32.div (fold_left F32.add (bpm_window b) F32.zero)
                              (F32.of_nat (count b)).
Proof. reflexivity. Qed.

(** The average after recording [vs] is the float mean of the last
    [min (length vs) kBPMCapacity] of them, and [0.0F] for no value. *)
Lemma averageBpm_recorded vs :
  averageBpm (fold_left bpm_record vs bpm_init)
  = match vs with
    | [] => F32.zero
    | _ :: _ => mean32 (lastn (Nat.min (length vs) kBPMCapacity) vs)
    end.
Proof.
  destruct (bpm_record_all vs) as (Hwf & Hcnt & Hwin).
  rewrite averageBpm_window, Hwin, Hcnt.
  destruct vs as [|v vs]; [reflexivity|].
  set (l := v :: vs) in *.
  assert (Hlast : lastn (Nat.min (length l) kBPMCapacity) l = lastn kBPMCapacity l).
  { unfold lastn. f_equal. lia. }
  rewrite Hlast. unfold mean32. rewrite lastn_length.
  replace (Nat.min kBPMCapacity (length l)) with (Nat.min (length l) kBPMCapacity) by lia.
  destruct (Nat.eqb_spec (Nat.min (length l) kBPMCapacity) 0) as [H0|H0]; [|reflexivity].
  unfold l, kBPMCapacity in H0. cbn [length] in H0. lia.
Qed.

(** C4. BPM rolling buffer of capacity 10: [averageBpm] is [0.0F] when
    nothing was recorded; after recording a non-empty [vs] it is the mean
    (float sum from [0.0F] in recording order, divided by the count) of
    exactly the [min (length vs) 10] most recent values; recording
    60, 120, 90 gives 90.0; and after eleven values the first one is not
    part of the mean. *)
Theorem averageBpm_mean_of_recent :
  averageBpm bpm_init = F32.zero
  /\ (forall v vs,
        averageBpm (fold_left bpm_record (v :: vs) bpm_init)
        = mean32 (lastn (Nat.min (length (v :: vs)) kBPMCapacity) (v :: vs)))
  /\ averageBpm (fold_left bpm_record [f32_60; f32_120; f32_90] bpm_init) = f32_90
  /\ (forall v0 v1 v2 v3 v4 v5 v6 v7 v8 v9 v10,
        averageBpm
          (fold_left bpm_record [v0; v1; v2; v3; v4; v5; v6; v7; v8; v9; v10] bpm_init)
        = mean32 [v1; v2; v3; v4; v5; v6; v7; v8; v9; v10]).
Proof.
  split; [reflexivity|]. split.
  - intros v vs. apply (averageBpm_recorded (v :: vs)).
  - split; [vm_compute; reflexivity|].
    intros. rewrite averageBpm_recorded. reflexivity.
Qed.

(** ** The SPSC event ring *)

Lemma kEventCap_pos : 0 < kEventCap.
Proof. unfold kEventCap. lia. Qed.

(** Case analysis on the comparisons left by the wrap lemmas. *)
Ltac wrap_cases :=
  repeat match goal with
    | |- context [Nat.eqb ?a ?b] => destruct (Nat.eqb_spec a b)
    | |- context [Nat.leb ?a ?b] => destruct (Nat.leb_spec a b)
    | |- context [Nat.ltb ?a ?b] => destruct (Nat.ltb_spec a b)
    | H : context [Nat.eqb ?a ?b] |- _ => destruct (Nat.eqb_spec a b)
    | H : context [Nat.leb ?a ?b] |- _ => destruct (Nat.leb_spec a b)
    | H : context [Nat.ltb ?a ?b] |- _ => destruct (Nat.ltb_spec a b)
    end.

Section Spsc.

Context {E : Type}.
Implicit Types st : DetectorState E.

Lemma set_ev_tail_same st : set_ev_tail st (ev_tail st) = st.
Proof using Type. destruct st; reflexivity. Qed.

Lemma spsc_size_cases st :
  spsc_wf st ->
  spsc_size st = if ev_tail st <=? ev_head st
                 then ev_head st - ev_tail st
                 else ev_head st + kEventCap - ev_tail st.
Proof using Type.
  intros (_ & Hh & Ht). unfold spsc_size.
  apply mod_sub_wrap; [lia | lia | apply kEventCap_pos].
Qed.

Lemma spsc_size_bound st : spsc_wf st -> spsc_size st < kEventCap.
Proof using Type.
  intros Hwf. unfold spsc_size. apply Nat.mod_upper_bound.
  pose proof kEventCap_pos. lia.
Qed.

Lemma spsc_empty_iff st :
  spsc_wf st -> (ev_tail st = ev_head st <-> spsc_size st = 0).
Proof using Type.
  intros Hwf. rewrite spsc_size_cases by assumption. destruct Hwf as (_ & Hh & Ht).
  wrap_cases; lia.
Qed.

(** The ring is full exactly when the next head meets the tail. *)
Lemma spsc_full_iff st :
  spsc_wf st ->
  ((ev_head st + 1) mod kEventCap = ev_tail st <-> spsc_size st = kEventCap - 1).
Proof using Type.
  intros Hwf. rewrite spsc_size_cases by assumption. destruct Hwf as (_ & Hh & Ht).
  rewrite mod_succ_wrap by assumption. wrap_cases; lia.
Qed.

Lemma spsc_push_head st ev :
  ev_head (spsc_push st ev) = (ev_head st + 1) mod kEventCap.
Proof using Type. reflexivity. Qed.

Lemma spsc_push_tail st ev :
  ev_tail (spsc_push st ev)
  = if (ev_head st + 1) mod kEventCap =? ev_tail st
    then (ev_tail st + 1) mod kEventCap else ev_tail st.
Proof using Type.
  unfold spsc_push. destruct ((ev_head st + 1) mod kEventCap =? ev_tail st); reflexivity.
Qed.

Lemma spsc_push_events st ev :
  events (spsc_push st ev) = <[ev_head st := ev]> (events st).
Proof using Type.
  unfold spsc_push. destruct ((ev_head st + 1) mod kEventCap =? ev_tail st); reflexivity.
Qed.

Lemma spsc_push_wf st ev : spsc_wf st -> spsc_wf (spsc_push st ev).
Proof using Type.
  intros (Hl & Hh & Ht). unfold spsc_wf.
  rewrite spsc_push_events, spsc_push_head, spsc_push_tail, length_insert.
  pose proof kEventCap_pos as Hc.
  split; [assumption|]. split; [apply Nat.mod_upper_bound; lia|].
  destruct (_ =? _); [apply Nat.mod_upper_bound; lia | assumption].
Qed.

(** A push appends the event to the waiting events; on a full ring the
    oldest waiting event is dropped first. *)
Lemma spsc_contents_push st ev :
  spsc_wf st ->
  spsc_contents (spsc_push st ev)
  = (if spsc_size st =? kEventCap - 1
     then tail (spsc_contents st) else spsc_contents st) ++ [ev].
Proof using Type.
  intros Hwf. pose proof (spsc_push_wf st ev Hwf) as Hwf'.
  pose proof (spsc_full_iff st Hwf) as Hfull.
  pose proof (spsc_size_cases st Hwf) as Hsz.
  pose proof (spsc_size_cases _ Hwf') as Hsz'.
  pose proof kEventCap_pos as Hc.
  unfold spsc_contents.
  rewrite spsc_push_events. rewrite Hsz'.
  rewrite spsc_push_head, spsc_push_tail.
  destruct Hwf as (Hl & Hh & Ht).
  destruct (Nat.eqb_spec ((ev_head st + 1) mod kEventCap) (ev_tail st)) as [Hf|Hnf].
  - (* full: the tail moves on *)
    assert (Hs : spsc_size st = kEventCap - 1) by (apply Hfull; assumption).
    rewrite Hs, Nat.eqb_refl.
    assert (Hlen : (if (ev_tail st + 1) mod kEventCap <=? (ev_head st + 1) mod kEventCap
                    then (ev_head st + 1) mod kEventCap - (ev_tail st + 1) mod kEventCap
                    else (ev_head st + 1) mod kEventCap + kEventCap
                         - (ev_tail st + 1) mod kEventCap) = S (kEventCap - 2)).
    { rewrite Hsz in Hs. rewrite !mod_succ_wrap by assumption.
      rewrite mod_succ_wrap in Hf by assumption.
      unfold kEventCap in *. wrap_cases; lia. }
    rewrite Hlen.
    replace (kEventCap - 1) with (S (kEventCap - 2)) by (unfold kEventCap; lia).
    rewrite (ring_slice_cons Event.zero kEventCap Hc (events st) (ev_tail st)).
    cbn [tail].
    assert (Hpos : ev_head st = ((ev_tail st + 1) mod kEventCap + (kEventCap - 2)) mod kEventCap).
    { rewrite Nat.Div0.add_mod_idemp_l. rewrite Hsz in Hs.
      destruct (Nat.leb_spec (ev_tail st) (ev_head st)).
      - rewrite Nat.mod_small; unfold kEventCap in *; lia.
      - replace (ev_tail st + 1 + (kEventCap - 2)) with (ev_head st + 1 * kEventCap)
          by (unfold kEventCap in *; lia).
        rewrite Nat.Div0.mod_add. apply eq_sym, Nat.mod_small. lia. }
    rewrite Hpos at 1.
    apply ring_slice_snoc; [assumption | assumption | unfold kEventCap; lia].
  - assert (Hs : spsc_size st <> kEventCap - 1) by (intros Hs; apply Hnf, Hfull, Hs).
    destruct (Nat.eqb_spec (spsc_size st) (kEventCap - 1)) as [|_]; [contradiction|].
    assert (Hlen : (if ev_tail st <=? (ev_head st + 1) mod kEventCap
                    then (ev_head st + 1) mod kEventCap - ev_tail st
                    else (ev_head st + 1) mod kEventCap + kEventCap - ev_tail st)
                   = S (spsc_size st)).
    { rewrite Hsz in *. rewrite mod_succ_wrap in * by assumption.
      wrap_cases; lia. }
    rewrite Hlen.
    assert (Hpos : ev_head st = (ev_tail st + spsc_size st) mod kEventCap).
    { rewrite Hsz. destruct (Nat.leb_spec (ev_tail st) (ev_head st)).
      - rewrite Nat.mod_small; lia.
      - replace (ev_tail st + (ev_head st + kEventCap - ev_tail st))
          with (ev_head st + 1 * kEventCap) by lia.
        rewrite Nat.Div0.mod_add. apply eq_sym, Nat.mod_small. lia. }
    rewrite Hpos at 1.
    apply ring_slice_snoc; [assumption | assumption |].
    pose proof (spsc_size_bound st (conj Hl (conj Hh Ht))). lia.
Qed.

Lemma spsc_size_contents st : length (spsc_contents st) = spsc_size st.
Proof using Type. apply ring_slice_length. Qed.

(** After pushing [evs] into a ring whose waiting events are [pre], the
    waiting events are the last [kEventCap - 1] of [pre ++ evs]. *)
Lemma spsc_push_all st evs :
  spsc_wf st ->
  let st' := fold_left spsc_push evs st in
  spsc_wf st'
  /\ spsc_contents st' = lastn (kEventCap - 1) (spsc_contents st ++ evs).
Proof using Type.
  intros Hwf. induction evs as [|ev evs IH] using rev_ind.
  - cbn zeta. cbn [fold_left]. split; [assumption|]. rewrite app_nil_r. unfold lastn.
    rewrite spsc_size_contents.
    pose proof (spsc_size_bound st Hwf).
    replace (spsc_size st - (kEventCap - 1)) with 0 by lia. reflexivity.
  - cbn zeta in *. rewrite fold_left_app. cbn [fold_left].
    destruct IH as (Hwf' & Hc).
    split; [apply spsc_push_wf; assumption|].
    rewrite spsc_contents_push by assumption.
    rewrite app_assoc, lastn_snoc by (unfold kEventCap; lia).
    rewrite <- Hc.
    pose proof (spsc_size_bound _ Hwf') as Hb.
    rewrite <- (spsc_size_contents (fold_left spsc_push evs st)) at 1.
    rewrite Hc at 1. rewrite lastn_length.
    rewrite <- spsc_size_contents in Hb. rewrite Hc, lastn_length in Hb.
    wrap_cases; try lia; reflexivity.
Qed.

End Spsc.

(** ** The drain callback *)

Section Drain.

Context {E Time : Type} `{LogFormat Time}.
Implicit Types st : DetectorState E.

(** One round of the loop on a ring that is not empty. *)
Lemma drain_round st :
  spsc_wf st -> ev_tail st <> ev_head st ->
  let st1 := set_ev_tail st ((ev_tail st + 1) mod kEventCap) in
  spsc_wf st1
  /\ spsc_size st = S (spsc_size st1)
  /\ spsc_contents st = nth (ev_tail st) (events st) Event.zero :: spsc_contents st1.
Proof using Type.
  intros Hwf Hne st1. pose proof kEventCap_pos as Hc.
  assert (Hwf1 : spsc_wf st1).
  { destruct Hwf as (Hl & Hh & Ht). unfold spsc_wf, st1.
    cbn [ev_tail ev_head events set_ev_tail].
    repeat split; try assumption. apply Nat.mod_upper_bound. lia. }
  assert (Hsz : spsc_size st = S (spsc_size st1)).
  { rewrite (spsc_size_cases st Hwf), (spsc_size_cases st1 Hwf1).
    destruct Hwf as (Hl & Hh & Ht).
    change (ev_tail st1) with ((ev_tail st + 1) mod kEventCap).
    change (ev_head st1) with (ev_head st).
    rewrite mod_succ_wrap by assumption. wrap_cases; lia. }
  split; [assumption|]. split; [assumption|].
  unfold spsc_contents. rewrite Hsz.
  rewrite (ring_slice_cons Event.zero kEventCap Hc).
  destruct Hwf as (Hl & Hh & Ht). rewrite (Nat.mod_small (ev_tail st)) by assumption.
  reflexivity.
Qed.

Lemma drain_loop_sound fuel clock : forall round st r,
  spsc_wf st ->
  drain_loop fuel clock round st = Some r -> r = drain_result clock round st.
Proof using Type.
  induction fuel as [|fuel IH]; intros round st r Hwf Hrun; [discriminate|].
  cbn [drain_loop] in Hrun.
  destruct (Nat.eqb_spec (ev_tail st) (ev_head st)) as [Heq|Hne].
  - injection Hrun as <-. unfold drain_result.
    apply spsc_empty_iff in Heq as Hsz; [|assumption].
    unfold spsc_contents. rewrite Hsz. cbn.
    rewrite <- Heq, set_ev_tail_same. reflexivity.
  - destruct (drain_round st Hwf Hne) as (Hwf1 & Hsz & Hcont).
    set (st1 := set_ev_tail st ((ev_tail st + 1) mod kEventCap)) in *.
    destruct (drain_loop fuel clock (S round) st1) as [r1|] eqn:Hrec; [|discriminate].
    injection Hrun as <-.
    rewrite (IH _ _ _ Hwf1 Hrec). unfold drain_result.
    rewrite Hcont. cbn [drained_state drained_events drained_effects drain_log].
    reflexivity.
Qed.

(** With more fuel than waiting events the drain returns. *)
Lemma drain_loop_total fuel clock : forall round st,
  spsc_wf st -> spsc_size st < fuel ->
  drain_loop fuel clock round st = Some (drain_result clock round st).
Proof using Type.
  induction fuel as [|fuel IH]; intros round st Hwf Hfuel; [lia|].
  destruct (drain_loop (S fuel) clock round st) as [r|] eqn:Hrun.
  - f_equal. eapply drain_loop_sound; eassumption.
  - exfalso. cbn [drain_loop] in Hrun.
    destruct (Nat.eqb_spec (ev_tail st) (ev_head st)) as [Heq|Hne]; [discriminate|].
    destruct (drain_round st Hwf Hne) as (Hwf1 & Hsz & _).
    rewrite (IH (S round) _ Hwf1) in Hrun by lia. discriminate.
Qed.

End Drain.

(** C1 (amended). SPSC event ring of [kEventCap = 1024] slots: starting
    from an empty ring, pushing the events [evs] and then draining (with
    fuel for a full ring) returns, and the drain delivers exactly the last
    [kEventCap - 1 = 1023] events of [evs] in push order -- all of [evs]
    when there are at most 1023 of them -- and leaves the ring empty. *)
Theorem spsc_push_then_drain :
  forall (E Time : Type) (F : LogFormat Time) (st : DetectorState E)
         (evs : list Event.t) (fuel : nat) (clock : nat -> Time),
    spsc_wf st -> ev_tail st = ev_head st -> kEventCap <= fuel ->
    exists r,
      drain fuel clock (fold_left spsc_push evs st) = Some r
      /\ drained_events r = lastn (kEventCap - 1) evs
      /\ (length evs <= kEventCap - 1 -> drained_events r = evs)
      /\ ev_tail (drained_state r) = ev_head (drained_state r).
Proof.
  intros E Time F st evs fuel clock Hwf Hempty Hfuel.
  destruct (spsc_push_all st evs Hwf) as (Hwf' & Hcont).
  apply spsc_empty_iff in Hempty; [|assumption].
  assert (Hnil : spsc_contents st = []).
  { apply length_zero_iff_nil. rewrite spsc_size_contents. assumption. }
  rewrite Hnil in Hcont. cbn [app] in Hcont.
  eexists. split.
  - unfold drain. apply drain_loop_total; [assumption|].
    pose proof (spsc_size_bound _ Hwf'). lia.
  - cbn [drain_result drained_events drained_state]. split; [assumption|].
    split; [|reflexivity].
    intros Hlen. rewrite Hcont. unfold lastn.
    replace (length evs - (kEventCap - 1)) with 0 by lia. reflexivity.
Qed.

Lemma ready_detector_wf a b : spsc_wf (ready_detector a b).
Proof.
  unfold spsc_wf, ready_detector, initialized, DetectorState_new.
  cbn [events ev_head ev_tail]. rewrite length_replicate. unfold kEventCap. lia.
Qed.

Lemma spsc_push_then_drain_witness :
  let st := ready_detector false false in
  let evs := [numbered_event 0; numbered_event 1; numbered_event 2] in
  spsc_wf st /\ ev_tail st = ev_head st /\ kEventCap <= 1024
  /\ exists r,
       drain 1024 (fun _ => 0%Z) (fold_left spsc_push evs st) = Some r
       /\ drained_events r = lastn (kEventCap - 1) evs
       /\ (length evs <= kEventCap - 1 -> drained_events r = evs)
       /\ ev_tail (drained_state r) = ev_head (drained_state r).
Proof.
  intros st evs.
  assert (H1 : spsc_wf st) by apply ready_detector_wf.
  assert (H2 : ev_tail st = ev_head st) by reflexivity.
  assert (H3 : kEventCap <= 1024) by (unfold kEventCap; lia).
  split; [exact H1|]. split; [exact H2|]. split; [exact H3|].
  exact (spsc_push_then_drain nat Z PlainFormat st evs 1024 (fun _ => 0%Z) H1 H2 H3).
Defined.

(** C1 as stated fails at [k = N]: after 1024 pushes into the empty ring
    the drain delivers 1023 events, the first one pushed is lost. *)
Lemma spsc_push_capacity_loses_first :
  let evs := map numbered_event (seq 0 kEventCap) in
  exists r,
    drain (S kEventCap) (fun _ => 0%Z)
      (fold_left spsc_push evs (ready_detector false false)) = Some r
    /\ length evs <= kEventCap
    /\ drained_events r = drop 1 evs
    /\ drained_events r <> evs.
Proof.
  intros evs.
  destruct (spsc_push_all (ready_detector false false) evs (ready_detector_wf _ _))
    as (Hwf & Hcont).
  eexists. split.
  - unfold drain. apply drain_loop_total; [assumption|].
    pose proof (spsc_size_bound _ Hwf). lia.
  - cbn [drain_result drained_events].
    assert (Hlen : length evs = kEventCap).
    { unfold evs. rewrite length_map, length_seq. reflexivity. }
    split; [lia|].
    assert (Hdrop : spsc_contents (fold_left spsc_push evs (ready_detector false false))
                    = drop 1 evs).
    { rewrite Hcont. unfold lastn.
      replace (spsc_contents (ready_detector false false)) with (@nil Event.t) by reflexivity.
      cbn [app]. rewrite Hlen. reflexivity. }
    split; [assumption|].
    rewrite Hdrop. intros Heq. apply (f_equal length) in Heq.
    rewrite length_drop, Hlen in Heq. unfold kEventCap in Heq. lia.
Qed.

(** ** The block iterator *)

Section Blocks.

Import audio_blocks.

(** The loop folds its body over the blocks that the same loop collects. *)
Lemma for_loop_collect {St : Type} (body : St -> list F32.t -> St) :
  forall fuel it last s acc,
    for_loop fuel it last body s
    = match for_loop fuel it last (fun a block => a ++ [block]) acc with
      | Some bl => Some (fold_left body (drop (length acc) bl) s)
      | None => None
      end
    /\ (forall bl, for_loop fuel it last (fun a block => a ++ [block]) acc = Some bl ->
                   take (length acc) bl = acc).
Proof.
  induction fuel as [|fuel IH]; intros it last s acc; [split; [reflexivity|discriminate]|].
  cbn [for_loop]. destruct (it_ne it last).
  - destruct (IH (it_next it) last (body s (it_deref it)) (acc ++ [it_deref it]))
      as (Hrun & Hpre).
    split.
    + rewrite Hrun.
      destruct (for_loop fuel (it_next it) last _ (acc ++ [it_deref it])) as [bl|] eqn:Hbl;
        [|reflexivity].
      f_equal. specialize (Hpre bl eq_refl).
      rewrite length_app in Hpre. cbn [length] in Hpre.
      assert (Hsplit : drop (length acc) bl = it_deref it :: drop (length acc + 1) bl).
      { rewrite <- (take_drop (length acc + 1) bl) at 1.
        rewrite Hpre, <- app_assoc, drop_app_length. reflexivity. }
      rewrite Hsplit, length_app. reflexivity.
    + intros bl Hbl. specialize (Hpre bl Hbl).
      assert (Htake : take (length acc) (take (length (acc ++ [it_deref it])) bl)
                      = take (length acc) bl).
      { rewrite take_take. f_equal. rewrite length_app. cbn [length]. lia. }
      rewrite <- Htake, Hpre. apply take_app_length.
  - split.
    + rewrite drop_all. reflexivity.
    + intros bl [= <-]. apply firstn_all.
Qed.

Lemma for_blocks_fold {St : Type} (body : St -> list F32.t -> St) fuel view s :
  for_blocks fuel view body s
  = match blocks fuel view with
    | Some bl => Some (fold_left body bl s)
    | None => None
    end.
Proof.
  unfold blocks, for_blocks.
  destruct (for_loop_collect body fuel (range_begin (samples_ view) (block_size_ view))
              (range_end (samples_ view) (block_size_ view)) s []) as (Hrun & _).
  rewrite Hrun. destruct (for_loop _ _ _ _ []); reflexivity.
Qed.

(** From the [j]-th block boundary on, the loop collects the blocks
    [j .. K - 1], where [K] is the number of whole blocks. *)
Lemma for_loop_from (samples : list F32.t) (b : N) :
  (0 < b)%N -> (span_size samples < 2 ^ 64)%N ->
  forall k j fuel acc,
    j + k = length samples / N.to_nat b -> k < fuel ->
    for_loop fuel (mkIterator samples b (N.of_nat j * b)) (range_end samples b)
      (fun a block => a ++ [block]) acc
    = Some (acc ++ map (fun i => take (N.to_nat b) (drop (i * N.to_nat b) samples))
                       (seq j k)).
Proof.
  intros Hb Hn.
  set (K := length samples / N.to_nat b).
  assert (HK : N.of_nat K = (span_size samples / b)%N).
  { unfold K, span_size. rewrite Nat2N.inj_div, N2Nat.id. reflexivity. }
  assert (Hle : (N.of_nat K * b <= span_size samples)%N).
  { rewrite HK, N.mul_comm. apply N.Div0.mul_div_le. }
  assert (Hend : offset_ (range_end samples b) = (N.of_nat K * b)%N).
  { cbn [range_end offset_]. unfold wrap64. rewrite <- HK. apply N.mod_small. lia. }
  induction k as [|k IH]; intros j fuel acc Hjk Hfuel;
    (destruct fuel as [|fuel]; [lia|]); cbn [for_loop]; unfold it_ne; rewrite Hend;
    cbn [offset_].
  - assert (j = K) as -> by lia. rewrite N.eqb_refl. cbn. rewrite app_nil_r. reflexivity.
  - destruct (N.eqb_spec (N.of_nat j * b) (N.of_nat K * b)) as [Heq|Hne].
    { apply N.mul_cancel_r in Heq; lia. }
    cbn [negb]. unfold it_next, it_deref. cbn [all_ block_ offset_].
    assert (Hnext : wrap64 (N.of_nat j * b + b) = (N.of_nat (S j) * b)%N).
    { unfold wrap64. rewrite N.mod_small; [lia|].
      assert (N.of_nat (S j) * b <= N.of_nat K * b)%N by (apply N.mul_le_mono_r; lia).
      lia. }
    rewrite Hnext, (IH (S j) fuel) by lia.
    f_equal. rewrite <- app_assoc. f_equal. cbn [seq map app]. f_equal.
    unfold subspan. rewrite N2Nat.inj_mul, Nat2N.id. reflexivity.
Qed.

(** With fuel for one round more than there are whole blocks, [blocks]
    returns the whole blocks. *)
Lemma blocks_whole (samples : list F32.t) (b : N) fuel :
  (0 < b)%N -> (span_size samples < 2 ^ 64)%N ->
  length samples / N.to_nat b < fuel ->
  blocks fuel (mkBufferView samples b) = Some (whole_blocks samples (N.to_nat b)).
Proof.
  intros Hb Hn Hfuel. unfold blocks, for_blocks. cbn [samples_ block_size_].
  change (range_begin samples b) with (mkIterator samples b (N.of_nat 0 * b)).
  rewrite (for_loop_from samples b Hb Hn (length samples / N.to_nat b) 0) by lia.
  reflexivity.
Qed.

Lemma whole_blocks_length (samples : list F32.t) bn : length (whole_blocks samples bn) = length samples / bn.
Proof. unfold whole_blocks. rewrite length_map. apply length_seq. Qed.

Lemma whole_blocks_lookup (samples : list F32.t) bn i :
  i < length samples / bn ->
  whole_blocks samples bn !! i = Some (take bn (drop (i * bn) samples)).
Proof.
  intros Hi. unfold whole_blocks. rewrite list_lookup_fmap.
  rewrite lookup_seq_lt by assumption. reflexivity.
Qed.

Lemma whole_blocks_each (samples : list F32.t) bn :
  0 < bn -> Forall (fun block => length block = bn) (whole_blocks samples bn).
Proof.
  intros Hbn. unfold whole_blocks. apply Forall_forall. intros block Hin.
  apply list_elem_of_In, in_map_iff in Hin. destruct Hin as (i & <- & Hi).
  apply in_seq in Hi. rewrite length_take, length_drop.
  pose proof (Nat.Div0.mul_div_le (length samples) bn) as Hle.
  assert ((i + 1) * bn <= length samples / bn * bn) by (apply Nat.mul_le_mono_r; lia).
  lia.
Qed.

Lemma concat_blocks_upto (samples : list F32.t) bn k :
  concat (map (fun i => take bn (drop (i * bn) samples)) (seq 0 k))
  = take (k * bn) samples.
Proof.
  induction k as [|k IH]; [reflexivity|].
  rewrite seq_S, map_app, concat_app, IH. cbn [map concat].
  rewrite app_nil_r, take_take_drop. f_equal. lia.
Qed.

(** The whole blocks tile the buffer up to the trailing partial block. *)
Lemma whole_blocks_concat (samples : list F32.t) bn :
  concat (whole_blocks samples bn)
  = take (length samples - length samples mod bn) samples.
Proof.
  unfold whole_blocks. rewrite concat_blocks_upto. f_equal.
  pose proof (Nat.div_mod_eq (length samples) bn). lia.
Qed.

(** [tailPartial] is what the whole blocks leave over. *)
Lemma tailPartial_spec (samples : list F32.t) (b : N) :
  (0 < b)%N ->
  tailPartial (mkBufferView samples b)
  = drop (length samples - length samples mod N.to_nat b) samples.
Proof.
  intros Hb. unfold tailPartial, span_size. cbn [samples_ block_size_].
  assert (Hmod : N.to_nat (N.of_nat (length samples) mod b)
                 = length samples mod N.to_nat b).
  { rewrite N2Nat.inj_mod, Nat2N.id. reflexivity. }
  destruct (N.eqb_spec (N.of_nat (length samples) mod b) 0) as [Hz|Hnz].
  - rewrite Hz in Hmod. cbn in Hmod. rewrite <- Hmod, Nat.sub_0_r, drop_all.
    reflexivity.
  - rewrite Hmod. reflexivity.
Qed.

End Blocks.

(** ** The real-time callback *)

Ltac fields :=
  cbn [main_loop stream engine buffer_size log_enabled pitch_enabled log_open
       total_beats total_onsets last_bpm events ev_head ev_tail event_src
       stopping quit_monitor bpm quit instance
       set_stream set_engine set_total_beats set_total_onsets set_last_bpm
       set_events set_ev_head set_ev_tail set_stopping set_quit_monitor
       set_bpm set_quit fst snd] in *.

Lemma same_control_refl {E : Type} (st : DetectorState E) : same_control st st.
Proof. unfold same_control. repeat split. Qed.

Lemma same_control_trans {E : Type} (a b c : DetectorState E) :
  same_control a b -> same_control b c -> same_control a c.
Proof. unfold same_control. intros Hab Hbc. intuition congruence. Qed.

Lemma spsc_push_same_control {E : Type} (st : DetectorState E) ev :
  same_control st (spsc_push st ev).
Proof.
  unfold spsc_push. destruct (_ =? _); unfold same_control; fields; repeat split.
Qed.

(** A push reads and writes the ring fields only. *)
Lemma spsc_push_ring_ext {E : Type} (st1 st2 : DetectorState E) ev :
  events st1 = events st2 -> ev_head st1 = ev_head st2 -> ev_tail st1 = ev_tail st2 ->
  spsc_contents (spsc_push st1 ev) = spsc_contents (spsc_push st2 ev)
  /\ ev_head (spsc_push st1 ev) = ev_head (spsc_push st2 ev)
  /\ ev_tail (spsc_push st1 ev) = ev_tail (spsc_push st2 ev)
  /\ events (spsc_push st1 ev) = events (spsc_push st2 ev).
Proof.
  intros He Hh Ht. unfold spsc_contents, spsc_size.
  rewrite !spsc_push_events, !spsc_push_head, !spsc_push_tail, He, Hh, Ht.
  repeat split.
Qed.

Lemma analysed_app a b : analysed (a ++ b) = analysed a ++ analysed b.
Proof. unfold analysed. apply flat_map_app. Qed.

Section Process.

Context {E : Type} `{AnalysisEngine E}.
Implicit Types st : DetectorState E.

(** What one round of the block loop does to the ring, to the control
    fields and to the effects. *)
Lemma process_block_spec st effs block :
  let r := process_block (st, effs) block in
  same_control st (fst r)
  /\ (spsc_wf st -> spsc_wf (fst r))
  /\ (exists extra, snd r = effs ++ AnalyseBlock block :: extra
                    /\ (extra = [] \/ extra = [PwLoopSignalEvent]))
  /\ (ev_head (fst r) = ev_head st /\ ev_tail (fst r) = ev_tail st
      /\ events (fst r) = events st
      \/ exists ev, spsc_contents (fst r) = spsc_contents (spsc_push st ev)
                    /\ ev_head (fst r) = ev_head (spsc_push st ev)
                    /\ ev_tail (fst r) = ev_tail (spsc_push st ev)
                    /\ events (fst r) = events (spsc_push st ev)
                    /\ (Event.is_beat ev || Event.is_onset ev = true)
                    /\ (pitch_enabled st = false -> Event.pitch_hz ev = F32.zero)).
Proof using Type.
  unfold process_block.
  destruct (aubio_tempo_do (engine st) block) as [e1 tempo_out].
  destruct (aubio_onset_do e1 block) as [e2 onset_out].
  destruct (pitch_enabled st) eqn:Hpitch;
    [destruct (aubio_pitch_do e2 block) as [e3 pitch_out]|];
    destruct (F32.neqb tempo_out F32.zero) eqn:Hbeat;
    destruct (F32.neqb onset_out F32.zero) eqn:Honset;
    cbn [orb]; cbv zeta;
    match goal with
    | |- context [spsc_push ?s ?ev] =>
        split; [eapply same_control_trans; [|apply spsc_push_same_control];
                unfold same_control; fields; repeat split|];
        split; [intros Hwf; apply spsc_push_wf; exact Hwf|];
        split; [destruct (event_src (spsc_push s ev)); cbn [snd];
                eexists; (split; [reflexivity|]); auto|];
        right; exists ev; cbn [fst];
        destruct (spsc_push_ring_ext s st ev eq_refl eq_refl eq_refl) as (? & ? & ? & ?);
        repeat split; try assumption; try reflexivity;
        try (intros Hd; discriminate Hd)
    | |- _ =>
        cbn [fst snd];
        split; [unfold same_control; fields; repeat split|];
        split; [intros Hwf; exact Hwf|];
        split; [exists []; split; [reflexivity|]; auto|];
        left; repeat split
    end.
Qed.

Lemma process_blocks_spec : forall bl st effs,
  let r := fold_left process_block bl (st, effs) in
  same_control st (fst r)
  /\ (spsc_wf st -> spsc_wf (fst r))
  /\ analysed (snd r) = analysed effs ++ bl
  /\ (forallb is_rt_effect effs = true -> forallb is_rt_effect (snd r) = true).
Proof using Type.
  induction bl as [|block bl IH]; intros st effs.
  - cbn. rewrite app_nil_r. split; [apply same_control_refl|]. auto.
  - cbn [fold_left]. cbv zeta.
    destruct (process_block_spec st effs block) as (Hc & Hwf & (extra & Heffs & Hextra) & _).
    destruct (process_block (st, effs) block) as [st1 effs1]. cbn [fst snd] in *.
    destruct (IH st1 effs1) as (Hc' & Hwf' & Han & Hrt).
    split; [eapply same_control_trans; eassumption|].
    split; [auto|]. split.
    + rewrite Han, Heffs, analysed_app. cbn [analysed flat_map].
      rewrite <- app_assoc. f_equal. cbn [app]. f_equal.
      destruct Hextra as [-> | ->]; reflexivity.
    + intros Hall. apply Hrt. rewrite Heffs, forallb_app, Hall.
      destruct Hextra as [-> | ->]; reflexivity.
Qed.

(** The loop over a view hands the analysis engine exactly the blocks the
    view yields. *)
Lemma process_view_spec fuel st view :
  process_view fuel st view
  = match audio_blocks.blocks fuel view with
    | Some bl => Some (fold_left process_block bl (st, []))
    | None => None
    end.
Proof using Type. unfold process_view. apply for_blocks_fold. Qed.

(** The callback as a whole leaves the control fields alone, keeps the
    ring well formed, and has only the effects of the real-time side. *)
Lemma process_spec fuel st pw_buf st' effs :
  process fuel st pw_buf = Some (st', effs) ->
  same_control st st' /\ (spsc_wf st -> spsc_wf st')
  /\ forallb is_rt_effect effs = true.
Proof using Type.
  unfold process. intros Hrun.
  assert (Hskip : forall l, l = [] \/ l = [PwStreamQueueBuffer] ->
            Some (st, l) = Some (st', effs) ->
            same_control st st' /\ (spsc_wf st -> spsc_wf st')
            /\ forallb is_rt_effect effs = true).
  { intros l Hl [= <- <-]. split; [apply same_control_refl|]. split; [auto|].
    destruct Hl as [-> | ->]; reflexivity. }
  assert (Hlease : (if stream st then [PwStreamQueueBuffer] else []) = []
                   \/ (if stream st then [PwStreamQueueBuffer] else [])
                      = [PwStreamQueueBuffer])
    by (destruct (stream st); auto).
  destruct (quit st); [apply (Hskip []); auto|].
  destruct pw_buf as [pb|]; [|apply (Hskip []); auto].
  destruct (buffer pb) as [spa_buf|]; [|apply (Hskip _ Hlease Hrun)].
  destruct (audio_blocks.data spa_buf); [|apply (Hskip _ Hlease Hrun)].
  destruct (audio_blocks.chunk spa_buf); [|apply (Hskip _ Hlease Hrun)].
  destruct (audio_blocks.makeBufferViewFromSpaMonoF32 _ _) as [view|error].
  - rewrite process_view_spec in Hrun.
    destruct (audio_blocks.blocks fuel view) as [bl|]; [|discriminate].
    destruct (process_blocks_spec bl st []) as (Hc & Hwf & _ & Hrt).
    destruct (fold_left process_block bl (st, [])) as [st1 effs1].
    injection Hrun as <- <-. cbn [fst snd] in *.
    split; [assumption|]. split; [assumption|].
    rewrite forallb_app, Hrt by reflexivity. destruct (stream st); reflexivity.
  - injection Hrun as <- <-. split; [apply same_control_refl|]. split; [auto|].
    destruct (stream st); reflexivity.
Qed.

(** An accepted buffer gives a view with a positive block size over at
    most [size / 4] floats. *)
Lemma makeBufferView_accepts spa block view :
  audio_blocks.makeBufferViewFromSpaMonoF32 spa block = Ok view ->
  block <> 0%N
  /\ audio_blocks.block_size_ view = block
  /\ length (audio_blocks.samples_ view)
     <= N.to_nat (audio_blocks.spaSizeBytes spa / 4).
Proof using Type.
  unfold audio_blocks.makeBufferViewFromSpaMonoF32, audio_blocks.makeBufferViewFromBytes,
    audio_blocks.sizeof_float.
  destruct (audio_blocks.spaDataPtr spa) as [memory|]; [|discriminate].
  destruct (N.eqb_spec block 0) as [Hb|Hb]; [discriminate|].
  destruct (negb _); [discriminate|].
  destruct (negb _); [discriminate|].
  intros [= <-]. cbn [audio_blocks.samples_ audio_blocks.block_size_].
  split; [assumption|]. split; [reflexivity|]. rewrite length_take. lia.
Qed.

(** The real-time callback returns: with fuel for one round per float of
    the buffer and one more, the block loop ends. *)
Lemma process_returns fuel st pw_buf :
  (forall pb spa c,
      pw_buf = Some pb -> buffer pb = Some spa -> audio_blocks.chunk spa = Some c ->
      (audio_blocks.chunk_size c < 2 ^ 64)%N
      /\ N.to_nat (audio_blocks.chunk_size c / 4) < fuel) ->
  exists st' effs, process fuel st pw_buf = Some (st', effs).
Proof using Type.
  intros Hfuel. unfold process.
  destruct (quit st); [eauto|].
  destruct pw_buf as [pb|]; [|eauto].
  destruct (buffer pb) as [spa|] eqn:Hb; [|eauto].
  destruct (audio_blocks.data spa) eqn:Hd; [|eauto].
  destruct (audio_blocks.chunk spa) as [c|] eqn:Hc; [|eauto].
  destruct (Hfuel pb spa c eq_refl Hb Hc) as (Hsize & Hrounds).
  destruct (audio_blocks.makeBufferViewFromSpaMonoF32 _ _) as [view|error] eqn:Hv;
    [|eauto].
  apply makeBufferView_accepts in Hv as (Hblock & Hbs & Hlen).
  cbn [audio_blocks.spaSizeBytes] in Hlen. rewrite Hc in Hlen.
  rewrite process_view_spec. destruct view as [samples bs]. cbn in Hbs, Hlen. subst bs.
  rewrite blocks_whole.
  - destruct (fold_left process_block _ _) as [st' effs]. eauto.
  - lia.
  - unfold audio_blocks.span_size.
    assert (audio_blocks.chunk_size c / 4 <= audio_blocks.chunk_size c)%N
      by (apply N.Div0.div_le_upper_bound; lia).
    lia.
  - assert (length samples / N.to_nat (buffer_size st) <= length samples).
    { apply Nat.Div0.div_le_upper_bound. nia. }
    lia.
Qed.

End Process.

(** C10. For a view over [n] samples with block size [b > 0], the
    iteration over [blocks()] ends and yields exactly [n / b] blocks, the
    [i]-th being the [b] consecutive samples from [i * b] on; together they
    are the first [n - n mod b] samples, so the trailing [n mod b] samples
    (those of [tailPartial]) are never yielded. The frame processor hands
    the analysis engine exactly these blocks; on a buffer shorter than one
    block (a zero-length buffer above all) it analyses nothing, leaves the
    state as it is and has no effect. *)
Theorem blocks_whole_only :
  forall (E : Type) (A : AnalysisEngine E) (samples : list F32.t) (b : N) (fuel : nat),
    (0 < b)%N -> (audio_blocks.span_size samples < 2 ^ 64)%N ->
    length samples / N.to_nat b < fuel ->
    let view := audio_blocks.mkBufferView samples b in
    let bn := N.to_nat b in
    exists bl,
      audio_blocks.blocks fuel view = Some bl
      /\ length bl = length samples / bn
      /\ (forall i, i < length samples / bn ->
                    bl !! i = Some (take bn (drop (i * bn) samples)))
      /\ Forall (fun block => length block = bn) bl
      /\ concat bl = take (length samples - length samples mod bn) samples
      /\ concat bl ++ audio_blocks.tailPartial view = samples
      /\ length (audio_blocks.tailPartial view) = length samples mod bn
      /\ (forall st : DetectorState E,
            exists st' effs,
              process_view fuel st view = Some (st', effs) /\ analysed effs = bl)
      /\ (length samples < bn ->
          bl = [] /\ forall st : DetectorState E, process_view fuel st view = Some (st, [])).
Proof.
  intros E A samples b fuel Hb Hn Hfuel view bn.
  exists (whole_blocks samples bn).
  pose proof (blocks_whole samples b fuel Hb Hn Hfuel) as Hbl. fold view bn in Hbl.
  split; [assumption|].
  split; [apply whole_blocks_length|].
  split; [intros i Hi; apply whole_blocks_lookup; assumption|].
  split; [apply whole_blocks_each; unfold bn; lia|].
  split; [apply whole_blocks_concat|].
  unfold view. rewrite (tailPartial_spec samples b Hb). fold bn.
  split; [rewrite whole_blocks_concat; apply take_drop|].
  split.
  { rewrite length_drop.
    pose proof (Nat.mod_upper_bound (length samples) bn ltac:(unfold bn; lia)).
    pose proof (Nat.Div0.mod_le (length samples) bn). lia. }
  split.
  - intros st. rewrite process_view_spec. fold view. rewrite Hbl.
    destruct (process_blocks_spec (whole_blocks samples bn) st []) as (_ & _ & Han & _).
    destruct (fold_left process_block _ _) as [st' effs]. cbn [snd] in Han.
    exists st', effs. split; [reflexivity | assumption].
  - intros Hshort.
    assert (Hnil : whole_blocks samples bn = []).
    { unfold whole_blocks. rewrite Nat.div_small by assumption. reflexivity. }
    split; [assumption|].
    intros st. rewrite process_view_spec. fold view. rewrite Hbl, Hnil. reflexivity.
Qed.

Lemma blocks_whole_only_witness :
  let samples := map F32.of_nat [1; 0; 0; 2; 5] in
  let view := audio_blocks.mkBufferView samples 2 in
  (0 < 2)%N /\ (audio_blocks.span_size samples < 2 ^ 64)%N
  /\ length samples / N.to_nat 2 < 3
  /\ exists bl,
       audio_blocks.blocks 3 view = Some bl
       /\ length bl = length samples / N.to_nat 2
       /\ (forall i, i < length samples / N.to_nat 2 ->
                     bl !! i = Some (take (N.to_nat 2) (drop (i * N.to_nat 2) samples)))
       /\ Forall (fun block => length block = N.to_nat 2) bl
       /\ concat bl = take (length samples - length samples mod N.to_nat 2) samples
       /\ concat bl ++ audio_blocks.tailPartial view = samples
       /\ length (audio_blocks.tailPartial view) = length samples mod N.to_nat 2
       /\ (forall st : DetectorState nat,
             exists st' effs,
               process_view 3 st view = Some (st', effs) /\ analysed effs = bl)
       /\ (length samples < N.to_nat 2 ->
           bl = [] /\ forall st : DetectorState nat,
                        process_view 3 st view = Some (st, [])).
Proof.
  intros samples view.
  assert (H1 : (0 < 2)%N) by reflexivity.
  assert (H2 : (audio_blocks.span_size samples < 2 ^ 64)%N) by reflexivity.
  assert (H3 : length samples / N.to_nat 2 < 3) by (vm_compute; lia).
  split; [exact H1|]. split; [exact H2|]. split; [exact H3|].
  exact (blocks_whole_only nat ScriptedEngine samples 2%N 3 H1 H2 H3).
Defined.

(** ** The operations of a run *)

Lemma rt_effects_no_disconnect effs :
  forallb is_rt_effect effs = true -> List.filter is_disconnect effs = [].
Proof.
  induction effs as [|e effs IH]; [reflexivity|].
  cbn [forallb List.filter]. intros Hall. apply andb_prop in Hall as [He Hall].
  destruct e; try discriminate; cbn; auto.
Qed.

Lemma log_effects_no_disconnect effs :
  forallb is_log_line effs = true -> List.filter is_disconnect effs = [].
Proof.
  induction effs as [|e effs IH]; [reflexivity|].
  cbn [forallb List.filter]. intros Hall. apply andb_prop in Hall as [He Hall].
  destruct e; try discriminate; cbn; auto.
Qed.

Lemma filter_nil_not_in effs :
  List.filter is_disconnect effs = [] -> ~ In PwStreamDisconnect effs.
Proof.
  intros Hnil Hin.
  assert (Hf : In PwStreamDisconnect (List.filter is_disconnect effs))
    by (apply filter_In; split; [assumption | reflexivity]).
  rewrite Hnil in Hf. destruct Hf.
Qed.

Section Lifecycle.

Context {E Time : Type} `{AnalysisEngine E} `{LogFormat Time}.
Implicit Types st : DetectorState E.
Implicit Types op : Op Time.

(** The drain callback touches the tail of the ring and nothing else; it
    only writes log lines. This holds for any state and any fuel. *)
Lemma drain_loop_control fuel (clock : nat -> Time) : forall round st r,
  drain_loop fuel clock round st = Some r ->
  same_control st (drained_state r) /\ ev_head (drained_state r) = ev_head st
  /\ events (drained_state r) = events st
  /\ forallb is_log_line (drained_effects r) = true.
Proof using Type.
  induction fuel as [|fuel IH]; intros round st r Hrun; [discriminate|].
  cbn [drain_loop] in Hrun. destruct (ev_tail st =? ev_head st).
  - injection Hrun as <-. cbn. split; [apply same_control_refl|]. auto.
  - destruct (drain_loop fuel clock (S round) _) as [r1|] eqn:Hrec; [|discriminate].
    injection Hrun as <-. apply IH in Hrec as (Hc & Hh & He & Hl).
    cbn [drained_state drained_effects].
    split; [exact Hc|]. split; [exact Hh|]. split; [exact He|].
    rewrite forallb_app, Hl.
    match goal with |- context [if ?c then _ else _] => destruct c end; reflexivity.
Qed.

(** Every operation keeps the ring well formed. *)
Lemma step_wf fuel st op st' effs :
  spsc_wf st -> step fuel st op = Some (st', effs) -> spsc_wf st'.
Proof using Type.
  intros Hwf Hstep. destruct op; cbn [step] in Hstep.
  - unfold stop in Hstep. fields.
    destruct (stream st); injection Hstep as <- <-; exact Hwf.
  - injection Hstep as <- <-. unfold signalHandler. destruct (instance st); exact Hwf.
  - unfold state_changed in Hstep. injection Hstep as <- <-. exact Hwf.
  - injection Hstep as <- <-. unfold destroy. destruct (stream st); exact Hwf.
  - apply process_spec in Hstep as (_ & Hwf' & _). auto.
  - destruct (drain fuel clock st) as [r|] eqn:Hd; [|discriminate].
    injection Hstep as <- <-. unfold drain in Hd.
    apply drain_loop_sound in Hd; [|assumption]. subst r.
    destruct Hwf as (Hl & Hh & Ht). repeat split; assumption.
  - unfold quit_monitor_poll in Hstep.
    destruct (quit_monitor st), (quit st); injection Hstep as <- <-; exact Hwf.
Qed.

(** No operation lowers a flag that is up. *)
Lemma step_flags fuel st op st' effs :
  step fuel st op = Some (st', effs) ->
  (quit st = true -> quit st' = true)
  /\ (stopping st = true -> stopping st' = true).
Proof using Type.
  intros Hstep. destruct op; cbn [step] in Hstep.
  - unfold stop in Hstep. fields.
    destruct (stream st); injection Hstep as <- <-; fields; auto.
  - injection Hstep as <- <-. unfold signalHandler.
    destruct (instance st); fields; auto.
  - unfold state_changed in Hstep. injection Hstep as <- <-. auto.
  - injection Hstep as <- <-. unfold destroy. destruct (stream st); fields; auto.
  - apply process_spec in Hstep as ((Hq & Hs & _) & _). rewrite Hq, Hs. auto.
  - destruct (drain fuel clock st) as [r|] eqn:Hd; [|discriminate].
    injection Hstep as <- <-. apply drain_loop_control in Hd as ((Hq & Hs & _) & _).
    rewrite Hq, Hs. auto.
  - unfold quit_monitor_poll in Hstep.
    destruct (quit_monitor st); [destruct (quit st) eqn:Hq|];
      injection Hstep as <- <-; fields; split; auto; congruence.
Qed.

(** Who moves which index: the head moves in the real-time callback only,
    the tail in the real-time callback and in the drain callback only. *)
Lemma step_indices fuel st op st' effs :
  step fuel st op = Some (st', effs) ->
  ((forall pw_buf, op <> OpProcess pw_buf) -> ev_head st' = ev_head st)
  /\ ((forall pw_buf, op <> OpProcess pw_buf) -> (forall clock, op <> OpDrain clock) ->
      ev_tail st' = ev_tail st).
Proof using Type.
  intros Hstep. destruct op; cbn [step] in Hstep.
  - unfold stop in Hstep. fields.
    destruct (stream st); injection Hstep as <- <-; auto.
  - injection Hstep as <- <-. unfold signalHandler. destruct (instance st); auto.
  - unfold state_changed in Hstep. injection Hstep as <- <-. auto.
  - injection Hstep as <- <-. unfold destroy. destruct (stream st); auto.
  - split; intros Hp; exfalso; apply (Hp pw_buf); reflexivity.
  - destruct (drain fuel clock st) as [r|] eqn:Hd; [|discriminate].
    injection Hstep as <- <-. apply drain_loop_control in Hd as (_ & Hh & _).
    split; [auto|]. intros _ Hd. exfalso. apply (Hd clock). reflexivity.
  - unfold quit_monitor_poll in Hstep.
    destruct (quit_monitor st), (quit st); injection Hstep as <- <-; auto.
Qed.

(** What one operation does about the disconnect: it is called once, in
    the reaction to a [Paused] notification with [stopping] up and the
    stream held, and never otherwise. [stopping] goes up in [stop()] when
    the stream is held; the stream is given up in [destroy]. *)
Lemma step_disconnect fuel st op st' effs :
  step fuel st op = Some (st', effs) ->
  List.filter is_disconnect effs
  = (if is_paused_notification op && stopping st && stream st
     then [PwStreamDisconnect] else [])
  /\ stopping st' = (stopping st || (is_stop op && stream st))
  /\ stream st' = (stream st && negb (is_destroy op)).
Proof using Type.
  intros Hstep. destruct op; cbn [step] in Hstep;
    cbn [is_paused_notification is_stop is_destroy andb negb].
  - unfold stop in Hstep. fields.
    destruct (stream st) eqn:Hs; injection Hstep as <- <-; fields;
      rewrite ?Hs, ?orb_true_r, ?orb_false_r; auto.
  - injection Hstep as <- <-. unfold signalHandler.
    destruct (instance st); fields; rewrite orb_false_r, andb_true_r; auto.
  - unfold state_changed in Hstep. injection Hstep as <- <-.
    rewrite orb_false_r, andb_true_r. split; [|auto].
    destruct state; cbn; destruct (main_loop st), (stopping st), (stream st); reflexivity.
  - injection Hstep as <- <-. unfold destroy. rewrite orb_false_r, andb_false_r.
    destruct (stream st) eqn:Hs; fields; auto.
  - apply process_spec in Hstep as ((_ & Hs & Hst & _) & _ & Hrt).
    rewrite (rt_effects_no_disconnect _ Hrt), Hs, Hst, orb_false_r, andb_true_r. auto.
  - destruct (drain fuel clock st) as [r|] eqn:Hd; [|discriminate].
    injection Hstep as <- <-.
    apply drain_loop_control in Hd as ((_ & Hs & Hst & _) & _ & _ & Hl).
    rewrite (log_effects_no_disconnect _ Hl), Hs, Hst, orb_false_r, andb_true_r. auto.
  - unfold quit_monitor_poll in Hstep. rewrite orb_false_r, andb_true_r.
    destruct (quit_monitor st), (quit st), (main_loop st);
      injection Hstep as <- <-; fields; auto.
Qed.

End Lifecycle.

(** ** Runs *)

Section Runs.

Context {E Time : Type} `{AnalysisEngine E} `{LogFormat Time}.
Implicit Types st : DetectorState E.
Implicit Types ops : list (Op Time).

(** A run is its first operation followed by the run of the rest. *)
Lemma run_ops_cons fuel st op ops st' log :
  run_ops fuel st (op :: ops) = Some (st', log) ->
  exists st1 effs log1,
    step fuel st op = Some (st1, effs)
    /\ run_ops fuel st1 ops = Some (st', log1)
    /\ log = (op, effs) :: log1.
Proof using Type.
  cbn [run_ops]. intros Hrun.
  destruct (step fuel st op) as [[st1 effs]|]; [|discriminate].
  destruct (run_ops fuel st1 ops) as [[st2 log1]|] eqn:Hrest; [|discriminate].
  injection Hrun as <- <-. exists st1, effs, log1. repeat split. exact Hrest.
Qed.

Lemma run_ops_flags fuel : forall ops st st' log,
  run_ops fuel st ops = Some (st', log) ->
  (quit st = true -> quit st' = true)
  /\ (stopping st = true -> stopping st' = true).
Proof using Type.
  induction ops as [|op ops IH]; intros st st' log Hrun.
  - injection Hrun as <- <-. auto.
  - apply run_ops_cons in Hrun as (st1 & effs & log1 & Hstep & Hrest & _).
    apply step_flags in Hstep as (Hq & Hs).
    apply IH in Hrest as (Hq' & Hs'). auto.
Qed.

Lemma disconnects_cons op effs (log : list (Op Time * list Effect)) :
  disconnects ((op, effs) :: log)
  = length (List.filter is_disconnect effs) + disconnects log.
Proof using Type.
  unfold disconnects. cbn [flat_map snd]. rewrite List.filter_app, length_app. reflexivity.
Qed.

(** The disconnects of a run are those of the small automaton over its
    operations. *)
Lemma run_ops_disconnects fuel : forall ops st st' log,
  run_ops fuel st ops = Some (st', log) ->
  disconnects log = expected_disconnects (stopping st) (stream st) ops.
Proof using Type.
  induction ops as [|op ops IH]; intros st st' log Hrun.
  - injection Hrun as <- <-. reflexivity.
  - apply run_ops_cons in Hrun as (st1 & effs & log1 & Hstep & Hrest & ->).
    apply step_disconnect in Hstep as (Hd & Hs & Hst).
    rewrite disconnects_cons, Hd, (IH _ _ _ Hrest), Hs, Hst.
    cbn [expected_disconnects]. f_equal.
    destruct (_ && _ && _); reflexivity.
Qed.

Lemma expected_disconnects_no_stream (stopping_now : bool) : forall ops,
  expected_disconnects stopping_now false ops = 0.
Proof using Type.
  intros ops. revert stopping_now.
  induction ops as [|op ops IH]; intros stopping_now; [reflexivity|].
  cbn [expected_disconnects]. rewrite !andb_false_r, orb_false_r. cbn [andb].
  apply IH.
Qed.

Lemma paused_notifications_cons op ops :
  paused_notifications (op :: ops)
  = (if is_paused_notification op then 1 else 0) + paused_notifications ops.
Proof using Type.
  unfold paused_notifications. cbn [List.filter].
  destruct (is_paused_notification op); reflexivity.
Qed.

Lemma expected_disconnects_stopping (stream_now : bool) : forall ops,
  expected_disconnects true stream_now ops <= paused_notifications ops
  /\ (stream_now = true -> forallb (fun op => negb (is_destroy op)) ops = true ->
      expected_disconnects true stream_now ops = paused_notifications ops).
Proof using Type.
  intros ops. revert stream_now.
  induction ops as [|op ops IH]; intros stream_now; [cbn; auto|].
  cbn [expected_disconnects forallb orb]. rewrite paused_notifications_cons.
  destruct (IH (stream_now && negb (is_destroy op))) as (Hle & Heq).
  split.
  - destruct (is_paused_notification op), stream_now; cbn [andb] in *; lia.
  - intros -> Hall. apply andb_prop in Hall as [Hop Hall].
    rewrite Hop in *. cbn [andb] in *. rewrite (Heq eq_refl Hall).
    destruct (is_paused_notification op); reflexivity.
Qed.

Lemma expected_disconnects_idle (stream_now : bool) : forall ops,
  expected_disconnects false stream_now ops <= paused_after_stop ops
  /\ (stream_now = true -> forallb (fun op => negb (is_destroy op)) ops = true ->
      expected_disconnects false stream_now ops = paused_after_stop ops).
Proof using Type.
  intros ops. revert stream_now.
  induction ops as [|op ops IH]; intros stream_now; [cbn; auto|].
  cbn [expected_disconnects paused_after_stop forallb orb].
  rewrite andb_false_r. cbn [andb Nat.add].
  destruct (is_stop op) eqn:Hstop; cbn [andb].
  - destruct stream_now; cbn [andb].
    + destruct op; try discriminate. cbn [is_destroy negb].
      apply (expected_disconnects_stopping true).
    + rewrite expected_disconnects_no_stream. split; [lia | discriminate].
  - destruct (IH (stream_now && negb (is_destroy op))) as (Hle & Heq).
    split; [assumption|].
    intros -> Hall. apply andb_prop in Hall as [Hop Hall].
    rewrite Hop in *. cbn [andb] in *. apply Heq; auto.
Qed.

(** Where a disconnect sits in the log of a run. *)
Lemma run_ops_disconnect_at fuel : forall ops st st' log i op effs,
  run_ops fuel st ops = Some (st', log) ->
  log !! i = Some (op, effs) -> In PwStreamDisconnect effs ->
  is_paused_notification op = true
  /\ (stopping st = true
      \/ exists j effs', j < i /\ log !! j = Some (OpStop, effs')).
Proof using Type.
  induction ops as [|op0 ops IH]; intros st st' log i op effs Hrun Hi Hin.
  - injection Hrun as <- <-. discriminate.
  - apply run_ops_cons in Hrun as (st1 & effs0 & log1 & Hstep & Hrest & ->).
    apply step_disconnect in Hstep as (Hd & Hs & _).
    destruct i as [|i]; cbn in Hi.
    + injection Hi as <- <-.
      destruct (is_paused_notification op0 && stopping st && stream st) eqn:Hc.
      * apply andb_prop in Hc as [Hc _]. apply andb_prop in Hc as [Hp Hs']. auto.
      * exfalso. eapply filter_nil_not_in; eassumption.
    + destruct (IH _ _ _ _ _ _ Hrest Hi Hin) as (Hp & [Hs1 | (j & effs' & Hj & Hlook)]).
      * split; [assumption|]. rewrite Hs in Hs1.
        apply orb_prop in Hs1 as [Hs1 | Hs1]; [auto|].
        apply andb_prop in Hs1 as [Hstop _]. right.
        destruct op0; try discriminate. exists 0, effs0. split; [lia | reflexivity].
      * split; [assumption|]. right. exists (S j), effs'. split; [lia | assumption].
Qed.

End Runs.

(** C2 as stated fails: the producer moves the tail. On a full ring the
    real-time callback that detects a beat advances [ev_tail] from 0
    to 1. *)
Lemma producer_advances_tail_when_full :
  let st := fold_left spsc_push (map numbered_event (seq 0 (kEventCap - 1)))
              (ready_detector false false) in
  exists st' effs,
    process 2 st (Some (buffer_of beat_block 4)) = Some (st', effs)
    /\ ev_tail st = 0 /\ ev_tail st' = 1.
Proof.
  intros st. eexists. eexists. split; [vm_compute; reflexivity|].
  split; vm_compute; reflexivity.
Qed.

(** A second [stop()] finds the state the first one left and does the
    same again. *)
Lemma stop_twice {E : Type} (s : DetectorState E) :
  stop (fst (stop s)) = (fst (stop s), snd (stop s)).
Proof.
  unfold stop. fields. destruct (stream s) eqn:Hs; fields; rewrite Hs; reflexivity.
Qed.

Lemma stop_times_succ {E : Type} n (st : DetectorState E) :
  stop_times (S n) st
  = (fst (stop_times n (fst (stop st))),
     snd (stop st) ++ snd (stop_times n (fst (stop st)))).
Proof.
  cbn [stop_times]. destruct (stop st) as [st1 effs1]. cbn [fst snd].
  destruct (stop_times n st1) as [st2 effs2]. reflexivity.
Qed.

Lemma stop_times_spec {E : Type} n : forall st : DetectorState E,
  stop_times (S n) st = (fst (stop st), concat (replicate (S n) (snd (stop st)))).
Proof.
  induction n as [|n IH]; intros st.
  - rewrite stop_times_succ. reflexivity.
  - rewrite stop_times_succ, IH, stop_twice. reflexivity.
Qed.

Lemma existsb_repeated {A : Type} (f : A -> bool) (l : list A) n :
  existsb f (concat (replicate (S n) l)) = existsb f l.
Proof.
  induction n as [|n IH].
  - cbn. rewrite app_nil_r. reflexivity.
  - change (concat (replicate (S (S n)) l)) with (l ++ concat (replicate (S n) l)).
    rewrite existsb_app, IH. apply orb_diag.
Qed.

(** C5. [stop()] is idempotent: after any number [n >= 1] of calls the
    state is the state after one call, and what can be observed -- the
    [quit] flag, the [stopping] flag and whether the transport was asked to
    deactivate the stream -- is what one call leaves. *)
Theorem stop_idempotent :
  forall (E : Type) (st : DetectorState E) (n : nat),
    fst (stop_times (S n) st) = fst (stop st)
    /\ stop_observable (stop_times (S n) st) = stop_observable (stop_times 1 st).
Proof.
  intros E st n. rewrite !stop_times_spec. cbn [fst]. split; [reflexivity|].
  unfold stop_observable. cbn [fst snd]. rewrite !existsb_repeated. reflexivity.
Qed.

(** C6. [run] enters the mainloop with [quit] down (its store of [false]
    opens the run) and leaves [stopping] as it is. During the run -- from
    there on through any operations [ops1] and then any operations [ops2]
    -- a shutdown flag that is up stays up: [quit] and [stopping] only ever
    go from false to true. *)
Theorem shutdown_flags_monotone :
  forall (E Time : Type) (A : AnalysisEngine E) (F : LogFormat Time) (fuel : nat)
         (st st1 st2 : DetectorState E) (ops1 ops2 : list (Op Time))
         (log1 log2 : list (Op Time * list Effect)),
    main_loop st = true ->
    run_ops fuel (run_enter st) ops1 = Some (st1, log1) ->
    run_ops fuel st1 ops2 = Some (st2, log2) ->
    quit (run_enter st) = false
    /\ stopping (run_enter st) = stopping st
    /\ (quit st1 = true -> quit st2 = true)
    /\ (stopping st1 = true -> stopping st2 = true).
Proof.
  intros E Time A F fuel st st1 st2 ops1 ops2 log1 log2 Hloop _ Hrun.
  unfold run_enter. rewrite Hloop. fields.
  split; [reflexivity|]. split; [reflexivity|].
  eapply run_ops_flags. eassumption.
Qed.

Lemma shutdown_flags_monotone_witness :
  let st := ready_detector false false in
  let st1 := fst (stop (run_enter st)) in
  let st2 := signalHandler (fst (quit_monitor_poll st1)) in
  let ops1 := [@OpStop Z] in
  let ops2 := [@OpStateChanged Z PW_STREAM_STATE_PAUSED None; OpMonitor; OpSignal] in
  let log1 := [(@OpStop Z, [PwStreamSetActive false])] in
  let log2 := [(@OpStateChanged Z PW_STREAM_STATE_PAUSED None, [PwStreamDisconnect]);
               (OpMonitor, [PwMainLoopQuit]); (OpSignal, [])] in
  main_loop st = true
  /\ run_ops 1 (run_enter st) ops1 = Some (st1, log1)
  /\ run_ops 1 st1 ops2 = Some (st2, log2)
  /\ quit (run_enter st) = false
  /\ stopping (run_enter st) = stopping st
  /\ (quit st1 = true -> quit st2 = true)
  /\ (stopping st1 = true -> stopping st2 = true).
Proof.
  intros st st1 st2 ops1 ops2 log1 log2.
  assert (H0 : main_loop st = true) by reflexivity.
  assert (H1 : run_ops 1 (run_enter st) ops1 = Some (st1, log1)) by reflexivity.
  assert (H2 : run_ops 1 st1 ops2 = Some (st2, log2)) by reflexivity.
  split; [exact H0|]. split; [exact H1|]. split; [exact H2|].
  exact (shutdown_flags_monotone nat Z ScriptedEngine PlainFormat 1 st st1 st2
           ops1 ops2 log1 log2 H0 H1 H2).
Defined.

(** C3 (amended). In a run that starts with [stopping] down: every
    [pw_stream_disconnect] is issued in the reaction to a [Paused]
    notification, and a [stop()] comes strictly earlier in the run, so the
    flag was set before; [stop()] itself never disconnects; there are at
    most as many disconnects as [Paused] notifications after the first
    [stop()], and exactly as many when the stream is held throughout -- one
    disconnect when the transport confirms [Paused] once, none when it
    never does. *)
Theorem disconnect_only_on_paused_after_stop :
  forall (E Time : Type) (A : AnalysisEngine E) (F : LogFormat Time) (fuel : nat)
         (st st' : DetectorState E) (ops : list (Op Time))
         (log : list (Op Time * list Effect)),
    stopping st = false ->
    run_ops fuel st ops = Some (st', log) ->
    (forall i op effs,
        log !! i = Some (op, effs) -> In PwStreamDisconnect effs ->
        is_paused_notification op = true
        /\ exists j effs', j < i /\ log !! j = Some (OpStop, effs'))
    /\ (forall st0 : DetectorState E, ~ In PwStreamDisconnect (snd (stop st0)))
    /\ disconnects log <= paused_after_stop ops
    /\ (stream st = true -> forallb (fun op => negb (is_destroy op)) ops = true ->
        disconnects log = paused_after_stop ops).
Proof.
  intros E Time A F fuel st st' ops log Hidle Hrun.
  split.
  - intros i op effs Hi Hin.
    destruct (run_ops_disconnect_at fuel ops st st' log i op effs Hrun Hi Hin)
      as (Hp & [Hs | Hj]); [congruence|]. auto.
  - split.
    + intros st0. unfold stop. fields.
      destruct (stream st0); cbn [snd In]; intuition discriminate.
    + rewrite (run_ops_disconnects fuel ops st st' log Hrun), Hidle.
      apply expected_disconnects_idle.
Qed.

Lemma disconnect_only_on_paused_after_stop_witness :
  let st := run_enter (ready_detector false false) in
  let st' := fst (stop st) in
  let ops := [@OpStateChanged Z PW_STREAM_STATE_STREAMING None; OpStop;
              OpStateChanged PW_STREAM_STATE_PAUSED None] in
  let log := [(@OpStateChanged Z PW_STREAM_STATE_STREAMING None, []);
              (OpStop, [PwStreamSetActive false]);
              (OpStateChanged PW_STREAM_STATE_PAUSED None, [PwStreamDisconnect])] in
  stopping st = false
  /\ run_ops 1 st ops = Some (st', log)
  /\ (forall i op effs,
         log !! i = Some (op, effs) -> In PwStreamDisconnect effs ->
         is_paused_notification op = true
         /\ exists j effs', j < i /\ log !! j = Some (OpStop, effs'))
  /\ (forall st0 : DetectorState nat, ~ In PwStreamDisconnect (snd (stop st0)))
  /\ disconnects log <= paused_after_stop ops
  /\ (stream st = true -> forallb (fun op => negb (is_destroy op)) ops = true ->
      disconnects log = paused_after_stop ops).
Proof.
  intros st st' ops log.
  assert (H1 : stopping st = false) by reflexivity.
  assert (H2 : run_ops 1 st ops = Some (st', log)) by reflexivity.
  split; [exact H1|]. split; [exact H2|].
  exact (disconnect_only_on_paused_after_stop nat Z ScriptedEngine PlainFormat 1
           st st' ops log H1 H2).
Defined.

(** C3 as stated fails: [stop()] is called while the stream is streaming
    and the transport then reports an error instead of [Paused]; the run
    ends with no disconnect at all, not with exactly one. *)
Lemma stop_then_error_never_disconnects :
  let st := run_enter (ready_detector false false) in
  let ops := [@OpStateChanged Z PW_STREAM_STATE_CONNECTING None;
              OpStateChanged PW_STREAM_STATE_PAUSED None;
              OpStateChanged PW_STREAM_STATE_STREAMING None;
              OpStop;
              OpStateChanged PW_STREAM_STATE_ERROR (Some "node removed"%string);
              OpMonitor] in
  exists st' log,
    run_ops 1 st ops = Some (st', log)
    /\ In (@OpStop Z, [PwStreamSetActive false]) log
    /\ disconnects log = 0 /\ disconnects log <> 1.
Proof.
  intros st ops. eexists. eexists. split; [reflexivity|].
  split; [cbn; auto 10|]. split; [reflexivity | discriminate].
Qed.

(** ** The command line *)

Lemma decimal_from_ge s : forall acc, (acc <= decimal_from acc s)%N.
Proof.
  unfold decimal_from, chars. induction s as [|c s IH]; intros acc; cbn; [lia|].
  etransitivity; [|apply IH]. lia.
Qed.

Lemma isdigit_value c : isdigit c = true -> (N_of_ascii c - 48 <= 9)%N.
Proof.
  unfold isdigit. intros Hd. apply andb_prop in Hd as [H1 H2].
  apply N.leb_le in H1, H2. lia.
Qed.

(** [parseU32_loop] reads the decimal value, and fails on a character that
    is not a digit and on a value beyond [uint32_max]. *)
Lemma parseU32_loop_spec s : forall acc,
  (acc <= uint32_max)%N ->
  parseU32_loop s acc
  = if all_digits s && (decimal_from acc s <=? uint32_max)%N
    then (decimal_from acc s, None)
    else (0%N, Some "nondigit"%string).
Proof.
  induction s as [|c s IH]; intros acc Hacc.
  - cbn. destruct (N.leb_spec acc uint32_max); [reflexivity | lia].
  - cbn [parseU32_loop]. unfold all_digits, decimal_from, chars.
    cbn [list_ascii_of_string forallb fold_left].
    fold (chars s). fold (all_digits s).
    fold (decimal_from (acc * 10 + (N_of_ascii c - 48)) s).
    destruct (isdigit c) eqn:Hd; cbn [negb andb]; [|reflexivity].
    pose proof (isdigit_value c Hd) as Hv.
    assert (Hw : wrap32 (N_of_ascii c - 48) = (N_of_ascii c - 48)%N).
    { unfold wrap32. apply N.mod_small. lia. }
    rewrite Hw.
    pose proof (decimal_from_ge s (acc * 10 + (N_of_ascii c - 48))) as Hge.
    unfold uint32_max in *.
    change ((2 ^ 32 - 1) / 10)%N with 429496729%N.
    change ((2 ^ 32 - 1) mod 10)%N with 5%N.
    change (2 ^ 32 - 1)%N with 4294967295%N in *.
    destruct (N.ltb_spec 429496729 acc) as [Hbig|Hsmall]; cbn [orb].
    + destruct (N.leb_spec (decimal_from (acc * 10 + (N_of_ascii c - 48)) s) 4294967295);
        [lia|]. rewrite andb_false_r. reflexivity.
    + destruct (N.eqb_spec acc 429496729) as [Heq|Hne]; cbn [andb].
      * destruct (N.ltb_spec 5 (N_of_ascii c - 48)) as [Hd5|Hd5].
        -- destruct (N.leb_spec (decimal_from (acc * 10 + (N_of_ascii c - 48)) s)
                       4294967295); [lia|]. rewrite andb_false_r. reflexivity.
        -- assert (Hfit : (acc * 10 + (N_of_ascii c - 48) <= 4294967295)%N) by lia.
           unfold wrap32. rewrite (N.mod_small (acc * 10)) by lia.
           rewrite N.mod_small by lia. apply IH. exact Hfit.
      * assert (Hfit : (acc * 10 + (N_of_ascii c - 48) <= 4294967295)%N) by lia.
        unfold wrap32. rewrite (N.mod_small (acc * 10)) by lia.
        rewrite N.mod_small by lia. apply IH. exact Hfit.
Qed.

Lemma parseU32_spec s :
  s <> EmptyString ->
  parseU32 s
  = if all_digits s && (decimal_value s <=? uint32_max)%N
    then (decimal_value s, None)
    else (0%N, Some "nondigit"%string).
Proof.
  intros Hne. unfold parseU32. destruct s as [|c s]; [congruence|].
  apply parseU32_loop_spec. unfold uint32_max. lia.
Qed.

Lemma is_positional_nonempty v : is_positional v = true -> v <> EmptyString.
Proof. destruct v; [discriminate | congruence]. Qed.

(** A flag is not a help request and not positional, and the parser
    applies it and goes on. *)
Lemma parseArgs_loop_flag arg rest options saw :
  is_flag arg = true ->
  parseArgs_loop (arg :: rest) options saw
  = parseArgs_loop rest (apply_flag options arg) saw.
Proof.
  unfold is_flag, apply_flag. intros Hf. cbn [parseArgs_loop].
  destruct (String.eqb_spec arg "--no-log") as [->|H1]; [reflexivity|].
  destruct (String.eqb_spec arg "--no-stats") as [->|H2]; [reflexivity|].
  destruct (String.eqb_spec arg "--pitch") as [->|H3]; [reflexivity|].
  destruct (String.eqb_spec arg "--no-visual") as [->|H4]; [reflexivity|].
  discriminate.
Qed.

Lemma apply_flag_buffer_size options arg :
  opt_buffer_size (apply_flag options arg) = opt_buffer_size options.
Proof.
  unfold apply_flag.
  repeat match goal with |- context [if ?c then _ else _] => destruct c end;
    reflexivity.
Qed.

Lemma parseArgs_loop_flags flags : forall rest options saw,
  forallb is_flag flags = true ->
  parseArgs_loop (flags ++ rest) options saw
  = parseArgs_loop rest (fold_left apply_flag flags options) saw.
Proof.
  induction flags as [|arg flags IH]; intros rest options saw Hall; [reflexivity|].
  cbn [forallb] in Hall. apply andb_prop in Hall as [Hf Hall].
  cbn [app fold_left]. rewrite parseArgs_loop_flag by assumption. apply IH, Hall.
Qed.

Lemma parseArgs_loop_only_flags flags options saw :
  forallb is_flag flags = true ->
  parseArgs_loop flags options saw = Ok (fold_left apply_flag flags options).
Proof.
  intros Hall. rewrite <- (app_nil_r flags) at 1.
  rewrite parseArgs_loop_flags by assumption. reflexivity.
Qed.

Lemma fold_apply_flag_buffer_size flags : forall options,
  opt_buffer_size (fold_left apply_flag flags options) = opt_buffer_size options.
Proof.
  induction flags as [|arg flags IH]; intros options; [reflexivity|].
  cbn [fold_left]. rewrite IH. apply apply_flag_buffer_size.
Qed.

(** What the parser does with a positional argument it reaches first. *)
Lemma parseArgs_loop_positional v rest options :
  is_positional v = true ->
  parseArgs_loop (v :: rest) options false
  = if valid_buffer_size v
    then parseArgs_loop rest (with_buffer_size options (decimal_value v)) true
    else if all_digits v && (decimal_value v <=? uint32_max)%N
    then Unexpected {| kind := Invalid;
                       message := "buffer_size out of range [64, 8192]" |}
    else Unexpected {| kind := Invalid;
                       message := "buffer_size must be a base-10 unsigned integer" |}.
Proof.
  intros Hpos. cbn [parseArgs_loop]. rewrite Hpos.
  assert (Hnohelp : String.eqb v "--help" || String.eqb v "-h" = false).
  { destruct (String.eqb_spec v "--help") as [->|_]; [discriminate|].
    destruct (String.eqb_spec v "-h") as [->|_]; [discriminate|]. reflexivity. }
  rewrite Hnohelp, (parseU32_spec v (is_positional_nonempty v Hpos)).
  unfold valid_buffer_size.
  destruct (all_digits v); cbn [andb]; [|reflexivity].
  unfold uint32_max, kMinBufferSize, kMaxBufferSize.
  change (2 ^ 32 - 1)%N with 4294967295%N.
  destruct (N.leb_spec (decimal_value v) 4294967295);
    destruct (N.leb_spec 64 (decimal_value v));
    destruct (N.leb_spec (decimal_value v) 8192);
    destruct (N.ltb_spec (decimal_value v) 64);
    destruct (N.ltb_spec 8192 (decimal_value v));
    cbn [andb orb]; try lia; reflexivity.
Qed.

(** The parser never returns a buffer size outside the range it was
    started with or checked. *)
Lemma parseArgs_loop_range args : forall options saw result,
  (kMinBufferSize <= opt_buffer_size options <= kMaxBufferSize)%N ->
  parseArgs_loop args options saw = Ok result ->
  (kMinBufferSize <= opt_buffer_size result <= kMaxBufferSize)%N.
Proof.
  induction args as [|arg args IH]; intros options saw result Hr Hrun.
  - injection Hrun as <-. exact Hr.
  - cbn [parseArgs_loop] in Hrun.
    destruct (String.eqb arg "--help" || String.eqb arg "-h"); [discriminate|].
    destruct (is_positional arg).
    + destruct saw; [discriminate|].
      destruct (parseU32 arg) as [end_ptr [err|]]; [discriminate|].
      destruct (N.ltb_spec end_ptr kMinBufferSize); cbn [orb] in Hrun; [discriminate|].
      destruct (N.ltb_spec kMaxBufferSize end_ptr); [discriminate|].
      eapply IH; [|exact Hrun]. cbn [opt_buffer_size]. lia.
    + repeat match type of Hrun with
        | (if ?c then _ else _) = _ =>
            destruct c; [eapply IH; [|exact Hrun]; exact Hr|]
        end.
      discriminate.
Qed.

(** C9. Command line and exit codes. With only option flags after the
    program name the buffer size is the default 512. A positional argument
    the parser reaches is accepted exactly when it is a string of digits
    whose value lies in [64, 8192], and then sets the buffer size; any
    other positional value (not a number, or out of the range) is a
    configuration error, whatever follows it. Whatever the arguments, an
    accepted buffer size lies in [64, 8192]. A help request makes [main]
    return 0; a configuration error and a failure of [initialize] make it
    return 1. *)
Theorem command_line_and_exit_codes :
  forall (E Time : Type) (F : LogFormat Time) (engine0 : E) (env : InitEnv Time)
         (run_throws : bool) (prog v : string) (flags flags' args : list string),
    forallb is_flag flags = true -> forallb is_flag flags' = true ->
    is_positional v = true ->
    (exists options,
        parseArgs (prog :: flags) = Ok options
        /\ opt_buffer_size options = 512%N)
    /\ (valid_buffer_size v = true ->
        exists options,
          parseArgs (prog :: flags ++ v :: flags') = Ok options
          /\ opt_buffer_size options = decimal_value v)
    /\ (valid_buffer_size v = false ->
        forall rest, exists msg,
          parseArgs (prog :: flags ++ v :: rest)
          = Unexpected {| kind := Invalid; message := msg |})
    /\ (forall rest,
          parseArgs (prog :: flags ++ "--help"%string :: rest)
          = Unexpected {| kind := Help; message := EmptyString |})
    /\ (forall options,
          parseArgs args = Ok options ->
          (64 <= opt_buffer_size options <= 8192)%N)
    /\ (forall msg,
          parseArgs args = Unexpected {| kind := Help; message := msg |} ->
          main args engine0 env run_throws = 0%Z)
    /\ (forall msg,
          parseArgs args = Unexpected {| kind := Invalid; message := msg |} ->
          main args engine0 env run_throws = 1%Z)
    /\ (forall options msg effs,
          parseArgs args = Ok options ->
          initialize env
            (DetectorState_new engine0 (opt_buffer_size options) (logging options)
               (pitch options) false)
          = (Unexpected msg, effs) ->
          main args engine0 env run_throws = 1%Z).
Proof.
  intros E Time F engine0 env run_throws prog v flags flags' args Hflags Hflags' Hpos.
  split.
  { eexists. unfold parseArgs. rewrite parseArgs_loop_only_flags by assumption.
    split; [reflexivity|]. apply fold_apply_flag_buffer_size. }
  split.
  { intros Hvalid. eexists. unfold parseArgs.
    rewrite parseArgs_loop_flags by assumption.
    rewrite parseArgs_loop_positional, Hvalid by assumption.
    rewrite parseArgs_loop_only_flags by assumption. split; [reflexivity|].
    rewrite fold_apply_flag_buffer_size. reflexivity. }
  split.
  { intros Hinvalid rest. unfold parseArgs.
    rewrite parseArgs_loop_flags by assumption.
    rewrite parseArgs_loop_positional, Hinvalid by assumption.
    destruct (all_digits v && _); eexists; reflexivity. }
  split.
  { intros rest. unfold parseArgs. rewrite parseArgs_loop_flags by assumption.
    reflexivity. }
  split.
  { intros options Hparse. unfold parseArgs in Hparse.
    apply parseArgs_loop_range in Hparse; [exact Hparse|].
    cbn. unfold kMinBufferSize, kMaxBufferSize, kDefaultBufferSize. lia. }
  unfold main.
  split; [intros msg ->; reflexivity|].
  split; [intros msg ->; reflexivity|].
  intros options msg effs -> ->. reflexivity.
Qed.

Lemma command_line_and_exit_codes_witness :
  let env := mkInitEnv true 0%Z true true true true true true true true in
  let flags := ["--pitch"%string] in
  let flags' := ["--no-log"%string] in
  let v := "1024"%string in
  let args := ["beat_cli"%string; "--no-stats"%string; "63"%string] in
  forallb is_flag flags = true /\ forallb is_flag flags' = true
  /\ is_positional v = true
  /\ (exists options,
         parseArgs ("beat_cli"%string :: flags) = Ok options
         /\ opt_buffer_size options = 512%N)
  /\ (valid_buffer_size v = true ->
      exists options,
        parseArgs ("beat_cli"%string :: flags ++ v :: flags') = Ok options
        /\ opt_buffer_size options = decimal_value v)
  /\ (valid_buffer_size v = false ->
      forall rest, exists msg,
        parseArgs ("beat_cli"%string :: flags ++ v :: rest)
        = Unexpected {| kind := Invalid; message := msg |})
  /\ (forall rest,
        parseArgs ("beat_cli"%string :: flags ++ "--help"%string :: rest)
        = Unexpected {| kind := Help; message := EmptyString |})
  /\ (forall options,
        parseArgs args = Ok options ->
        (64 <= opt_buffer_size options <= 8192)%N)
  /\ (forall msg,
        parseArgs args = Unexpected {| kind := Help; message := msg |} ->
        main args 0 env false = 0%Z)
  /\ (forall msg,
        parseArgs args = Unexpected {| kind := Invalid; message := msg |} ->
        main args 0 env false = 1%Z)
  /\ (forall options msg effs,
        parseArgs args = Ok options ->
        initialize env
          (DetectorState_new 0 (opt_buffer_size options) (logging options)
             (pitch options) false)
        = (Unexpected msg, effs) ->
        main args 0 env false = 1%Z).
Proof.
  intros env flags flags' v args.
  assert (H1 : forallb is_flag flags = true) by reflexivity.
  assert (H2 : forallb is_flag flags' = true) by reflexivity.
  assert (H3 : is_positional v = true) by reflexivity.
  split; [exact H1|]. split; [exact H2|]. split; [exact H3|].
  exact (command_line_and_exit_codes nat Z PlainFormat 0 env false
           "beat_cli"%string v flags flags' args H1 H2 H3).
Defined.

(** ** Per-block validation *)

Lemma toString_injective (e1 e2 : audio_blocks.ViewError) :
  audio_blocks.toString e1 = audio_blocks.toString e2 -> e1 = e2.
Proof. destruct e1, e2; cbn; intros Heq; try reflexivity; discriminate. Qed.

(** C7 (amended). [makeBufferViewFromSpaMonoF32] rejects exactly these
    layouts, each with its own label, in this order: a null data pointer
    ([NullData]), a block size of zero ([ZeroBlockSize]), a stride other
    than [sizeof(float)] ([UnsupportedStride]), a byte length that is not a
    multiple of [sizeof(float)] ([MisalignedBytes]); every other buffer --
    one of length zero too -- gives a view of its [size / 4] floats. In the
    real-time callback a buffer whose buffer, data or chunk pointer is null
    is skipped without a word; a rejected buffer is skipped as well: the
    state stays as it is (nothing analysed, no event, no totals), the line
    [SPA buffer rejected: <label>] goes to stderr, the buffer is re-queued
    and the callback returns. *)
Theorem buffer_validation :
  forall (E : Type) (A : AnalysisEngine E) (fuel : nat) (st : DetectorState E)
         (spa : option audio_blocks.spa_buffer) (block : N),
    let result := audio_blocks.makeBufferViewFromSpaMonoF32 spa block in
    let lease := if stream st then [PwStreamQueueBuffer] else [] in
    (audio_blocks.spaDataPtr spa = None ->
     result = Unexpected audio_blocks.NullData)
    /\ (forall memory,
          audio_blocks.spaDataPtr spa = Some memory ->
          (block = 0%N -> result = Unexpected audio_blocks.ZeroBlockSize)
          /\ (block <> 0%N ->
              audio_blocks.spaStrideBytes spa 4 <> 4%N ->
              result = Unexpected audio_blocks.UnsupportedStride)
          /\ (block <> 0%N ->
              audio_blocks.spaStrideBytes spa 4 = 4%N ->
              (audio_blocks.spaSizeBytes spa mod 4 <> 0)%N ->
              result = Unexpected audio_blocks.MisalignedBytes)
          /\ (block <> 0%N ->
              audio_blocks.spaStrideBytes spa 4 = 4%N ->
              (audio_blocks.spaSizeBytes spa mod 4 = 0)%N ->
              result
              = Ok {| audio_blocks.samples_ :=
                        take (N.to_nat (audio_blocks.spaSizeBytes spa / 4)) memory;
                      audio_blocks.block_size_ := block |}))
    /\ (forall e1 e2,
          audio_blocks.toString e1 = audio_blocks.toString e2 -> e1 = e2)
    /\ (forall pb spa_buf memory c error,
          quit st = false -> buffer pb = Some spa_buf ->
          audio_blocks.data spa_buf = Some memory ->
          audio_blocks.chunk spa_buf = Some c ->
          audio_blocks.makeBufferViewFromSpaMonoF32 (Some spa_buf) (buffer_size st)
          = Unexpected error ->
          process fuel st (Some pb)
          = Some (st, StderrLine ("SPA buffer rejected: " ++ audio_blocks.toString error)
                      :: lease))
    /\ (forall pb,
          quit st = false ->
          buffer pb = None
          \/ (exists spa_buf,
                 buffer pb = Some spa_buf
                 /\ (audio_blocks.data spa_buf = None
                     \/ audio_blocks.chunk spa_buf = None)) ->
          process fuel st (Some pb) = Some (st, lease)).
Proof.
  intros E A fuel st spa block result lease. subst result.
  unfold audio_blocks.makeBufferViewFromSpaMonoF32, audio_blocks.makeBufferViewFromBytes,
    audio_blocks.sizeof_float.
  split; [intros ->; reflexivity|].
  split.
  { intros memory ->.
    destruct (N.eqb_spec block 0) as [Hb|Hb].
    - split; [reflexivity|]. repeat split; intros; contradiction.
    - split; [intros; contradiction|].
      destruct (N.eqb_spec (audio_blocks.spaStrideBytes spa 4) 4) as [Hs|Hs]; cbn [negb].
      + split; [intros; contradiction|].
        destruct (N.eqb_spec (audio_blocks.spaSizeBytes spa mod 4) 0) as [Hm|Hm];
          cbn [negb].
        * split; [intros; contradiction | reflexivity].
        * split; [reflexivity | intros; contradiction].
      + split; [reflexivity|]. split; intros; contradiction. }
  split; [exact toString_injective|].
  split.
  - intros pb spa_buf memory c error Hq Hb Hd Hc Herr.
    unfold process. rewrite Hq, Hb, Hd, Hc.
    unfold audio_blocks.makeBufferViewFromSpaMonoF32, audio_blocks.makeBufferViewFromBytes,
      audio_blocks.sizeof_float in Herr.
    unfold audio_blocks.makeBufferViewFromSpaMonoF32, audio_blocks.makeBufferViewFromBytes,
      audio_blocks.sizeof_float.
    rewrite Herr. reflexivity.
  - intros pb Hq Hnull. unfold process. rewrite Hq.
    destruct Hnull as [-> | (spa_buf & -> & [-> | Hc])]; [reflexivity | reflexivity|].
    rewrite Hc. destruct (audio_blocks.data spa_buf); reflexivity.
Qed.

Lemma buffer_validation_witness :
  let st := ready_detector false false in
  let pb := buffer_of (map F32.of_nat [1; 2; 3]) 8 in
  let spa_buf :=
    {| audio_blocks.data := Some (map F32.of_nat [1; 2; 3]);
       audio_blocks.chunk :=
         Some {| audio_blocks.chunk_size := 12; audio_blocks.chunk_stride := 8 |} |} in
  quit st = false /\ buffer pb = Some spa_buf
  /\ audio_blocks.makeBufferViewFromSpaMonoF32 (Some spa_buf) (buffer_size st)
     = Unexpected audio_blocks.UnsupportedStride
  /\ process 1 st (Some pb)
     = Some (st, [StderrLine "SPA buffer rejected: unsupported stride/layout";
                  PwStreamQueueBuffer]).
Proof.
  intros st pb spa_buf.
  assert (H1 : quit st = false) by reflexivity.
  assert (H2 : buffer pb = Some spa_buf) by reflexivity.
  assert (H3 : audio_blocks.makeBufferViewFromSpaMonoF32 (Some spa_buf) (buffer_size st)
               = Unexpected audio_blocks.UnsupportedStride) by reflexivity.
  split; [exact H1|]. split; [exact H2|]. split; [exact H3|].
  exact (proj1 (proj2 (proj2 (proj2
           (buffer_validation nat ScriptedEngine 1 st None 512%N))))
           pb spa_buf (map F32.of_nat [1; 2; 3])
           {| audio_blocks.chunk_size := 12; audio_blocks.chunk_stride := 8 |}
           audio_blocks.UnsupportedStride H1 H2 eq_refl eq_refl H3).
Defined.

(** C7 as stated fails on a buffer of length zero: it is not rejected but
    accepted as an empty view, and the callback logs no rejection for it;
    and a null data pointer is skipped by the callback without any log. *)
Lemma zero_length_buffer_is_accepted :
  let st := ready_detector false false in
  let null_data :=
    {| buffer :=
         Some {| audio_blocks.data := None;
                 audio_blocks.chunk :=
                   Some {| audio_blocks.chunk_size := 2048;
                           audio_blocks.chunk_stride := 4 |} |} |} in
  audio_blocks.makeBufferViewFromSpaMonoF32 (buffer (buffer_of [] 4)) 512
  = Ok {| audio_blocks.samples_ := []; audio_blocks.block_size_ := 512 |}
  /\ process 1 st (Some (buffer_of [] 4)) = Some (st, [PwStreamQueueBuffer])
  /\ process 1 st (Some null_data) = Some (st, [PwStreamQueueBuffer]).
Proof. intros st null_data. repeat split. Qed.

(** ** Log lines *)

Lemma string_app_assoc (a b c : string) : (a ++ b ++ c = (a ++ b) ++ c)%string.
Proof. induction a as [|x a IH]; cbn; [reflexivity|]. rewrite IH. reflexivity. Qed.

Lemma string_app_empty (a : string) : (a ++ EmptyString = a)%string.
Proof. induction a as [|x a IH]; cbn; [reflexivity|]. rewrite IH. reflexivity. Qed.

Lemma has_comma_app a b : has_comma (a ++ b) = has_comma a || has_comma b.
Proof.
  unfold has_comma, chars. induction a as [|c a IH]; [reflexivity|].
  cbn. rewrite IH. apply orb_assoc.
Qed.

Lemma split_commas_field a b :
  has_comma a = false -> split_commas (a ++ "," ++ b) = a :: split_commas b.
Proof.
  unfold has_comma, chars. induction a as [|c a IH]; [reflexivity|].
  cbn. intros Hc. apply orb_false_elim in Hc as [Hc Ha].
  rewrite Hc. cbn in IH. rewrite (IH Ha). reflexivity.
Qed.

(** Checked on every value a remainder modulo 1000 can take. *)
Lemma format_03_no_comma z :
  (-1000 < z < 1000)%Z -> has_comma (format_03 z) = false.
Proof.
  intros Hz.
  assert (Hall : forallb (fun k => negb (has_comma (format_03 (Z.of_nat k - 999))))
                   (seq 0 1999) = true) by (vm_compute; reflexivity).
  rewrite forallb_forall in Hall.
  specialize (Hall (Z.to_nat (z + 999))).
  replace (Z.of_nat (Z.to_nat (z + 999)) - 999)%Z with z in Hall by lia.
  apply negb_true_iff, Hall, in_seq. lia.
Qed.

Lemma format_03_three_digits z :
  (0 <= z < 1000)%Z -> String.length (format_03 z) = 3.
Proof.
  intros Hz.
  assert (Hall : forallb (fun k => String.length (format_03 (Z.of_nat k)) =? 3)
                   (seq 0 1000) = true) by (vm_compute; reflexivity).
  rewrite forallb_forall in Hall.
  specialize (Hall (Z.to_nat z)). rewrite Z2Nat.id in Hall by lia.
  apply Nat.eqb_eq, Hall, in_seq. lia.
Qed.

Lemma log_lines_app a b : log_lines (a ++ b) = log_lines a ++ log_lines b.
Proof. unfold log_lines. apply flat_map_app. Qed.

Section LogLines.

Context {Time : Type} `{LogFormat Time}.

(** With the log on, a drain writes one line for each event it reads that
    is a beat or an onset, in the order read, stamped with the clock of its
    round. *)
Lemma drain_log_lines (clock : nat -> Time) : forall evs round,
  Forall (fun ev => Event.is_beat ev || Event.is_onset ev = true) evs ->
  log_lines (drain_log true clock round evs)
  = imap (fun i ev => log_line (clock (round + i)) ev) evs.
Proof using Type.
  induction evs as [|ev evs IH]; intros round Hall; [reflexivity|].
  apply Forall_cons in Hall as [Hev Hall].
  cbn [drain_log andb]. rewrite Hev, log_lines_app, (IH (S round) Hall).
  cbn [log_lines flat_map app imap]. rewrite Nat.add_0_r. f_equal.
  apply imap_ext. intros i ev' _. cbn. f_equal. f_equal. lia.
Qed.

Lemma drain_log_off (clock : nat -> Time) : forall evs round,
  drain_log false clock round evs = [].
Proof using Type.
  induction evs as [|ev evs IH]; intros round; [reflexivity|].
  cbn [drain_log andb app]. apply IH.
Qed.

(** The fields of a log line. *)
Lemma log_line_fields (t : Time) (event : Event.t) :
  has_comma (format_T t) = false ->
  has_comma (format_1f (if Event.is_beat event then Event.bpm event else F32.zero))
  = false ->
  has_comma (format_3f (Event.pitch_hz event)) = false ->
  split_commas (log_line t event)
  = [(format_T t ++ "." ++ format_03 (Z.rem (time_since_epoch_ms t) 1000))%string;
     format_1f (if Event.is_beat event then Event.bpm event else F32.zero);
     (if Event.is_onset event then "1" else "0")%string;
     format_3f (Event.pitch_hz event);
     EmptyString].
Proof using Type.
  intros HT H1 H3. unfold log_line.
  set (ms := format_03 (Z.rem (time_since_epoch_ms t) 1000)).
  assert (Hms : has_comma ms = false).
  { apply format_03_no_comma.
    pose proof (Z.rem_bound_abs (time_since_epoch_ms t) 1000). lia. }
  assert (Hfirst : has_comma (format_T t ++ "." ++ ms) = false).
  { rewrite !has_comma_app, HT, Hms. reflexivity. }
  replace (format_T t ++ "." ++ ms ++ "," ++
           format_1f (if Event.is_beat event then Event.bpm event else F32.zero) ++ "," ++
           (if Event.is_onset event then "1" else "0") ++ "," ++
           format_3f (Event.pitch_hz event) ++ ",")%string
    with ((format_T t ++ "." ++ ms) ++ "," ++
          format_1f (if Event.is_beat event then Event.bpm event else F32.zero) ++ "," ++
          (if Event.is_onset event then "1" else "0") ++ "," ++
          format_3f (Event.pitch_hz event) ++ "," ++ EmptyString)%string.
  - rewrite (split_commas_field _ _ Hfirst), (split_commas_field _ _ H1).
    rewrite split_commas_field by (destruct (Event.is_onset event); reflexivity).
    rewrite (split_commas_field _ _ H3). reflexivity.
  - rewrite string_app_empty, <- !string_app_assoc. reflexivity.
Qed.

End LogLines.

(** * Part III: further properties of the code *)

(** ** [parseU32] *)

Lemma decimal_value_leading_zero s : decimal_value (String "0" s) = decimal_value s.
Proof. reflexivity. Qed.

(** X1. [parseU32] returns a value with a null message exactly for the
    non-empty strings of digits whose decimal value fits 32 bits, and the
    value is that decimal value (no silent wrap); the empty string gives
    [(0, "empty")]; every other string -- one with a character that is not
    a digit, or one whose value is beyond [2^32 - 1] -- gives
    [(0, "nondigit")]. Leading zeros do not matter. *)
Theorem parseU32_reads_decimal :
  forall (s : string) (n : N),
    (parseU32 s = (n, None) <->
     s <> EmptyString /\ all_digits s = true /\ decimal_value s = n
     /\ (n <= 4294967295)%N)
    /\ (parseU32 s = (0%N, Some "empty"%string) <-> s = EmptyString)
    /\ (s <> EmptyString ->
        all_digits s = false \/ (4294967295 < decimal_value s)%N ->
        parseU32 s = (0%N, Some "nondigit"%string))
    /\ (s <> EmptyString -> parseU32 (String "0" s) = parseU32 s).
Proof.
  intros s n.
  assert (Hmax : uint32_max = 4294967295%N) by reflexivity.
  destruct s as [|c s].
  { split; [split; [discriminate | intros (Hne & _); congruence]|].
    split; [split; reflexivity|]. split; intros Hne; congruence. }
  pose proof (parseU32_spec (String c s) ltac:(discriminate)) as Hspec.
  rewrite Hmax in Hspec.
  split; [|split; [|split]].
  - rewrite Hspec. split.
    + destruct (all_digits (String c s)); cbn [andb]; [|discriminate].
      destruct (N.leb_spec (decimal_value (String c s)) 4294967295); [|discriminate].
      intros [= <-]. repeat split; [discriminate | assumption].
    + intros (_ & Hd & <- & Hle). rewrite Hd. cbn [andb].
      destruct (N.leb_spec (decimal_value (String c s)) 4294967295); [reflexivity | lia].
  - split; [|discriminate]. rewrite Hspec.
    destruct (_ && _); discriminate.
  - intros _ [Hd | Hbig]; rewrite Hspec.
    + rewrite Hd. reflexivity.
    + destruct (N.leb_spec (decimal_value (String c s)) 4294967295); [lia|].
      rewrite andb_false_r. reflexivity.
  - intros _. rewrite Hspec, (parseU32_spec (String "0" (String c s))) by discriminate.
    rewrite Hmax, decimal_value_leading_zero. reflexivity.
Qed.

(** ** [parseArgs] *)

Lemma is_help_not_flag arg : is_help arg = true -> is_flag arg = false.
Proof.
  unfold is_help, is_flag.
  destruct (String.eqb_spec arg "--help") as [->|_]; [reflexivity|].
  destruct (String.eqb_spec arg "-h") as [->|_]; [reflexivity | discriminate].
Qed.

Lemma is_help_not_positional arg : is_help arg = true -> is_positional arg = false.
Proof.
  unfold is_help.
  destruct (String.eqb_spec arg "--help") as [->|_]; [reflexivity|].
  destruct (String.eqb_spec arg "-h") as [->|_]; [reflexivity | discriminate].
Qed.

Lemma is_flag_not_positional arg : is_flag arg = true -> is_positional arg = false.
Proof.
  unfold is_flag.
  destruct (String.eqb_spec arg "--no-log") as [->|_]; [reflexivity|].
  destruct (String.eqb_spec arg "--no-stats") as [->|_]; [reflexivity|].
  destruct (String.eqb_spec arg "--pitch") as [->|_]; [reflexivity|].
  destruct (String.eqb_spec arg "--no-visual") as [->|_]; [reflexivity | discriminate].
Qed.

(** One round of the loop of [parseArgs], by the kind of the argument. *)
Lemma parseArgs_loop_cons arg rest options saw :
  parseArgs_loop (arg :: rest) options saw
  = if is_help arg then Unexpected {| kind := Help; message := EmptyString |}
    else if is_positional arg then
      if saw then
        Unexpected
          {| kind := Invalid;
             message := "Too many positional arguments (only buffer_size is allowed)/" |}
      else if valid_buffer_size arg
      then parseArgs_loop rest (with_buffer_size options (decimal_value arg)) true
      else if all_digits arg && (decimal_value arg <=? uint32_max)%N
      then Unexpected {| kind := Invalid;
                         message := "buffer_size out of range [64, 8192]" |}
      else Unexpected {| kind := Invalid;
                         message := "buffer_size must be a base-10 unsigned integer" |}
    else if is_flag arg then parseArgs_loop rest (apply_flag options arg) saw
    else Unexpected {| kind := Invalid; message := "Unknown option '" ++ arg ++ "'" |}.
Proof.
  destruct (is_help arg) eqn:Hh.
  { unfold is_help in Hh. cbn [parseArgs_loop]. rewrite Hh. reflexivity. }
  destruct (is_positional arg) eqn:Hp.
  { destruct saw.
    - unfold is_help in Hh. cbn [parseArgs_loop]. rewrite Hh, Hp. reflexivity.
    - apply parseArgs_loop_positional. exact Hp. }
  destruct (is_flag arg) eqn:Hf; [apply parseArgs_loop_flag; exact Hf|].
  unfold is_help in Hh. unfold is_flag in Hf. cbn [parseArgs_loop]. rewrite Hh, Hp.
  apply orb_false_elim in Hf as [Hf H4]. apply orb_false_elim in Hf as [Hf H3].
  apply orb_false_elim in Hf as [H1 H2]. rewrite H1, H2, H3, H4. reflexivity.
Qed.

Lemma has_arg_cons name arg args :
  has_arg name (arg :: args) = String.eqb name arg || has_arg name args.
Proof. reflexivity. Qed.

Lemma merge_flags_nil options :
  merge_flags options [] (opt_buffer_size options) = options.
Proof.
  destruct options as [n l s p v]. unfold merge_flags. cbn.
  rewrite !andb_true_r, orb_false_r. reflexivity.
Qed.

Lemma merge_flags_positional options v args n :
  is_positional v = true ->
  merge_flags (with_buffer_size options n) args n = merge_flags options (v :: args) n.
Proof.
  intros Hp. unfold merge_flags. rewrite !has_arg_cons.
  assert (Hne : forall name, is_positional name = false -> String.eqb name v = false).
  { intros name Hn. destruct (String.eqb_spec name v) as [->|_]; [congruence | reflexivity]. }
  rewrite !Hne by reflexivity. reflexivity.
Qed.

Lemma merge_flags_flag options arg args n :
  is_flag arg = true ->
  merge_flags (apply_flag options arg) args n = merge_flags options (arg :: args) n.
Proof.
  unfold is_flag, apply_flag, merge_flags. intros Hf. rewrite !has_arg_cons.
  destruct (String.eqb_spec arg "--no-log") as [->|_];
    [cbn; rewrite andb_false_r; reflexivity|].
  destruct (String.eqb_spec arg "--no-stats") as [->|_];
    [cbn; rewrite andb_false_r; reflexivity|].
  destruct (String.eqb_spec arg "--pitch") as [->|_];
    [cbn; rewrite orb_true_r; reflexivity|].
  destruct (String.eqb_spec arg "--no-visual") as [->|_];
    [cbn; rewrite andb_false_r; reflexivity | discriminate].
Qed.

(** When the loop succeeds, and with which options. *)
Lemma parseArgs_loop_ok_iff args : forall options saw o,
  parseArgs_loop args options saw = Ok o <->
  forallb (fun a => is_flag a || is_positional a) args = true
  /\ match positionals args with
     | [] => o = merge_flags options args (opt_buffer_size options)
     | [v] => saw = false /\ valid_buffer_size v = true
              /\ o = merge_flags options args (decimal_value v)
     | _ => False
     end.
Proof.
  induction args as [|arg args IH]; intros options saw o.
  - cbn [parseArgs_loop forallb positionals List.filter]. rewrite merge_flags_nil.
    split; [intros [= <-]; auto | intros (_ & ->); reflexivity].
  - rewrite parseArgs_loop_cons. unfold positionals in *. cbn [forallb List.filter].
    destruct (is_help arg) eqn:Hh.
    { rewrite (is_help_not_flag arg Hh), (is_help_not_positional arg Hh). cbn [orb andb].
      split; [discriminate | intros (Hf & _); discriminate]. }
    destruct (is_positional arg) eqn:Hp.
    + rewrite orb_true_r. cbn [andb]. destruct saw.
      { split; [discriminate|]. intros (_ & Hm).
        destruct (List.filter is_positional args) as [|? ?]; [|destruct Hm].
        destruct Hm as (Hs & _). discriminate. }
      destruct (valid_buffer_size arg) eqn:Hv.
      * rewrite IH. cbn [opt_buffer_size with_buffer_size].
        destruct (List.filter is_positional args) as [|v2 [|v3 more]].
        -- rewrite (merge_flags_positional options arg args _ Hp).
           split; [intros (Hf & ->); auto | intros (Hf & _ & _ & ->); auto].
        -- split; [intros (_ & Hs & _); discriminate | intros (_ & []) ].
        -- split; intros (_ & []).
      * destruct (all_digits arg && _);
          (split; [discriminate|]; intros (_ & Hm);
           destruct (List.filter is_positional args);
           [destruct Hm as (_ & Hv' & _); discriminate | destruct Hm]).
    + rewrite orb_false_r. destruct (is_flag arg) eqn:Hf; cbn [andb].
      * rewrite IH, apply_flag_buffer_size.
        destruct (List.filter is_positional args) as [|v2 [|v3 more]];
          rewrite ?(merge_flags_flag options arg args _ Hf); reflexivity.
      * split; [discriminate | intros (Hx & _); discriminate].
Qed.

(** X2. [parseArgs] succeeds exactly when every argument after the program
    name is one of the four option flags or a positional value, there is at
    most one positional value, and that value is a number in [64, 8192].
    The options it returns are then a function of the set of flags present
    and of that value: buffer size 512 without a value, logging, stats and
    visual on unless their [--no-...] flag occurs, pitch off unless
    [--pitch] occurs. *)
Theorem parseArgs_succeeds_iff :
  forall (prog : string) (rest : list string) (o : Options),
    parseArgs (prog :: rest) = Ok o <->
    forallb (fun a => is_flag a || is_positional a) rest = true
    /\ match positionals rest with
       | [] => o = flags_options rest 512
       | [v] => valid_buffer_size v = true /\ o = flags_options rest (decimal_value v)
       | _ => False
       end.
Proof.
  intros prog rest o. unfold parseArgs, flags_options.
  rewrite parseArgs_loop_ok_iff. cbn [opt_buffer_size Options_default].
  change kDefaultBufferSize with 512%N.
  destruct (positionals rest) as [|v [|v2 more]]; [reflexivity | | reflexivity].
  split; [intros (Hf & _ & Hv & Ho); auto | intros (Hf & Hv & Ho); auto].
Qed.

Lemma has_arg_permutation name (l l' : list string) :
  Permutation l l' -> has_arg name l = has_arg name l'.
Proof.
  intros Hperm. unfold has_arg.
  destruct (existsb (String.eqb name) l) eqn:H1; symmetry.
  - apply existsb_exists in H1 as (x & Hin & Hx). apply existsb_exists.
    exists x. split; [eapply Permutation_in; eassumption | assumption].
  - destruct (existsb (String.eqb name) l') eqn:H2; [|reflexivity].
    apply existsb_exists in H2 as (x & Hin & Hx).
    assert (Hex : existsb (String.eqb name) l = true).
    { apply existsb_exists. exists x. split; [|assumption].
      eapply Permutation_in; [symmetry|]; eassumption. }
    congruence.
Qed.

Lemma forallb_permutation {A : Type} (f : A -> bool) (l l' : list A) :
  Permutation l l' -> forallb f l = true -> forallb f l' = true.
Proof.
  intros Hperm Hall. rewrite forallb_forall in *. intros x Hin.
  apply Hall. eapply Permutation_in; [symmetry|]; eassumption.
Qed.

Lemma filter_permutation {A : Type} (f : A -> bool) (l l' : list A) :
  Permutation l l' -> Permutation (List.filter f l) (List.filter f l').
Proof.
  induction 1 as [|x l l' _ IH|x y l|l l' l'' _ IH1 _ IH2]; cbn.
  - constructor.
  - destruct (f x); [constructor|]; assumption.
  - destruct (f x), (f y); try reflexivity. constructor.
  - etransitivity; eassumption.
Qed.

(** X3. On success the order of the arguments does not matter: any
    rearrangement of the arguments after the program name is accepted too
    and gives the same options. *)
Theorem parseArgs_order_irrelevant :
  forall (prog : string) (rest rest' : list string) (o : Options),
    Permutation rest rest' ->
    parseArgs (prog :: rest) = Ok o ->
    parseArgs (prog :: rest') = Ok o.
Proof.
  intros prog rest rest' o Hperm. unfold parseArgs.
  rewrite !parseArgs_loop_ok_iff. intros (Hall & Hm).
  split; [eapply forallb_permutation; eassumption|].
  pose proof (filter_permutation is_positional rest rest' Hperm) as Hpos.
  assert (Hmerge : forall n, merge_flags Options_default rest n
                             = merge_flags Options_default rest' n).
  { intros n. unfold merge_flags.
    rewrite !(has_arg_permutation _ rest rest' Hperm). reflexivity. }
  unfold positionals in *.
  destruct (List.filter is_positional rest) as [|v [|v2 more]].
  - apply Permutation_nil in Hpos. rewrite Hpos, <- Hmerge. exact Hm.
  - apply Permutation_length_1_inv in Hpos. rewrite Hpos, <- Hmerge. exact Hm.
  - destruct Hm.
Qed.

Lemma parseArgs_order_irrelevant_witness :
  let rest := ["--pitch"; "256"; "--no-log"]%string in
  let rest' := ["256"; "--no-log"; "--pitch"]%string in
  let o := flags_options rest 256 in
  Permutation rest rest'
  /\ parseArgs ("beat_cli"%string :: rest) = Ok o
  /\ parseArgs ("beat_cli"%string :: rest') = Ok o.
Proof.
  intros rest rest' o.
  assert (H1 : Permutation rest rest').
  { unfold rest, rest'. etransitivity; [apply perm_swap|].
    apply perm_skip. apply perm_swap. }
  assert (H2 : parseArgs ("beat_cli"%string :: rest) = Ok o) by reflexivity.
  split; [exact H1|]. split; [exact H2|].
  exact (parseArgs_order_irrelevant "beat_cli"%string rest rest' o H1 H2).
Defined.

(** Parsing a list of arguments is parsing its front part and going on
    from there; an error in the front part is final. *)
Lemma parseArgs_loop_app pre post : forall options saw,
  parseArgs_loop (pre ++ post) options saw
  = match parseArgs_loop pre options saw with
    | Ok o' => parseArgs_loop post o' (saw || existsb is_positional pre)
    | Unexpected e => Unexpected e
    end.
Proof.
  induction pre as [|arg pre IH]; intros options saw.
  - cbn. rewrite orb_false_r. reflexivity.
  - cbn [app existsb]. rewrite !parseArgs_loop_cons.
    destruct (is_help arg); [reflexivity|].
    destruct (is_positional arg); cbn [orb].
    + destruct saw; [reflexivity|].
      destruct (valid_buffer_size arg).
      * rewrite IH. cbn [orb]. reflexivity.
      * destruct (all_digits arg && _); reflexivity.
    + destruct (is_flag arg); [|reflexivity]. rewrite IH. reflexivity.
Qed.

(** X4. Arguments are handled from left to right and the first problem
    decides: once a front part of the command line is in error, whatever
    follows does not change the result; and after a front part that is
    fine, a help request gives the help result, whatever follows it. *)
Theorem parseArgs_first_problem_decides :
  forall (prog h : string) (pre post : list string),
    (forall e, parseArgs (prog :: pre) = Unexpected e ->
               parseArgs (prog :: pre ++ post) = Unexpected e)
    /\ (forall o, parseArgs (prog :: pre) = Ok o -> is_help h = true ->
                  parseArgs (prog :: pre ++ h :: post)
                  = Unexpected {| kind := Help; message := EmptyString |}).
Proof.
  intros prog h pre post. unfold parseArgs. split.
  - intros e He. rewrite parseArgs_loop_app, He. reflexivity.
  - intros o Ho Hh. rewrite parseArgs_loop_app, Ho, parseArgs_loop_cons, Hh. reflexivity.
Qed.

(** X5. What is refused after a front part that is fine: a second
    positional value is refused as one too many, whether or not it is a
    number; an argument that is neither a help request nor positional nor
    one of the four flags -- a negative number and the empty string among
    them -- is refused as an unknown option that is named in the message. *)
Theorem parseArgs_refuses :
  forall (prog a : string) (pre post : list string) (o : Options),
    parseArgs (prog :: pre) = Ok o ->
    (positionals pre <> [] -> is_positional a = true ->
     parseArgs (prog :: pre ++ a :: post)
     = Unexpected
         {| kind := Invalid;
            message := "Too many positional arguments (only buffer_size is allowed)/" |})
    /\ (is_help a = false -> is_positional a = false -> is_flag a = false ->
        parseArgs (prog :: pre ++ a :: post)
        = Unexpected {| kind := Invalid; message := "Unknown option '" ++ a ++ "'" |}).
Proof.
  intros prog a pre post o Ho. unfold parseArgs in *. split.
  - intros Hpos Ha. rewrite parseArgs_loop_app, Ho, parseArgs_loop_cons.
    assert (Hsaw : existsb is_positional pre = true).
    { unfold positionals in Hpos.
      destruct (List.filter is_positional pre) as [|v vs] eqn:Hf; [congruence|].
      assert (Hin : In v (List.filter is_positional pre)) by (rewrite Hf; left; reflexivity).
      apply filter_In in Hin as (Hin & Hv). apply existsb_exists. eauto. }
    rewrite Hsaw, Ha.
    destruct (is_help a) eqn:Hh; [|reflexivity].
    apply is_help_not_positional in Hh. congruence.
  - intros Hh Hp Hf. rewrite parseArgs_loop_app, Ho, parseArgs_loop_cons, Hh, Hp, Hf.
    reflexivity.
Qed.

Lemma parseArgs_refuses_witness :
  let pre := ["--pitch"; "256"]%string in
  parseArgs ("beat_cli"%string :: pre) = Ok (flags_options pre 256)
  /\ (positionals pre <> [] -> is_positional "x"%string = true ->
      parseArgs ("beat_cli"%string :: pre ++ "x"%string :: ["--help"%string])
      = Unexpected
          {| kind := Invalid;
             message := "Too many positional arguments (only buffer_size is allowed)/" |})
  /\ (is_help "x"%string = false -> is_positional "x"%string = false ->
      is_flag "x"%string = false ->
      parseArgs ("beat_cli"%string :: pre ++ "x"%string :: ["--help"%string])
      = Unexpected {| kind := Invalid; message := "Unknown option '" ++ "x" ++ "'" |}).
Proof.
  intros pre.
  assert (H1 : parseArgs ("beat_cli"%string :: pre) = Ok (flags_options pre 256))
    by reflexivity.
  split; [exact H1|].
  exact (parseArgs_refuses "beat_cli"%string "x"%string pre ["--help"%string]
           (flags_options pre 256) H1).
Defined.

(** X6. For every command line that is accepted, the FFT size the
    constructor derives from the buffer size is exactly twice the buffer
    size -- the 32-bit product does not wrap -- and lies in [128, 16384]. *)
Theorem fft_size_is_twice_buffer_size :
  forall (args : list string) (o : Options),
    parseArgs args = Ok o ->
    fft_size_of (opt_buffer_size o) = (2 * opt_buffer_size o)%N
    /\ (128 <= fft_size_of (opt_buffer_size o) <= 16384)%N.
Proof.
  intros args o Ho. unfold parseArgs in Ho.
  apply parseArgs_loop_range in Ho.
  - unfold kMinBufferSize, kMaxBufferSize in Ho. unfold fft_size_of, wrap32.
    rewrite N.mod_small by lia. lia.
  - cbn. unfold kMinBufferSize, kMaxBufferSize, kDefaultBufferSize. lia.
Qed.

Lemma fft_size_is_twice_buffer_size_witness :
  let args := ["beat_cli"; "8192"]%string in
  let o := flags_options ["8192"%string] 8192 in
  parseArgs args = Ok o
  /\ fft_size_of (opt_buffer_size o) = (2 * opt_buffer_size o)%N
  /\ (128 <= fft_size_of (opt_buffer_size o) <= 16384)%N.
Proof.
  intros args o.
  assert (H1 : parseArgs args = Ok o) by reflexivity.
  split; [exact H1|].
  exact (fft_size_is_twice_buffer_size args o H1).
Defined.

(** ** The BPM buffer from any state *)

Lemma bpm_window_length b : length (bpm_window b) = count b.
Proof. unfold bpm_window. rewrite length_map. apply length_seq. Qed.

(** Recording [vs] into a well-formed buffer. *)
Lemma bpm_record_from b0 vs :
  bpm_wf b0 ->
  let b := fold_left bpm_record vs b0 in
  bpm_wf b
  /\ count b = Nat.min (count b0 + length vs) kBPMCapacity
  /\ head b = (head b0 + length vs) mod kBPMCapacity
  /\ bpm_window b = lastn kBPMCapacity (bpm_window b0 ++ vs).
Proof.
  intros Hwf0. induction vs as [|v vs IH] using rev_ind.
  - cbn zeta. cbn [fold_left length]. rewrite !Nat.add_0_r, app_nil_r.
    destruct Hwf0 as (Hl & Hh & Hc).
    split; [repeat split; assumption|]. split; [lia|].
    split; [rewrite Nat.mod_small; [reflexivity | assumption]|].
    unfold lastn. rewrite bpm_window_length.
    replace (count b0 - kBPMCapacity) with 0 by lia. reflexivity.
  - cbn zeta in *. rewrite fold_left_app. cbn [fold_left].
    destruct IH as (Hwf & Hcnt & Hhead & Hwin).
    set (b := fold_left bpm_record vs b0) in *.
    split; [apply bpm_record_wf; assumption|].
    rewrite length_app. cbn [length].
    split; [cbn [bpm_record count]; rewrite Hcnt; lia|].
    split.
    + cbn [bpm_record head]. rewrite Hhead, Nat.Div0.add_mod_idemp_l.
      f_equal. lia.
    + rewrite bpm_window_record by assumption.
      rewrite app_assoc, lastn_snoc by apply kBPMCapacity_pos.
      rewrite <- Hwin, length_app, bpm_window_length, Hcnt.
      destruct (Nat.ltb_spec (Nat.min (count b0 + length vs) kBPMCapacity) kBPMCapacity);
        destruct (Nat.ltb_spec (count b0 + length vs) kBPMCapacity);
        try lia; reflexivity.
Qed.

(** X7. The BPM buffer is a window over what was recorded: after
    recording the values [vs] into a well-formed buffer, the array still
    has its 10 slots, [head] has advanced by [length vs] modulo 10, [count]
    has grown by [length vs] up to 10, and the retained values, oldest
    first, are the last 10 of the values retained before followed by
    [vs]. *)
Theorem bpm_buffer_is_sliding_window :
  forall (b0 : BPMBuffer) (vs : list F32.t),
    bpm_wf b0 ->
    let b := fold_left bpm_record vs b0 in
    length (values b) = kBPMCapacity
    /\ head b = (head b0 + length vs) mod kBPMCapacity
    /\ count b = Nat.min (count b0 + length vs) kBPMCapacity
    /\ bpm_window b = lastn kBPMCapacity (bpm_window b0 ++ vs).
Proof.
  intros b0 vs Hwf b.
  destruct (bpm_record_from b0 vs Hwf) as ((Hl & _) & Hc & Hh & Hw).
  repeat split; assumption.
Qed.

Lemma bpm_buffer_is_sliding_window_witness :
  let b0 := fold_left bpm_record (map F32.of_nat (seq 1 9)) bpm_init in
  let vs := map F32.of_nat [10; 11; 12] in
  let b := fold_left bpm_record vs b0 in
  bpm_wf b0
  /\ length (values b) = kBPMCapacity
  /\ head b = (head b0 + length vs) mod kBPMCapacity
  /\ count b = Nat.min (count b0 + length vs) kBPMCapacity
  /\ bpm_window b = lastn kBPMCapacity (bpm_window b0 ++ vs).
Proof.
  intros b0 vs b.
  assert (H1 : bpm_wf b0) by (unfold bpm_wf, kBPMCapacity; cbn; lia).
  split; [exact H1|].
  exact (bpm_buffer_is_sliding_window b0 vs H1).
Defined.

(** ** What the real-time callback books *)

Lemma same_ring_refl {E : Type} (st : DetectorState E) : same_ring st st.
Proof. repeat split. Qed.

Lemma same_ring_push {E : Type} (a b : DetectorState E) ev :
  same_ring a b -> same_ring (spsc_push a ev) (spsc_push b ev).
Proof.
  intros (He & Hh & Ht).
  destruct (spsc_push_ring_ext a b ev He Hh Ht) as (_ & Hh' & Ht' & He').
  repeat split; assumption.
Qed.

Lemma same_ring_push_all {E : Type} evs : forall a b : DetectorState E,
  same_ring a b -> same_ring (fold_left spsc_push evs a) (fold_left spsc_push evs b).
Proof.
  induction evs as [|ev evs IH]; intros a b Hab; [exact Hab|].
  cbn [fold_left]. apply IH, same_ring_push, Hab.
Qed.

Lemma same_ring_trans {E : Type} (a b c : DetectorState E) :
  same_ring a b -> same_ring b c -> same_ring a c.
Proof. unfold same_ring. intuition congruence. Qed.

Lemma same_ring_contents {E : Type} (a b : DetectorState E) :
  same_ring a b -> spsc_contents a = spsc_contents b.
Proof.
  intros (He & Hh & Ht). unfold spsc_contents, spsc_size. rewrite He, Hh, Ht.
  reflexivity.
Qed.

Lemma wrap64_small x : (x < 2 ^ 64)%N -> wrap64 x = x.
Proof. intros Hx. unfold wrap64. apply N.mod_small. exact Hx. Qed.

Lemma wrap64_bound x : (wrap64 x < 2 ^ 64)%N.
Proof. unfold wrap64. apply N.mod_upper_bound. discriminate. Qed.

Lemma wrap64_add x a b : wrap64 (wrap64 (x + a) + b) = wrap64 (x + (a + b)).
Proof.
  unfold wrap64. rewrite N.Div0.add_mod_idemp_l. f_equal. lia.
Qed.

Lemma last_app_default {A : Type} (l1 l2 : list A) (d : A) :
  List.last (l1 ++ l2) d = List.last l2 (List.last l1 d).
Proof.
  induction l2 as [|x l2 IH] using rev_ind.
  - rewrite app_nil_r. reflexivity.
  - rewrite app_assoc, !List.last_last. reflexivity.
Qed.

Lemma last_cons_default {A : Type} (x : A) (l : list A) (d d' : A) :
  List.last (x :: l) d = List.last (x :: l) d'.
Proof.
  revert x. induction l as [|y l IH]; intros x; [reflexivity|].
  change (List.last (y :: l) d = List.last (y :: l) d'). apply IH.
Qed.

Lemma bpm_chain_app prev evs1 evs2 :
  bpm_chain prev evs1 ->
  bpm_chain (List.last (map Event.bpm evs1) prev) evs2 ->
  bpm_chain prev (evs1 ++ evs2).
Proof.
  revert prev. induction evs1 as [|ev evs1 IH]; intros prev H1 H2; [exact H2|].
  cbn [app bpm_chain] in *. destruct H1 as (Hev & H1). split; [exact Hev|].
  apply IH; [exact H1|].
  destruct evs1 as [|ev' evs1']; [exact H2|].
  cbn [map] in *. rewrite (last_cons_default _ _ _ prev). exact H2.
Qed.

Section Books.

Context {E : Type} `{AnalysisEngine E}.
Implicit Types st : DetectorState E.

(** What one round of the block loop books, as the list [evs] of the
    events it pushes: none or one. *)
Lemma process_block_books st effs block :
  (total_beats st < 2 ^ 64)%N -> (total_onsets st < 2 ^ 64)%N ->
  let r := process_block (st, effs) block in
  exists evs,
    length evs <= 1
    /\ same_control st (fst r)
    /\ same_ring (fst r) (fold_left spsc_push evs st)
    /\ snd r = effs ++ AnalyseBlock block
                    :: (if event_src st then map (fun _ => PwLoopSignalEvent) evs
                        else [])
    /\ Forall beat_or_onset evs
    /\ total_beats (fst r)
       = wrap64 (total_beats st + N.of_nat (length (List.filter Event.is_beat evs)))
    /\ total_onsets (fst r)
       = wrap64 (total_onsets st + N.of_nat (length (List.filter Event.is_onset evs)))
    /\ bpm (fst r) = fold_left bpm_record (beat_bpms evs) (bpm st)
    /\ last_bpm (fst r) = List.last (map Event.bpm evs) (last_bpm st)
    /\ bpm_chain (last_bpm st) evs
    /\ (pitch_enabled st = false ->
        Forall (fun ev => Event.pitch_hz ev = F32.zero) evs)
    /\ Forall (fun ev => Event.process_ms ev = S754_zero false) evs.
Proof using Type.
  intros Hb Ho. unfold process_block.
  destruct (aubio_tempo_do (engine st) block) as [e1 tempo_out].
  destruct (aubio_onset_do e1 block) as [e2 onset_out].
  assert (Hnone : forall e3,
    exists evs,
      length evs <= 1
      /\ same_control st (fst (set_engine st e3, effs ++ [AnalyseBlock block]))
      /\ same_ring (fst (set_engine st e3, effs ++ [AnalyseBlock block]))
           (fold_left spsc_push evs st)
      /\ snd (set_engine st e3, effs ++ [AnalyseBlock block])
         = effs ++ AnalyseBlock block
                :: (if event_src st then map (fun _ => PwLoopSignalEvent) evs else [])
      /\ Forall beat_or_onset evs
      /\ total_beats (fst (set_engine st e3, effs ++ [AnalyseBlock block]))
         = wrap64 (total_beats st + N.of_nat (length (List.filter Event.is_beat evs)))
      /\ total_onsets (fst (set_engine st e3, effs ++ [AnalyseBlock block]))
         = wrap64 (total_onsets st + N.of_nat (length (List.filter Event.is_onset evs)))
      /\ bpm (fst (set_engine st e3, effs ++ [AnalyseBlock block]))
         = fold_left bpm_record (beat_bpms evs) (bpm st)
      /\ last_bpm (fst (set_engine st e3, effs ++ [AnalyseBlock block]))
         = List.last (map Event.bpm evs) (last_bpm st)
      /\ bpm_chain (last_bpm st) evs
      /\ (pitch_enabled st = false ->
          Forall (fun ev => Event.pitch_hz ev = F32.zero) evs)
      /\ Forall (fun ev => Event.process_ms ev = S754_zero false) evs).
  { intros e3. exists []. cbn [fst snd length List.filter map fold_left beat_bpms
                                List.last bpm_chain]. fields.
    rewrite !N.add_0_r, !wrap64_small by assumption.
    split; [lia|]. split; [unfold same_control; fields; repeat split|].
    split; [unfold same_ring; fields; repeat split|].
    split; [destruct (event_src st); reflexivity|].
    repeat split; auto. }
  assert (Hone : forall s ev,
    same_control st s -> same_ring s st ->
    total_beats s = (if Event.is_beat ev then wrap64 (total_beats st + 1)
                     else total_beats st) ->
    total_onsets s = (if Event.is_onset ev then wrap64 (total_onsets st + 1)
                      else total_onsets st) ->
    bpm s = (if Event.is_beat ev then bpm_record (bpm st) (Event.bpm ev) else bpm st) ->
    last_bpm s = Event.bpm ev ->
    (Event.is_beat ev = false -> Event.bpm ev = last_bpm st) ->
    beat_or_onset ev ->
    (pitch_enabled st = false -> Event.pitch_hz ev = F32.zero) ->
    Event.process_ms ev = S754_zero false ->
    let r := (spsc_push s ev,
              effs ++ [AnalyseBlock block]
                   ++ (if event_src (spsc_push s ev) then [PwLoopSignalEvent] else [])) in
    exists evs,
      length evs <= 1
      /\ same_control st (fst r)
      /\ same_ring (fst r) (fold_left spsc_push evs st)
      /\ snd r = effs ++ AnalyseBlock block
                      :: (if event_src st then map (fun _ => PwLoopSignalEvent) evs
                          else [])
      /\ Forall beat_or_onset evs
      /\ total_beats (fst r)
         = wrap64 (total_beats st + N.of_nat (length (List.filter Event.is_beat evs)))
      /\ total_onsets (fst r)
         = wrap64 (total_onsets st + N.of_nat (length (List.filter Event.is_onset evs)))
      /\ bpm (fst r) = fold_left bpm_record (beat_bpms evs) (bpm st)
      /\ last_bpm (fst r) = List.last (map Event.bpm evs) (last_bpm st)
      /\ bpm_chain (last_bpm st) evs
      /\ (pitch_enabled st = false ->
          Forall (fun ev => Event.pitch_hz ev = F32.zero) evs)
      /\ Forall (fun ev => Event.process_ms ev = S754_zero false) evs).
  { intros s ev Hc Hr Htb Hto Hbpm Hlast Hchain Hbo Hpitch Hms r. subst r.
    exists [ev]. cbn [fst snd length fold_left map List.last bpm_chain].
    pose proof (spsc_push_same_control s ev) as Hpc.
    assert (Hcs : same_control st (spsc_push s ev))
      by (eapply same_control_trans; eassumption).
    split; [lia|]. split; [exact Hcs|].
    split; [apply same_ring_push; exact Hr|].
    split.
    { destruct Hcs as (_ & _ & _ & _ & _ & _ & Hsrc & _). rewrite Hsrc.
      destruct (event_src st); reflexivity. }
    split; [repeat constructor; exact Hbo|].
    assert (Hdata : total_beats (spsc_push s ev) = total_beats s
                    /\ total_onsets (spsc_push s ev) = total_onsets s
                    /\ bpm (spsc_push s ev) = bpm s
                    /\ last_bpm (spsc_push s ev) = last_bpm s).
    { unfold spsc_push. destruct (_ =? _); repeat split. }
    destruct Hdata as (-> & -> & -> & ->).
    unfold beat_bpms. cbn [List.filter].
    split.
    { rewrite Htb. destruct (Event.is_beat ev); cbn [length N.of_nat];
        [reflexivity | rewrite N.add_0_r, wrap64_small by assumption; reflexivity]. }
    split.
    { rewrite Hto. destruct (Event.is_onset ev); cbn [length N.of_nat];
        [reflexivity | rewrite N.add_0_r, wrap64_small by assumption; reflexivity]. }
    split; [rewrite Hbpm; destruct (Event.is_beat ev); reflexivity|].
    split; [exact Hlast|].
    split; [split; [exact Hchain | exact I]|].
    split; [intros Hp; repeat constructor; apply Hpitch, Hp|].
    repeat constructor. exact Hms. }
  destruct (pitch_enabled st) eqn:Hpitch;
    [destruct (aubio_pitch_do e2 block) as [e3 pitch_out]|];
    destruct (F32.neqb tempo_out F32.zero) eqn:Hbeat;
    destruct (F32.neqb onset_out F32.zero) eqn:Honset;
    cbn [orb]; cbv zeta;
    first [ apply Hnone
          | apply Hone; cbn [Event.is_beat Event.is_onset Event.bpm Event.pitch_hz
                               Event.process_ms];
            try reflexivity; try discriminate;
            try (unfold same_control; fields; rewrite ?Hpitch; repeat split);
            try (unfold same_ring; fields; repeat split); try (intros; reflexivity);
            try (intros Hd; discriminate Hd) ].
Qed.

Lemma beat_bpms_app evs1 evs2 : beat_bpms (evs1 ++ evs2) = beat_bpms evs1 ++ beat_bpms evs2.
Proof using Type. unfold beat_bpms. rewrite List.filter_app, map_app. reflexivity. Qed.

(** What the loop over the blocks [bl] books. *)
Lemma process_blocks_books : forall bl st effs,
  (total_beats st < 2 ^ 64)%N -> (total_onsets st < 2 ^ 64)%N ->
  let r := fold_left process_block bl (st, effs) in
  exists evs extra,
    length evs <= length bl
    /\ same_control st (fst r)
    /\ same_ring (fst r) (fold_left spsc_push evs st)
    /\ snd r = effs ++ extra
    /\ forallb is_block_effect extra = true
    /\ length (List.filter is_signal extra) = (if event_src st then length evs else 0)
    /\ Forall beat_or_onset evs
    /\ total_beats (fst r)
       = wrap64 (total_beats st + N.of_nat (length (List.filter Event.is_beat evs)))
    /\ total_onsets (fst r)
       = wrap64 (total_onsets st + N.of_nat (length (List.filter Event.is_onset evs)))
    /\ bpm (fst r) = fold_left bpm_record (beat_bpms evs) (bpm st)
    /\ last_bpm (fst r) = List.last (map Event.bpm evs) (last_bpm st)
    /\ bpm_chain (last_bpm st) evs
    /\ (pitch_enabled st = false ->
        Forall (fun ev => Event.pitch_hz ev = F32.zero) evs)
    /\ Forall (fun ev => Event.process_ms ev = S754_zero false) evs.
Proof using Type.
  induction bl as [|block bl IH]; intros st effs Hb Ho.
  - exists [], []. cbn [fold_left fst snd length List.filter map List.last beat_bpms
                       bpm_chain forallb].
    rewrite !N.add_0_r, !wrap64_small, app_nil_r by assumption.
    split; [lia|]. split; [apply same_control_refl|]. split; [apply same_ring_refl|].
    split; [reflexivity|]. split; [reflexivity|].
    split; [destruct (event_src st); reflexivity|]. repeat split; auto.
  - cbn [fold_left]. cbv zeta.
    destruct (process_block_books st effs block Hb Ho)
      as (evs1 & Hlen1 & Hc1 & Hr1 & Heff1 & Hbo1 & Htb1 & Hto1 & Hbpm1 & Hlast1
          & Hch1 & Hp1 & Hms1).
    destruct (process_block (st, effs) block) as [st1 effs1]. cbn [fst snd] in *.
    assert (Hb1 : (total_beats st1 < 2 ^ 64)%N) by (rewrite Htb1; apply wrap64_bound).
    assert (Ho1 : (total_onsets st1 < 2 ^ 64)%N) by (rewrite Hto1; apply wrap64_bound).
    destruct (IH st1 effs1 Hb1 Ho1)
      as (evs2 & extra2 & Hlen2 & Hc2 & Hr2 & Heff2 & Hblk2 & Hsig2 & Hbo2 & Htb2 & Hto2
          & Hbpm2 & Hlast2 & Hch2 & Hp2 & Hms2).
    pose proof Hc1 as (_ & _ & _ & _ & _ & _ & Hsrc & _ & _ & Hpe & _).
    rewrite Hsrc in Hsig2. rewrite Hpe in Hp2.
    exists (evs1 ++ evs2),
      (AnalyseBlock block
         :: (if event_src st then map (fun _ => PwLoopSignalEvent) evs1 else [])
         ++ extra2).
    split; [rewrite length_app; cbn [length]; lia|].
    split; [eapply same_control_trans; eassumption|].
    split.
    { rewrite fold_left_app. eapply same_ring_trans; [exact Hr2|].
      apply same_ring_push_all. exact Hr1. }
    split.
    { rewrite Heff2, Heff1, <- app_assoc. reflexivity. }
    split.
    { cbn [forallb is_block_effect]. rewrite forallb_app, Hblk2, andb_true_r.
      destruct (event_src st); [|reflexivity].
      clear. induction evs1; [reflexivity | assumption]. }
    split.
    { cbn [List.filter is_signal]. rewrite List.filter_app, !length_app, Hsig2.
      destruct (event_src st); [|reflexivity].
      f_equal. clear. induction evs1 as [|e l IHl]; [reflexivity|].
      cbn. f_equal. exact IHl. }
    split; [apply Forall_app; split; assumption|].
    split.
    { rewrite Htb2, Htb1, wrap64_add, List.filter_app, length_app, Nat2N.inj_add.
      reflexivity. }
    split.
    { rewrite Hto2, Hto1, wrap64_add, List.filter_app, length_app, Nat2N.inj_add.
      reflexivity. }
    split; [rewrite beat_bpms_app, fold_left_app, <- Hbpm1; exact Hbpm2|].
    split; [rewrite map_app, last_app_default, <- Hlast1; exact Hlast2|].
    split; [apply bpm_chain_app; [exact Hch1 | rewrite <- Hlast1; exact Hch2]|].
    split; [intros Hp; apply Forall_app; split; auto|].
    apply Forall_app; split; assumption.
Qed.

End Books.

(** ** The real-time callback as a whole *)

Lemma block_effects_no_queue effs :
  forallb is_block_effect effs = true -> List.filter is_queue_buffer effs = [].
Proof.
  induction effs as [|e effs IH]; [reflexivity|].
  cbn [forallb List.filter]. intros Hall. apply andb_prop in Hall as [He Hall].
  destruct e; try discriminate; cbn; auto.
Qed.

Lemma analysed_queue_buffer l :
  analysed (l ++ [PwStreamQueueBuffer]) = analysed l.
Proof. rewrite analysed_app. cbn. apply app_nil_r. Qed.

Section Callback.

Context {E : Type} `{AnalysisEngine E}.

(** The ways through the callback: it folds the block body over some
    blocks [bl] (none on the ways out before the loop), writes at most a
    rejection to stderr before, and re-queues the buffer at the end if it
    took the lease. *)
Lemma process_cases fuel (st : DetectorState E) pw_buf st' effs :
  process fuel st pw_buf = Some (st', effs) ->
  exists bl pre body,
    fold_left process_block bl (st, []) = (st', body)
    /\ effs = pre ++ body
              ++ (if requeues st pw_buf then [PwStreamQueueBuffer] else [])
    /\ (pre = [] \/ exists msg, pre = [StderrLine msg] /\ bl = [])
    /\ (quit st = true -> bl = []).
Proof using Type.
  unfold process, requeues, is_dequeued. intros Hrun.
  destruct (quit st) eqn:Hq.
  { injection Hrun as <- <-. exists [], [], []. cbn. auto. }
  cbn [negb andb].
  assert (Hskip : forall l, Some (st, l) = Some (st', effs) ->
            exists bl pre body,
              fold_left process_block bl (st, []) = (st', body)
              /\ effs = pre ++ body ++ l
              /\ (pre = [] \/ exists msg, pre = [StderrLine msg] /\ bl = [])
              /\ (false = true -> bl = [])).
  { intros l [= <- <-]. exists [], [], []. cbn. auto. }
  destruct pw_buf as [pb|]; [|apply (Hskip [] Hrun)].
  destruct (buffer pb) as [spa_buf|]; [|apply (Hskip _ Hrun)].
  destruct (audio_blocks.data spa_buf); [|apply (Hskip _ Hrun)].
  destruct (audio_blocks.chunk spa_buf); [|apply (Hskip _ Hrun)].
  destruct (audio_blocks.makeBufferViewFromSpaMonoF32 _ _) as [view|error].
  - rewrite process_view_spec in Hrun.
    destruct (audio_blocks.blocks fuel view) as [bl|]; [|discriminate].
    destruct (fold_left process_block bl (st, [])) as [st1 effs1] eqn:Hfold.
    injection Hrun as <- <-. exists bl, [], effs1.
    split; [exact Hfold|]. split; [reflexivity|]. split; [auto|]. discriminate.
  - injection Hrun as <- <-. eexists [], [_], [].
    split; [reflexivity|]. split; [reflexivity|]. split; [eauto|]. discriminate.
Qed.

(** The loop over the blocks only analyses and signals. *)
Lemma process_blocks_effects : forall bl (st : DetectorState E) effs,
  forallb is_block_effect effs = true ->
  forallb is_block_effect (snd (fold_left process_block bl (st, effs))) = true.
Proof using Type.
  induction bl as [|block bl IH]; intros st effs Hall; [exact Hall|].
  cbn [fold_left].
  destruct (process_block_spec st effs block) as (_ & _ & (extra & Heffs & Hextra) & _).
  destruct (process_block (st, effs) block) as [st1 effs1]. cbn [snd] in Heffs.
  apply IH. rewrite Heffs, forallb_app, Hall.
  destruct Hextra as [-> | ->]; reflexivity.
Qed.

End Callback.

(** X8. What one call of the real-time callback books. A call that
    returns has produced a list [evs] of events, at most one for each block
    it analysed, each a beat or an onset, such that: the ring is the old
    ring with [evs] pushed in order, so the waiting events are the last
    1023 of the old ones followed by [evs]; the mainloop is signalled once
    for each event when the event source exists, never otherwise; the
    total of beats and of onsets went up by the number of beat and of onset
    events (on 64 bits); the BPM buffer has recorded the BPM of each beat
    event in order, hence its window is the last ten of the old window
    followed by these; [last_bpm] is the BPM of the last event; an event
    that is no beat repeats the BPM current before it; the pitch of every
    event is [0.0F] when pitch detection is off; [process_ms] is [0.0] in
    every event; and with [quit] set nothing is analysed and there is no
    event. *)
Theorem process_books_events :
  forall (E : Type) (A : AnalysisEngine E) (fuel : nat) (st st' : DetectorState E)
         (pw_buf : option pw_buffer) (effs : list Effect),
    process fuel st pw_buf = Some (st', effs) ->
    (total_beats st < 2 ^ 64)%N -> (total_onsets st < 2 ^ 64)%N ->
    exists evs,
      length evs <= length (analysed effs)
      /\ Forall beat_or_onset evs
      /\ same_ring st' (fold_left spsc_push evs st)
      /\ (spsc_wf st ->
          spsc_contents st' = lastn (kEventCap - 1) (spsc_contents st ++ evs))
      /\ length (List.filter is_signal effs) = (if event_src st then length evs else 0)
      /\ total_beats st'
         = wrap64 (total_beats st + N.of_nat (length (List.filter Event.is_beat evs)))
      /\ total_onsets st'
         = wrap64 (total_onsets st + N.of_nat (length (List.filter Event.is_onset evs)))
      /\ bpm st' = fold_left bpm_record (beat_bpms evs) (bpm st)
      /\ (bpm_wf (bpm st) ->
          bpm_window (bpm st')
          = lastn kBPMCapacity (bpm_window (bpm st) ++ beat_bpms evs))
      /\ last_bpm st' = List.last (map Event.bpm evs) (last_bpm st)
      /\ bpm_chain (last_bpm st) evs
      /\ (pitch_enabled st = false ->
          Forall (fun ev => Event.pitch_hz ev = F32.zero) evs)
      /\ Forall (fun ev => Event.process_ms ev = S754_zero false) evs
      /\ (quit st = true -> evs = [] /\ analysed effs = []).
Proof.
  intros E A fuel st st' pw_buf effs Hrun Hb Ho.
  apply process_cases in Hrun as (bl & pre & body & Hfold & -> & Hpre & Hquit).
  destruct (process_blocks_books bl st [] Hb Ho)
    as (evs & extra & Hlen & _ & Hring & Heff & Hblk & Hsig & Hbo & Htb & Hto & Hbpm
        & Hlast & Hch & Hp & Hms).
  pose proof (process_blocks_spec bl st []) as (_ & _ & Han & _).
  rewrite Hfold in *. cbn [fst snd app] in *. subst extra.
  change (analysed []) with (@nil (list F32.t)) in Han. cbn [app] in Han.
  assert (Han' : analysed (pre ++ body
                    ++ (if requeues st pw_buf then [PwStreamQueueBuffer] else []))
                 = bl).
  { rewrite !analysed_app, Han.
    destruct Hpre as [-> | (msg & -> & _)];
      destruct (requeues st pw_buf); cbn; rewrite ?app_nil_r; reflexivity. }
  assert (Hsig' : List.filter is_signal
                    (pre ++ body
                     ++ (if requeues st pw_buf then [PwStreamQueueBuffer] else []))
                  = List.filter is_signal body).
  { rewrite !List.filter_app.
    destruct Hpre as [-> | (msg & -> & _)];
      destruct (requeues st pw_buf); cbn; rewrite ?app_nil_r; reflexivity. }
  exists evs. rewrite Han', Hsig'.
  split; [exact Hlen|]. split; [exact Hbo|]. split; [exact Hring|].
  split.
  { intros Hwf. rewrite (same_ring_contents _ _ Hring).
    apply (spsc_push_all st evs Hwf). }
  split; [exact Hsig|]. split; [exact Htb|]. split; [exact Hto|].
  split; [exact Hbpm|].
  split.
  { intros Hwf. rewrite Hbpm. apply (bpm_record_from (bpm st) (beat_bpms evs) Hwf). }
  split; [exact Hlast|]. split; [exact Hch|]. split; [exact Hp|].
  split; [exact Hms|].
  intros Hq. specialize (Hquit Hq). subst bl.
  split; [|reflexivity]. destruct evs; [reflexivity | cbn in Hlen; lia].
Qed.

Lemma process_books_events_witness :
  let st := ready_detector false true in
  let pw_buf := Some (buffer_of (beat_block ++ replicate 512 F32.zero ++ beat_block) 4) in
  let st' := fst (default (st, []) (process 4 st pw_buf)) in
  let effs := snd (default (st, []) (process 4 st pw_buf)) in
  process 4 st pw_buf = Some (st', effs)
  /\ (total_beats st < 2 ^ 64)%N /\ (total_onsets st < 2 ^ 64)%N
  /\ exists evs,
      length evs <= length (analysed effs)
      /\ Forall beat_or_onset evs
      /\ same_ring st' (fold_left spsc_push evs st)
      /\ (spsc_wf st ->
          spsc_contents st' = lastn (kEventCap - 1) (spsc_contents st ++ evs))
      /\ length (List.filter is_signal effs) = (if event_src st then length evs else 0)
      /\ total_beats st'
         = wrap64 (total_beats st + N.of_nat (length (List.filter Event.is_beat evs)))
      /\ total_onsets st'
         = wrap64 (total_onsets st + N.of_nat (length (List.filter Event.is_onset evs)))
      /\ bpm st' = fold_left bpm_record (beat_bpms evs) (bpm st)
      /\ (bpm_wf (bpm st) ->
          bpm_window (bpm st')
          = lastn kBPMCapacity (bpm_window (bpm st) ++ beat_bpms evs))
      /\ last_bpm st' = List.last (map Event.bpm evs) (last_bpm st)
      /\ bpm_chain (last_bpm st) evs
      /\ (pitch_enabled st = false ->
          Forall (fun ev => Event.pitch_hz ev = F32.zero) evs)
      /\ Forall (fun ev => Event.process_ms ev = S754_zero false) evs
      /\ (quit st = true -> evs = [] /\ analysed effs = []).
Proof.
  intros st pw_buf st' effs.
  assert (H1 : process 4 st pw_buf = Some (st', effs)) by (vm_compute; reflexivity).
  assert (H2 : (total_beats st < 2 ^ 64)%N) by reflexivity.
  assert (H3 : (total_onsets st < 2 ^ 64)%N) by reflexivity.
  split; [exact H1|]. split; [exact H2|]. split; [exact H3|].
  exact (process_books_events nat ScriptedEngine 4 st st' pw_buf effs H1 H2 H3).
Defined.

(** X9. The lease of the real-time callback. A call that returns leaves
    the stream handle as it was and re-queues the buffer exactly when it
    got past the [quit] check, a buffer was dequeued and the stream is
    held; it then re-queues it once, as its very last action, after all the
    analysis of the call, on every way through the callback. *)
Theorem process_requeues_buffer :
  forall (E : Type) (A : AnalysisEngine E) (fuel : nat) (st st' : DetectorState E)
         (pw_buf : option pw_buffer) (effs : list Effect),
    process fuel st pw_buf = Some (st', effs) ->
    stream st' = stream st
    /\ List.filter is_queue_buffer effs
       = (if requeues st pw_buf then [PwStreamQueueBuffer] else [])
    /\ (requeues st pw_buf = true ->
        exists body,
          effs = body ++ [PwStreamQueueBuffer]
          /\ List.filter is_queue_buffer body = []
          /\ analysed body = analysed effs).
Proof.
  intros E A fuel st st' pw_buf effs Hrun.
  pose proof (process_spec fuel st pw_buf st' effs Hrun) as ((_ & _ & Hstream & _) & _).
  apply process_cases in Hrun as (bl & pre & body & Hfold & -> & Hpre & _).
  pose proof (process_blocks_effects bl st [] eq_refl) as Hblk.
  rewrite Hfold in Hblk. cbn [snd] in Hblk.
  assert (Hbody : List.filter is_queue_buffer (pre ++ body) = []).
  { rewrite List.filter_app, (block_effects_no_queue body Hblk).
    destruct Hpre as [-> | (msg & -> & _)]; reflexivity. }
  split; [exact Hstream|]. split.
  - rewrite app_assoc, List.filter_app, Hbody.
    destruct (requeues st pw_buf); reflexivity.
  - intros ->. exists (pre ++ body). rewrite app_assoc.
    split; [reflexivity|]. split; [exact Hbody|].
    symmetry. apply analysed_queue_buffer.
Qed.

Lemma process_requeues_buffer_witness :
  let st := ready_detector false false in
  let pw_buf := Some (buffer_of (beat_block ++ beat_block) 4) in
  let st' := fst (default (st, []) (process 3 st pw_buf)) in
  let effs := snd (default (st, []) (process 3 st pw_buf)) in
  process 3 st pw_buf = Some (st', effs)
  /\ stream st' = stream st
  /\ List.filter is_queue_buffer effs
     = (if requeues st pw_buf then [PwStreamQueueBuffer] else [])
  /\ (requeues st pw_buf = true ->
      exists body,
        effs = body ++ [PwStreamQueueBuffer]
        /\ List.filter is_queue_buffer body = []
        /\ analysed body = analysed effs).
Proof.
  intros st pw_buf st' effs.
  assert (H1 : process 3 st pw_buf = Some (st', effs)) by (vm_compute; reflexivity).
  split; [exact H1|].
  exact (process_requeues_buffer nat ScriptedEngine 3 st st' pw_buf effs H1).
Defined.

(** ** More about runs *)

Lemma filter_disjoint (p q : Effect -> bool) effs :
  (forall e, p e = true -> q e = false) ->
  forallb p effs = true -> List.filter q effs = [].
Proof.
  intros Hpq. induction effs as [|e effs IH]; [reflexivity|].
  cbn [forallb List.filter]. intros Hall. apply andb_prop in Hall as [He Hall].
  rewrite (Hpq e He). auto.
Qed.

Lemma existsb_disjoint (p q : Effect -> bool) effs :
  (forall e, p e = true -> q e = false) ->
  forallb p effs = true -> existsb q effs = false.
Proof.
  intros Hpq. induction effs as [|e effs IH]; [reflexivity|].
  cbn [forallb existsb]. intros Hall. apply andb_prop in Hall as [He Hall].
  rewrite (Hpq e He). auto.
Qed.

Lemma rt_not_deactivate e : is_rt_effect e = true -> is_deactivate e = false.
Proof. destruct e; try discriminate; reflexivity. Qed.

Lemma rt_not_loop_quit e : is_rt_effect e = true -> is_loop_quit e = false.
Proof. destruct e; try discriminate; reflexivity. Qed.

Lemma log_not_deactivate e : is_log_line e = true -> is_deactivate e = false.
Proof. destruct e; try discriminate; reflexivity. Qed.

Lemma log_not_loop_quit e : is_log_line e = true -> is_loop_quit e = false.
Proof. destruct e; try discriminate; reflexivity. Qed.

Lemma log_not_stream_call e : is_log_line e = true -> is_stream_call e = false.
Proof. destruct e; try discriminate; reflexivity. Qed.

Lemma log_not_signal e : is_log_line e = true -> is_signal e = false.
Proof. destruct e; try discriminate; reflexivity. Qed.

Lemma block_not_stream_call e : is_block_effect e = true -> is_stream_call e = false.
Proof. destruct e; try discriminate; reflexivity. Qed.

Lemma same_books_refl {E : Type} (st : DetectorState E) : same_books st st.
Proof. unfold same_books. repeat split. Qed.

Lemma same_books_trans {E : Type} (a b c : DetectorState E) :
  same_books a b -> same_books b c -> same_books a c.
Proof. unfold same_books. intuition congruence. Qed.

Lemma spsc_contents_drained {E : Type} (st : DetectorState E) :
  spsc_contents (set_ev_tail st (ev_head st)) = [].
Proof.
  unfold spsc_contents, spsc_size. fields.
  replace (ev_head st + kEventCap - ev_head st) with kEventCap by lia.
  rewrite Nat.Div0.mod_same. reflexivity.
Qed.

Section MoreLifecycle.

Context {E Time : Type} `{AnalysisEngine E} `{LogFormat Time}.
Implicit Types st : DetectorState E.
Implicit Types ops : list (Op Time).

(** The drain writes the tail index and nothing else. *)
Lemma drain_loop_only_tail fuel (clock : nat -> Time) : forall round st r,
  drain_loop fuel clock round st = Some r ->
  exists tail, drained_state r = set_ev_tail st tail.
Proof using Type.
  induction fuel as [|fuel IH]; intros round st r Hrun; [discriminate|].
  cbn [drain_loop] in Hrun. destruct (ev_tail st =? ev_head st).
  - injection Hrun as <-. exists (ev_tail st). cbn [drained_state].
    destruct st; reflexivity.
  - destruct (drain_loop fuel clock (S round) _) as [r1|] eqn:Hrec; [|discriminate].
    injection Hrun as <-. apply IH in Hrec as (tail & Htail).
    exists tail. cbn [drained_state]. rewrite Htail. reflexivity.
Qed.

(** What one operation does to the shutdown machinery. *)
Lemma step_shutdown fuel st (op : Op Time) st' effs :
  step fuel st op = Some (st', effs) ->
  quit st' = (quit st || is_stop op || (is_signal_op op && instance st))
  /\ instance st' = instance st
  /\ main_loop st' = main_loop st
  /\ quit_monitor st' = (quit_monitor st && negb (is_monitor op && quit st))
  /\ length (List.filter is_deactivate effs) = (if is_stop op && stream st then 1 else 0)
  /\ existsb is_loop_quit effs
     = (main_loop st
        && (is_error_notification op
            || (is_monitor op && quit_monitor st && quit st))).
Proof using Type.
  intros Hstep. destruct op; cbn [step] in Hstep;
    cbn [is_stop is_signal_op is_monitor is_error_notification andb orb negb].
  - unfold stop in Hstep. fields.
    destruct (stream st) eqn:Hs; injection Hstep as <- <-; fields;
      rewrite ?orb_true_r, ?andb_true_r, ?andb_false_r; repeat split.
  - injection Hstep as <- <-. unfold signalHandler.
    destruct (instance st) eqn:Hi; fields;
      rewrite ?Hi, ?orb_true_r, ?orb_false_r, ?andb_true_r, ?andb_false_r;
      repeat split.
  - unfold state_changed in Hstep. injection Hstep as <- <-.
    rewrite !orb_false_r, !andb_true_r.
    repeat split;
      destruct state; cbn; destruct (main_loop st), (stopping st), (stream st);
      reflexivity.
  - injection Hstep as <- <-. unfold destroy.
    rewrite !orb_false_r, !andb_true_r, andb_false_r.
    destruct (stream st); fields; repeat split.
  - apply process_spec in Hstep as ((Hq & _ & _ & Hm & Hi & Hqm & _) & _ & Hrt).
    rewrite (filter_disjoint _ _ _ rt_not_deactivate Hrt),
      (existsb_disjoint _ _ _ rt_not_loop_quit Hrt), Hq, Hm, Hi, Hqm,
      !orb_false_r, !andb_true_r, andb_false_r.
    repeat split.
  - destruct (drain fuel clock st) as [r|] eqn:Hd; [|discriminate].
    injection Hstep as <- <-.
    apply drain_loop_control in Hd as ((Hq & _ & _ & Hm & Hi & Hqm & _) & _ & _ & Hl).
    rewrite (filter_disjoint _ _ _ log_not_deactivate Hl),
      (existsb_disjoint _ _ _ log_not_loop_quit Hl), Hq, Hm, Hi, Hqm,
      !orb_false_r, !andb_true_r, andb_false_r.
    repeat split.
  - unfold quit_monitor_poll in Hstep. rewrite !orb_false_r.
    destruct (quit_monitor st) eqn:Hqm, (quit st) eqn:Hq, (main_loop st) eqn:Hm;
      injection Hstep as <- <-; fields; rewrite ?Hqm, ?Hq, ?Hm; repeat split.
Qed.

(** With [quit] set the real-time callback is a no-op, and no operation
    touches the books; only a drain changes what waits in the ring. *)
Lemma step_after_quit fuel st (op : Op Time) st' effs :
  step fuel st op = Some (st', effs) -> quit st = true ->
  same_books st st'
  /\ (is_process op = true -> effs = [])
  /\ (spsc_wf st ->
      spsc_contents st' = if is_drain op then [] else spsc_contents st).
Proof using Type.
  intros Hstep Hquit. destruct op; cbn [step] in Hstep; cbn [is_process is_drain].
  - unfold stop in Hstep. fields.
    destruct (stream st); injection Hstep as <- <-;
      (split; [unfold same_books; fields; repeat split|]); split; auto; discriminate.
  - injection Hstep as <- <-. unfold signalHandler.
    destruct (instance st);
      (split; [unfold same_books; fields; repeat split|]); split; auto; discriminate.
  - unfold state_changed in Hstep. injection Hstep as <- <-.
    split; [apply same_books_refl|]. split; auto; discriminate.
  - injection Hstep as <- <-. unfold destroy.
    destruct (stream st);
      (split; [unfold same_books; fields; repeat split|]); split; auto; discriminate.
  - unfold process in Hstep. rewrite Hquit in Hstep. injection Hstep as <- <-.
    split; [apply same_books_refl|]. split; auto.
  - destruct (drain fuel clock st) as [r|] eqn:Hd; [|discriminate].
    injection Hstep as <- <-. unfold drain in Hd. split.
    + apply drain_loop_only_tail in Hd as (tail & ->).
      unfold same_books. fields. repeat split.
    + split; [discriminate|]. intros Hwf.
      apply drain_loop_sound in Hd; [|assumption]. subst r.
      cbn [drained_state drain_result]. apply spsc_contents_drained.
  - unfold quit_monitor_poll in Hstep.
    destruct (quit_monitor st), (quit st), (main_loop st);
      injection Hstep as <- <-;
      (split; [unfold same_books; fields; repeat split|]); split; auto; discriminate.
Qed.

(** Without the stream handle no operation calls a guarded stream
    function, and [stop()] does not start a shutdown handshake. *)
Lemma step_without_stream fuel st (op : Op Time) st' effs :
  step fuel st op = Some (st', effs) -> stream st = false ->
  stream st' = false /\ stopping st' = stopping st
  /\ List.filter is_stream_call effs = [].
Proof using Type.
  intros Hstep Hs.
  pose proof (step_disconnect fuel st op st' effs Hstep) as (_ & Hstop & Hstream).
  rewrite Hs in Hstop, Hstream. rewrite andb_false_r, orb_false_r in Hstop.
  cbn [andb] in Hstream.
  split; [exact Hstream|]. split; [exact Hstop|].
  destruct op; cbn [step] in Hstep.
  - unfold stop in Hstep. fields. rewrite Hs in Hstep.
    injection Hstep as <- <-. reflexivity.
  - injection Hstep as <- <-. reflexivity.
  - unfold state_changed in Hstep. injection Hstep as <- <-. rewrite Hs.
    destruct state; cbn; destruct (main_loop st), (stopping st); reflexivity.
  - injection Hstep as <- <-. reflexivity.
  - apply process_cases in Hstep as (bl & pre & body & Hfold & -> & Hpre & _).
    pose proof (process_blocks_effects bl st [] eq_refl) as Hblk.
    rewrite Hfold in Hblk. cbn [snd] in Hblk.
    unfold requeues. rewrite Hs, andb_false_r, app_nil_r, List.filter_app.
    rewrite (filter_disjoint _ _ _ block_not_stream_call Hblk).
    destruct Hpre as [-> | (msg & -> & _)]; reflexivity.
  - destruct (drain fuel clock st) as [r|] eqn:Hd; [|discriminate].
    injection Hstep as <- <-.
    apply drain_loop_control in Hd as (_ & _ & _ & Hl).
    apply (filter_disjoint _ _ _ log_not_stream_call Hl).
  - unfold quit_monitor_poll in Hstep.
    destruct (quit_monitor st), (quit st), (main_loop st);
      injection Hstep as <- <-; reflexivity.
Qed.

(** A run over [pre ++ post] is a run over [pre] followed by one over
    [post]. *)
Lemma run_ops_app fuel : forall pre post st st' log,
  run_ops fuel st (pre ++ post) = Some (st', log) ->
  exists st1 log1 log2,
    run_ops fuel st pre = Some (st1, log1)
    /\ run_ops fuel st1 post = Some (st', log2)
    /\ log = log1 ++ log2.
Proof using Type.
  induction pre as [|op pre IH]; intros post st st' log Hrun.
  - exists st, [], log. auto.
  - cbn [app] in Hrun.
    apply run_ops_cons in Hrun as (st1 & effs & log1 & Hstep & Hrest & ->).
    apply IH in Hrest as (st2 & l1 & l2 & Hpre & Hpost & ->).
    exists st2, ((op, effs) :: l1), l2. cbn [run_ops]. rewrite Hstep, Hpre. auto.
Qed.

(** The log of a run has one entry for each operation, in order. *)
Lemma run_ops_log fuel : forall ops st st' log,
  run_ops fuel st ops = Some (st', log) -> map fst log = ops.
Proof using Type.
  induction ops as [|op ops IH]; intros st st' log Hrun.
  - injection Hrun as <- <-. reflexivity.
  - apply run_ops_cons in Hrun as (st1 & effs & log1 & Hstep & Hrest & ->).
    cbn [map fst]. f_equal. eapply IH, Hrest.
Qed.

Lemma run_ops_without_stream fuel : forall ops st st' log,
  run_ops fuel st ops = Some (st', log) -> stream st = false ->
  stream st' = false /\ stopping st' = stopping st
  /\ List.filter is_stream_call (effects_of log) = [].
Proof using Type.
  induction ops as [|op ops IH]; intros st st' log Hrun Hs.
  - injection Hrun as <- <-. auto.
  - apply run_ops_cons in Hrun as (st1 & effs & log1 & Hstep & Hrest & ->).
    destruct (step_without_stream _ _ _ _ _ Hstep Hs) as (Hs1 & Hst1 & Hcalls).
    destruct (IH _ _ _ Hrest Hs1) as (Hs' & Hst' & Hcalls').
    split; [exact Hs'|]. split; [congruence|].
    unfold effects_of in *. cbn [flat_map snd].
    rewrite List.filter_app, Hcalls, Hcalls'. reflexivity.
Qed.

End MoreLifecycle.

Lemma monitor_not_error {Time : Type} (op : Op Time) :
  is_monitor op = true -> is_error_notification op = false.
Proof. destruct op; try discriminate; reflexivity. Qed.

Lemma before_destroy_stop {Time : Type} (ops : list (Op Time)) :
  existsb is_stop (before_destroy ops) = true -> existsb is_stop ops = true.
Proof.
  induction ops as [|op ops IH]; [discriminate|].
  cbn [before_destroy existsb]. destruct (is_destroy op); [discriminate|].
  cbn [existsb]. destruct (is_stop op); [reflexivity|]. exact IH.
Qed.

Section MoreRuns.

Context {E Time : Type} `{AnalysisEngine E} `{LogFormat Time}.
Implicit Types st : DetectorState E.
Implicit Types ops : list (Op Time).

(** [quit] at the end of a run: it was set before, or [stop()] was called,
    or a signal arrived while the instance pointer was set. *)
Lemma run_ops_quit_exact fuel : forall ops st st' log,
  run_ops fuel st ops = Some (st', log) ->
  quit st' = (quit st || existsb is_stop ops || (instance st && existsb is_signal_op ops))
  /\ instance st' = instance st
  /\ main_loop st' = main_loop st.
Proof using Type.
  induction ops as [|op ops IH]; intros st st' log Hrun.
  - injection Hrun as <- <-. cbn [existsb]. rewrite andb_false_r, !orb_false_r. auto.
  - apply run_ops_cons in Hrun as (st1 & effs & log1 & Hstep & Hrest & ->).
    apply step_shutdown in Hstep as (Hq & Hi & Hm & _).
    apply IH in Hrest as (Hq' & Hi' & Hm').
    split; [|split; congruence].
    rewrite Hq', Hq, Hi. cbn [existsb].
    destruct (quit st), (is_stop op), (is_signal_op op), (instance st),
      (existsb is_stop ops), (existsb is_signal_op ops); reflexivity.
Qed.

(** [stopping] and the stream handle at the end of a run, and the
    deactivation requests made on the way. *)
Lemma run_ops_stopping_exact fuel : forall ops st st' log,
  run_ops fuel st ops = Some (st', log) ->
  stopping st' = (stopping st || (stream st && existsb is_stop (before_destroy ops)))
  /\ stream st' = (stream st && negb (existsb is_destroy ops))
  /\ length (List.filter is_deactivate (effects_of log))
     = (if stream st then length (List.filter is_stop (before_destroy ops)) else 0).
Proof using Type.
  induction ops as [|op ops IH]; intros st st' log Hrun.
  - injection Hrun as <- <-. cbn. rewrite andb_false_r, orb_false_r, andb_true_r.
    split; [reflexivity|]. split; [reflexivity|]. destruct (stream st); reflexivity.
  - apply run_ops_cons in Hrun as (st1 & effs & log1 & Hstep & Hrest & ->).
    pose proof (step_disconnect _ _ _ _ _ Hstep) as (_ & Hs & Hst).
    apply step_shutdown in Hstep as (_ & _ & _ & _ & Hde & _).
    apply IH in Hrest as (Hs' & Hst' & Hde').
    unfold effects_of in *. cbn [flat_map snd].
    rewrite List.filter_app, length_app, Hde, Hde', Hs', Hst', Hs, Hst.
    cbn [before_destroy existsb].
    destruct op; cbn [is_stop is_destroy existsb List.filter length andb orb negb];
      destruct (stopping st), (stream st); cbn [andb orb negb];
      rewrite ?orb_true_r, ?orb_false_r; auto.
Qed.

(** The monitor asks the mainloop to quit at most once: in the round in
    which it sees [quit], which is its last. *)
Lemma run_ops_monitor fuel : forall ops st st' log,
  run_ops fuel st ops = Some (st', log) ->
  monitor_quits log
  = (if main_loop st && quit_monitor st && negb (quit_monitor st') then 1 else 0)
  /\ (quit_monitor st' = true -> quit_monitor st = true)
  /\ (quit_monitor st = true -> quit_monitor st' = false -> quit st' = true)
  /\ (quit st = false -> existsb is_stop ops = false ->
      existsb is_signal_op ops = false ->
      quit_monitor st' = quit_monitor st).
Proof using Type.
  induction ops as [|op ops IH]; intros st st' log Hrun.
  - injection Hrun as <- <-. unfold monitor_quits. cbn [List.filter length].
    split; [destruct (main_loop st), (quit_monitor st); reflexivity|].
    split; [auto|]. split; [congruence | auto].
  - pose proof (run_ops_flags _ _ _ _ _ Hrun) as (Hmono & _).
    apply run_ops_cons in Hrun as (st1 & effs & log1 & Hstep & Hrest & ->).
    pose proof (step_flags _ _ _ _ _ Hstep) as (Hmono1 & _).
    pose proof (run_ops_flags _ _ _ _ _ Hrest) as (Hmono2 & _).
    apply step_shutdown in Hstep as (Hq & _ & Hm & Hqm & _ & Hlq).
    apply IH in Hrest as (Hcount & Hback & Hfired & Hnever).
    unfold monitor_quits in *. cbn [List.filter fst snd].
    rewrite Hlq. rewrite Hm, Hqm in Hcount. rewrite Hqm in Hback, Hfired.
    split; [|split; [|split]].
    + destruct (is_monitor op) eqn:Hmon;
        [rewrite (monitor_not_error op Hmon)|];
        destruct (main_loop st), (quit_monitor st), (quit st), (quit_monitor st');
        cbn [andb orb negb length] in *; try lia;
        try (specialize (Hback eq_refl); discriminate).
    + intros Hqm'. specialize (Hback Hqm').
      apply andb_prop in Hback as [Hback _]. exact Hback.
    + intros Hqm0 Hqm'. rewrite Hqm0 in Hfired. cbn [andb] in Hfired.
      destruct (is_monitor op && quit st) eqn:Hfire; cbn [negb] in Hfired.
      * apply andb_prop in Hfire as [_ Hquit]. auto.
      * auto.
    + cbn [existsb]. intros Hq0 Hstop Hsig.
      apply orb_false_elim in Hstop as [Hstop Hstop'].
      apply orb_false_elim in Hsig as [Hsig Hsig'].
      rewrite Hq0, Hstop, Hsig in Hq. cbn [andb orb] in Hq.
      rewrite (Hnever Hq Hstop' Hsig'), Hqm, Hq0, andb_false_r, andb_true_r.
      reflexivity.
Qed.

(** Where a request to quit the mainloop can come from. *)
Lemma run_ops_loop_quit fuel : forall ops st st' log,
  run_ops fuel st ops = Some (st', log) ->
  Forall (fun entry =>
            (existsb is_loop_quit (snd entry) = true ->
             is_error_notification (fst entry) = true \/ is_monitor (fst entry) = true)
            /\ (is_error_notification (fst entry) = true ->
                existsb is_loop_quit (snd entry) = main_loop st)) log.
Proof using Type.
  induction ops as [|op ops IH]; intros st st' log Hrun.
  - injection Hrun as <- <-. constructor.
  - apply run_ops_cons in Hrun as (st1 & effs & log1 & Hstep & Hrest & ->).
    apply step_shutdown in Hstep as (_ & _ & Hm & _ & _ & Hlq).
    apply IH in Hrest. rewrite Hm in Hrest.
    constructor; [|exact Hrest]. cbn [fst snd]. rewrite Hlq. split.
    + intros Hex. apply andb_prop in Hex as [_ Hex].
      apply orb_prop in Hex as [Hex | Hex]; [auto|].
      apply andb_prop in Hex as [Hex _]. apply andb_prop in Hex as [Hex _]. auto.
    + intros ->. cbn [orb]. apply andb_true_r.
Qed.

(** With [quit] set, a run leaves the books alone and every call of the
    real-time callback is empty. *)
Lemma run_ops_after_quit fuel : forall ops st st' log,
  run_ops fuel st ops = Some (st', log) -> quit st = true ->
  same_books st st'
  /\ Forall (fun entry => is_process (fst entry) = true -> snd entry = []) log
  /\ (spsc_wf st ->
      spsc_contents st' = if existsb is_drain ops then [] else spsc_contents st).
Proof using Type.
  induction ops as [|op ops IH]; intros st st' log Hrun Hquit.
  - injection Hrun as <- <-. split; [apply same_books_refl|]. split; [constructor | auto].
  - apply run_ops_cons in Hrun as (st1 & effs & log1 & Hstep & Hrest & ->).
    pose proof (step_flags _ _ _ _ _ Hstep) as (Hq1 & _).
    pose proof (fun Hwf => step_wf _ _ _ _ _ Hwf Hstep) as Hwf1.
    destruct (step_after_quit _ _ _ _ _ Hstep Hquit) as (Hbooks & Hproc & Hcont).
    destruct (IH _ _ _ Hrest (Hq1 Hquit)) as (Hbooks' & Hproc' & Hcont').
    split; [eapply same_books_trans; eassumption|].
    split; [constructor; [exact Hproc | exact Hproc']|].
    intros Hwf. rewrite (Hcont' (Hwf1 Hwf)), (Hcont Hwf). cbn [existsb].
    destruct (is_drain op), (existsb is_drain ops); reflexivity.
Qed.

End MoreRuns.

(** X10. Once [quit] is set, the real-time callback does nothing for the
    rest of the run. In a run that starts with [quit] set, [quit] stays
    set, every call of the callback returns at once with no effect at all
    (no analysis, no event, no wake-up, no buffer re-queued),
    and the engine, the totals, the BPM memory, the slots of the ring and
    its head are at the end what they were at the start; the events that
    waited in the ring are still there, unless a drain ran, which leaves it
    empty. *)
Theorem quit_silences_callback :
  forall (E Time : Type) (A : AnalysisEngine E) (F : LogFormat Time) (fuel : nat)
         (ops : list (Op Time)) (st st' : DetectorState E)
         (log : list (Op Time * list Effect)),
    run_ops fuel st ops = Some (st', log) -> quit st = true ->
    quit st' = true
    /\ same_books st st'
    /\ Forall (fun entry => is_process (fst entry) = true -> snd entry = []) log
    /\ (spsc_wf st ->
        spsc_contents st' = if existsb is_drain ops then [] else spsc_contents st).
Proof.
  intros E Time A F fuel ops st st' log Hrun Hquit.
  split; [exact (proj1 (run_ops_flags _ _ _ _ _ Hrun) Hquit)|].
  exact (run_ops_after_quit _ _ _ _ _ Hrun Hquit).
Qed.

Lemma quit_silences_callback_witness :
  let st := fst (stop (spsc_push (ready_detector false false) (numbered_event 7))) in
  let ops := [OpProcess (Some (buffer_of beat_block 4)); OpMonitor;
              OpProcess (Some (buffer_of beat_block 4))] in
  let r := default (st, []) (run_ops (Time := Z) 3 st ops) in
  run_ops 3 st ops = Some r /\ quit st = true
  /\ quit (fst r) = true
  /\ same_books st (fst r)
  /\ Forall (fun entry => is_process (fst entry) = true -> snd entry = []) (snd r)
  /\ (spsc_wf st ->
      spsc_contents (fst r) = if existsb is_drain ops then [] else spsc_contents st).
Proof.
  intros st ops r.
  assert (H1 : run_ops 3 st ops = Some (fst r, snd r)) by (vm_compute; reflexivity).
  assert (H2 : quit st = true) by reflexivity.
  split; [vm_compute; reflexivity|]. split; [exact H2|].
  exact (quit_silences_callback nat Z ScriptedEngine PlainFormat 3 ops st (fst r) (snd r)
           H1 H2).
Defined.

(** X11. After the [destroy] callback the guarded stream functions are
    never called. In a run in which [destroy] happens, the stream handle
    is given up for good, and no later operation calls
    [pw_stream_queue_buffer], [pw_stream_set_active] or
    [pw_stream_disconnect]: the lease of the real-time callback, [stop()]
    and the reaction to [Paused] each find the handle null.
    ([pw_stream_dequeue_buffer], which the callback calls on the handle
    before any check of it, is not one of the guarded functions.) *)
Theorem no_stream_call_after_destroy :
  forall (E Time : Type) (A : AnalysisEngine E) (F : LogFormat Time) (fuel : nat)
         (pre post : list (Op Time)) (st st' : DetectorState E)
         (log : list (Op Time * list Effect)),
    run_ops fuel st (pre ++ OpDestroy :: post) = Some (st', log) ->
    exists log1 log2,
      log = log1 ++ (OpDestroy, []) :: log2
      /\ map fst log1 = pre /\ map fst log2 = post
      /\ List.filter is_stream_call (effects_of log2) = []
      /\ stream st' = false.
Proof.
  intros E Time A F fuel pre post st st' log Hrun.
  apply run_ops_app in Hrun as (st1 & log1 & log2' & Hpre & Hpost & ->).
  apply run_ops_cons in Hpost as (st2 & effs & log2 & Hstep & Hrest & ->).
  cbn [step] in Hstep. injection Hstep as <- <-.
  assert (Hs : stream (destroy st1) = false).
  { unfold destroy. destruct (stream st1) eqn:Hs1; [reflexivity | exact Hs1]. }
  destruct (run_ops_without_stream _ _ _ _ _ Hrest Hs) as (Hs' & _ & Hcalls).
  exists log1, log2.
  split; [reflexivity|]. split; [eapply run_ops_log, Hpre|].
  split; [eapply run_ops_log, Hrest|]. split; assumption.
Qed.

Lemma no_stream_call_after_destroy_witness :
  let st := ready_detector false false in
  let pre := [OpProcess (Some (buffer_of beat_block 4))] in
  let post := [OpStop; OpStateChanged PW_STREAM_STATE_PAUSED None;
               OpProcess (Some (buffer_of beat_block 4))] in
  let r := default (st, []) (run_ops (Time := Z) 3 st (pre ++ OpDestroy :: post)) in
  run_ops 3 st (pre ++ OpDestroy :: post) = Some r
  /\ exists log1 log2,
      snd r = log1 ++ (OpDestroy, []) :: log2
      /\ map fst log1 = pre /\ map fst log2 = post
      /\ List.filter is_stream_call (effects_of log2) = []
      /\ stream (fst r) = false.
Proof.
  intros st pre post r.
  assert (H1 : run_ops 3 st (pre ++ OpDestroy :: post) = Some (fst r, snd r))
    by (vm_compute; reflexivity).
  split; [vm_compute; reflexivity|].
  exact (no_stream_call_after_destroy nat Z ScriptedEngine PlainFormat 3 pre post st
           (fst r) (snd r) H1).
Defined.

(** X12. Who asks the mainloop to quit. In a run, [pw_main_loop_quit] is
    called only in the reaction to an [Error] notification and by the
    monitor thread; every [Error] notification calls it (when the mainloop
    exists); the monitor calls it at most once in the whole run, namely in
    the round in which it sees [quit] set, after which it has ended; it
    never calls it in a run in which [quit] is not set at the start,
    [stop()] is not called and no signal arrives; and when, at the end of
    the run, [quit] is set and the monitor has not ended, its next round
    makes the call. *)
Theorem mainloop_quit_requests :
  forall (E Time : Type) (A : AnalysisEngine E) (F : LogFormat Time) (fuel : nat)
         (ops : list (Op Time)) (st st' : DetectorState E)
         (log : list (Op Time * list Effect)),
    run_ops fuel st ops = Some (st', log) ->
    Forall (fun entry =>
              (existsb is_loop_quit (snd entry) = true ->
               is_error_notification (fst entry) = true
               \/ is_monitor (fst entry) = true)
              /\ (is_error_notification (fst entry) = true ->
                  existsb is_loop_quit (snd entry) = main_loop st)) log
    /\ monitor_quits log
       = (if main_loop st && quit_monitor st && negb (quit_monitor st') then 1 else 0)
    /\ (quit_monitor st' = true -> quit_monitor st = true)
    /\ (quit_monitor st = true -> quit_monitor st' = false -> quit st' = true)
    /\ (quit st = false -> existsb is_stop ops = false ->
        existsb is_signal_op ops = false ->
        monitor_quits log = 0 /\ quit_monitor st' = quit_monitor st)
    /\ (quit st' = true -> quit_monitor st' = true ->
        snd (quit_monitor_poll st')
        = (if main_loop st then [PwMainLoopQuit] else [])
        /\ quit_monitor (fst (quit_monitor_poll st')) = false).
Proof.
  intros E Time A F fuel ops st st' log Hrun.
  destruct (run_ops_monitor _ _ _ _ _ Hrun) as (Hcount & Hback & Hfired & Hnever).
  destruct (run_ops_quit_exact _ _ _ _ _ Hrun) as (_ & _ & Hm).
  split; [exact (run_ops_loop_quit _ _ _ _ _ Hrun)|].
  split; [exact Hcount|]. split; [exact Hback|]. split; [exact Hfired|].
  split.
  - intros Hq Hstop Hsig. specialize (Hnever Hq Hstop Hsig).
    split; [|exact Hnever]. rewrite Hcount, Hnever.
    destruct (main_loop st), (quit_monitor st); reflexivity.
  - intros Hq Hqm. unfold quit_monitor_poll. rewrite Hq, Hqm, Hm. split; reflexivity.
Qed.

Lemma mainloop_quit_requests_witness :
  let st := ready_detector false false in
  let ops := [OpMonitor; OpStop; OpMonitor; OpMonitor;
              OpStateChanged PW_STREAM_STATE_ERROR None] in
  let r := default (st, []) (run_ops (Time := Z) 3 st ops) in
  run_ops 3 st ops = Some r
  /\ Forall (fun entry =>
              (existsb is_loop_quit (snd entry) = true ->
               is_error_notification (fst entry) = true
               \/ is_monitor (fst entry) = true)
              /\ (is_error_notification (fst entry) = true ->
                  existsb is_loop_quit (snd entry) = main_loop st)) (snd r)
  /\ monitor_quits (snd r)
     = (if main_loop st && quit_monitor st && negb (quit_monitor (fst r))
        then 1 else 0)
  /\ (quit_monitor (fst r) = true -> quit_monitor st = true)
  /\ (quit_monitor st = true -> quit_monitor (fst r) = false -> quit (fst r) = true)
  /\ (quit st = false -> existsb is_stop ops = false ->
      existsb is_signal_op ops = false ->
      monitor_quits (snd r) = 0 /\ quit_monitor (fst r) = quit_monitor st)
  /\ (quit (fst r) = true -> quit_monitor (fst r) = true ->
      snd (quit_monitor_poll (fst r))
      = (if main_loop st then [PwMainLoopQuit] else [])
      /\ quit_monitor (fst (quit_monitor_poll (fst r))) = false).
Proof.
  intros st ops r.
  assert (H1 : run_ops 3 st ops = Some (fst r, snd r)) by (vm_compute; reflexivity).
  split; [vm_compute; reflexivity|].
  exact (mainloop_quit_requests nat Z ScriptedEngine PlainFormat 3 ops st (fst r) (snd r)
           H1).
Defined.

(** X13. The shutdown flags at the end of a run, exactly. [quit] is set
    at the end iff it was set at the start, or [stop()] was called, or a
    signal arrived while the instance pointer was set. [stopping] is set
    at the end iff it was set at the start, or the stream was held at the
    start and [stop()] was called before the first [destroy]. The stream
    handle is held at the end iff it was held at the start and no
    [destroy] happened. [pw_stream_set_active(stream, false)] is called
    once for each [stop()] that comes before the first [destroy], when the
    stream was held at the start. And [stopping] is never set without
    [quit]: if that holds at the start, it holds at the end. *)
Theorem shutdown_flags_exact :
  forall (E Time : Type) (A : AnalysisEngine E) (F : LogFormat Time) (fuel : nat)
         (ops : list (Op Time)) (st st' : DetectorState E)
         (log : list (Op Time * list Effect)),
    run_ops fuel st ops = Some (st', log) ->
    quit st'
    = (quit st || existsb is_stop ops || (instance st && existsb is_signal_op ops))
    /\ stopping st'
       = (stopping st || (stream st && existsb is_stop (before_destroy ops)))
    /\ stream st' = (stream st && negb (existsb is_destroy ops))
    /\ length (List.filter is_deactivate (effects_of log))
       = (if stream st then length (List.filter is_stop (before_destroy ops)) else 0)
    /\ ((stopping st = true -> quit st = true) ->
        stopping st' = true -> quit st' = true).
Proof.
  intros E Time A F fuel ops st st' log Hrun.
  destruct (run_ops_quit_exact _ _ _ _ _ Hrun) as (Hq & _ & _).
  destruct (run_ops_stopping_exact _ _ _ _ _ Hrun) as (Hs & Hst & Hde).
  split; [exact Hq|]. split; [exact Hs|]. split; [exact Hst|]. split; [exact Hde|].
  intros Hinv Hs'. rewrite Hq. rewrite Hs in Hs'.
  apply orb_prop in Hs' as [Hs' | Hs'].
  - rewrite (Hinv Hs'). reflexivity.
  - apply andb_prop in Hs' as [_ Hstop].
    rewrite (before_destroy_stop _ Hstop), orb_true_r. reflexivity.
Qed.

Lemma shutdown_flags_exact_witness :
  let st := ready_detector false false in
  let ops := [OpProcess (Some (buffer_of beat_block 4)); OpStop; OpStop; OpDestroy;
              OpStop; OpSignal] in
  let r := default (st, []) (run_ops (Time := Z) 3 st ops) in
  run_ops 3 st ops = Some r
  /\ quit (fst r)
     = (quit st || existsb is_stop ops || (instance st && existsb is_signal_op ops))
  /\ stopping (fst r)
     = (stopping st || (stream st && existsb is_stop (before_destroy ops)))
  /\ stream (fst r) = (stream st && negb (existsb is_destroy ops))
  /\ length (List.filter is_deactivate (effects_of (snd r)))
     = (if stream st then length (List.filter is_stop (before_destroy ops)) else 0)
  /\ ((stopping st = true -> quit st = true) ->
      stopping (fst r) = true -> quit (fst r) = true).
Proof.
  intros st ops r.
  assert (H1 : run_ops 3 st ops = Some (fst r, snd r)) by (vm_compute; reflexivity).
  split; [vm_compute; reflexivity|].
  exact (shutdown_flags_exact nat Z ScriptedEngine PlainFormat 3 ops st (fst r) (snd r)
           H1).
Defined.

(** ** The event source *)

Section EventSource.

Context {E Time : Type} `{AnalysisEngine E} `{LogFormat Time}.
Implicit Types st : DetectorState E.

(** Without an event source a round of the block loop only analyses. *)
Lemma process_block_no_source st effs block :
  event_src st = false ->
  snd (process_block (st, effs) block) = effs ++ [AnalyseBlock block].
Proof using Type.
  intros Hsrc. unfold process_block.
  destruct (aubio_tempo_do (engine st) block) as [e1 tempo_out].
  destruct (aubio_onset_do e1 block) as [e2 onset_out].
  destruct (pitch_enabled st);
    [destruct (aubio_pitch_do e2 block) as [e3 pitch_out]|];
    destruct (F32.neqb tempo_out F32.zero);
    destruct (F32.neqb onset_out F32.zero);
    cbn [orb]; cbv zeta; cbn [snd]; try reflexivity;
    match goal with
    | |- context [event_src (spsc_push ?s ?ev)] =>
        destruct (spsc_push_same_control s ev) as (_ & _ & _ & _ & _ & _ & Hpush & _);
        rewrite Hpush; fields; rewrite Hsrc; reflexivity
    end.
Qed.

Lemma process_blocks_no_source : forall bl st effs,
  event_src st = false ->
  List.filter is_signal (snd (fold_left process_block bl (st, effs)))
  = List.filter is_signal effs.
Proof using Type.
  induction bl as [|block bl IH]; intros st effs Hsrc; [reflexivity|].
  cbn [fold_left].
  pose proof (process_block_no_source st effs block Hsrc) as Heffs.
  destruct (process_block_spec st effs block) as ((_ & _ & _ & _ & _ & _ & Hsrc1 & _) & _).
  destruct (process_block (st, effs) block) as [st1 effs1]. cbn [fst snd] in *.
  rewrite IH by congruence. rewrite Heffs, List.filter_app. cbn. apply app_nil_r.
Qed.

Lemma step_no_source fuel st (op : Op Time) st' effs :
  step fuel st op = Some (st', effs) -> event_src st = false ->
  event_src st' = false /\ List.filter is_signal effs = [].
Proof using Type.
  intros Hstep Hsrc. destruct op; cbn [step] in Hstep.
  - unfold stop in Hstep. fields.
    destruct (stream st); injection Hstep as <- <-; fields; auto.
  - injection Hstep as <- <-. unfold signalHandler.
    destruct (instance st); fields; auto.
  - unfold state_changed in Hstep. injection Hstep as <- <-. split; [exact Hsrc|].
    destruct state; cbn; destruct (main_loop st), (stopping st), (stream st);
      reflexivity.
  - injection Hstep as <- <-. unfold destroy. destruct (stream st); fields; auto.
  - pose proof (process_spec _ _ _ _ _ Hstep) as ((_ & _ & _ & _ & _ & _ & Hsrc' & _) & _).
    split; [congruence|].
    apply process_cases in Hstep as (bl & pre & body & Hfold & -> & Hpre & _).
    pose proof (process_blocks_no_source bl st [] Hsrc) as Hnone.
    rewrite Hfold in Hnone. cbn [snd List.filter] in Hnone.
    rewrite !List.filter_app, Hnone.
    destruct Hpre as [-> | (msg & -> & _)]; destruct (requeues st pw_buf); reflexivity.
  - destruct (drain fuel clock st) as [r|] eqn:Hd; [|discriminate].
    injection Hstep as <- <-.
    apply drain_loop_control in Hd as ((_ & _ & _ & _ & _ & _ & Hsrc' & _) & _ & _ & Hl).
    split; [congruence|]. apply (filter_disjoint _ _ _ log_not_signal Hl).
  - unfold quit_monitor_poll in Hstep.
    destruct (quit_monitor st), (quit st), (main_loop st);
      injection Hstep as <- <-; fields; auto.
Qed.

Lemma run_ops_no_source fuel : forall (ops : list (Op Time)) st st' log,
  run_ops fuel st ops = Some (st', log) -> event_src st = false ->
  event_src st' = false /\ List.filter is_signal (effects_of log) = [].
Proof using Type.
  induction ops as [|op ops IH]; intros st st' log Hrun Hsrc.
  - injection Hrun as <- <-. auto.
  - apply run_ops_cons in Hrun as (st1 & effs & log1 & Hstep & Hrest & ->).
    destruct (step_no_source _ _ _ _ _ Hstep Hsrc) as (Hsrc1 & Hnone).
    destruct (IH _ _ _ Hrest Hsrc1) as (Hsrc' & Hnone').
    split; [exact Hsrc'|]. unfold effects_of in *. cbn [flat_map snd].
    rewrite List.filter_app, Hnone, Hnone'. reflexivity.
Qed.

End EventSource.

(** X14. [initialize] and the event source. [initialize] succeeds exactly
    when the log file opens (if logging is on) and the mainloop, the tempo
    object, the vectors, the onset object, the pitch object (if pitch
    detection is on), the stream and its connection can all be made;
    whether [pw_loop_add_event] succeeds does not count. The state after a
    success has the event source iff [pw_loop_add_event] gave one, and
    when it gave none, no run from that state ever signals the mainloop:
    events are still pushed into the ring, but the drain is never woken
    up by the real-time callback. *)
Theorem initialize_ignores_event_source :
  forall (E Time : Type) (A : AnalysisEngine E) (F : LogFormat Time)
         (env : InitEnv Time) (st0 : DetectorState E),
    ((exists st, fst (initialize env st0) = Ok st)
     <-> ((log_enabled st0 = true -> log_opens env = true)
          /\ pw_main_loop_new_ok env = true
          /\ new_aubio_tempo_ok env = true
          /\ new_fvec_ok env = true
          /\ new_aubio_onset_ok env = true
          /\ (pitch_enabled st0 = true -> new_aubio_pitch_ok env = true)
          /\ pw_stream_new_simple_ok env = true
          /\ pw_stream_connect_ok env = true))
    /\ (forall st written,
          initialize env st0 = (Ok st, written) ->
          event_src st = pw_loop_add_event_ok env
          /\ (pw_loop_add_event_ok env = false ->
              forall fuel (ops : list (Op Time)) st' log,
                run_ops fuel st ops = Some (st', log) ->
                event_src st' = false
                /\ List.filter is_signal (effects_of log) = [])).
Proof.
  intros E Time A F env st0. split.
  - unfold initialize, initialize_resources.
    destruct (log_enabled st0), (log_opens env), (pw_main_loop_new_ok env),
      (new_aubio_tempo_ok env), (new_fvec_ok env), (new_aubio_onset_ok env),
      (pitch_enabled st0), (new_aubio_pitch_ok env), (pw_stream_new_simple_ok env),
      (pw_stream_connect_ok env); cbn;
      (split; [intros (st & Hst); try discriminate; repeat split; auto
              | intros (H1 & H2 & H3 & H4 & H5 & H6 & H7 & H8);
                try discriminate; try (discriminate (H1 eq_refl));
                try (discriminate (H6 eq_refl)); eauto]).
  - intros st written Hinit.
    assert (Hsrc : event_src st = pw_loop_add_event_ok env).
    { unfold initialize in Hinit.
      destruct (log_enabled st0 && negb (log_opens env)); [discriminate|].
      destruct (initialize_resources env (pitch_enabled st0)); [|discriminate].
      injection Hinit as <- _. reflexivity. }
    split; [exact Hsrc|].
    intros Hnone fuel ops st' log Hrun.
    apply (run_ops_no_source _ _ _ _ _ Hrun). congruence.
Qed.

(** ** From the callback to the log *)

Lemma spsc_contents_empty {E : Type} (st : DetectorState E) :
  spsc_wf st -> ev_tail st = ev_head st -> spsc_contents st = [].
Proof.
  intros Hwf Heq. apply (spsc_empty_iff st Hwf) in Heq.
  unfold spsc_contents. rewrite Heq. reflexivity.
Qed.

(** X15. From the real-time callback to the log. Let the ring be empty
    when the callback runs, and let the drain run after it. Then the drain
    returns, having read exactly the events the callback produced, in the
    order produced (the last 1023 of them, should there be more); it leaves
    the ring empty; and with the log enabled and open it writes one line
    for each of these events, in order, none being filtered out, since
    every event the callback produces is a beat or an onset; with the log
    off it writes nothing. The events are the ones the callback booked:
    their beats and onsets are what the totals went up by. *)
Theorem events_reach_the_log :
  forall (E Time : Type) (A : AnalysisEngine E) (F : LogFormat Time)
         (fuel fuel' : nat) (clock : nat -> Time) (st st1 : DetectorState E)
         (pw_buf : option pw_buffer) (effs : list Effect),
    process fuel st pw_buf = Some (st1, effs) ->
    spsc_wf st -> ev_tail st = ev_head st ->
    (total_beats st < 2 ^ 64)%N -> (total_onsets st < 2 ^ 64)%N ->
    kEventCap <= fuel' ->
    exists evs r,
      length evs <= length (analysed effs)
      /\ Forall beat_or_onset evs
      /\ total_beats st1
         = wrap64 (total_beats st + N.of_nat (length (List.filter Event.is_beat evs)))
      /\ total_onsets st1
         = wrap64 (total_onsets st + N.of_nat (length (List.filter Event.is_onset evs)))
      /\ drain fuel' clock st1 = Some r
      /\ drained_events r = lastn (kEventCap - 1) evs
      /\ ev_tail (drained_state r) = ev_head (drained_state r)
      /\ same_books st1 (drained_state r)
      /\ log_lines (drained_effects r)
         = (if log_enabled st && log_open st
            then imap (fun i ev => log_line (clock i) ev) (lastn (kEventCap - 1) evs)
            else []).
Proof.
  intros E Time A F fuel fuel' clock st st1 pw_buf effs Hrun Hwf Hempty Hb Ho Hfuel.
  pose proof (process_spec _ _ _ _ _ Hrun)
    as ((_ & _ & _ & _ & _ & _ & _ & Hle & Hlo & _) & Hwf1 & _).
  specialize (Hwf1 Hwf).
  apply process_cases in Hrun as (bl & pre & body & Hfold & -> & Hpre & _).
  destruct (process_blocks_books bl st [] Hb Ho)
    as (evs & extra & Hlen & _ & Hring & _ & _ & _ & Hbo & Htb & Hto & _).
  pose proof (process_blocks_spec bl st []) as (_ & _ & Han & _).
  rewrite Hfold in *. cbn [fst snd] in *.
  change (analysed []) with (@nil (list F32.t)) in Han. cbn [app] in Han.
  assert (Han' : analysed (pre ++ body
                    ++ (if requeues st pw_buf then [PwStreamQueueBuffer] else []))
                 = bl).
  { rewrite !analysed_app, Han.
    destruct Hpre as [-> | (msg & -> & _)];
      destruct (requeues st pw_buf); cbn; rewrite ?app_nil_r; reflexivity. }
  assert (Hcont : spsc_contents st1 = lastn (kEventCap - 1) evs).
  { rewrite (same_ring_contents _ _ Hring).
    rewrite (proj2 (spsc_push_all st evs Hwf)), (spsc_contents_empty st Hwf Hempty).
    reflexivity. }
  pose proof (spsc_size_bound st1 Hwf1) as Hsize.
  exists evs, (drain_result clock 0 st1).
  rewrite Han'.
  split; [exact Hlen|]. split; [exact Hbo|]. split; [exact Htb|]. split; [exact Hto|].
  split; [unfold drain; apply drain_loop_total; [exact Hwf1 | lia]|].
  cbn [drain_result drained_events drained_state drained_effects].
  split; [exact Hcont|]. split; [reflexivity|].
  split; [unfold same_books; fields; repeat split|].
  rewrite Hcont, Hle, Hlo.
  destruct (log_enabled st && log_open st).
  - rewrite drain_log_lines; [reflexivity|].
    unfold lastn. apply Forall_drop. exact Hbo.
  - rewrite drain_log_off. reflexivity.
Qed.

Lemma events_reach_the_log_witness :
  let st := ready_detector true true in
  let pw_buf := Some (buffer_of (beat_block ++ replicate 512 F32.zero ++ beat_block) 4) in
  let clock := fun i : nat => (45123 + 20 * Z.of_nat i)%Z in
  let st1 := fst (default (st, []) (process 4 st pw_buf)) in
  let effs := snd (default (st, []) (process 4 st pw_buf)) in
  process 4 st pw_buf = Some (st1, effs)
  /\ spsc_wf st /\ ev_tail st = ev_head st
  /\ (total_beats st < 2 ^ 64)%N /\ (total_onsets st < 2 ^ 64)%N
  /\ kEventCap <= 1024
  /\ exists evs r,
      length evs <= length (analysed effs)
      /\ Forall beat_or_onset evs
      /\ total_beats st1
         = wrap64 (total_beats st + N.of_nat (length (List.filter Event.is_beat evs)))
      /\ total_onsets st1
         = wrap64 (total_onsets st + N.of_nat (length (List.filter Event.is_onset evs)))
      /\ drain 1024 clock st1 = Some r
      /\ drained_events r = lastn (kEventCap - 1) evs
      /\ ev_tail (drained_state r) = ev_head (drained_state r)
      /\ same_books st1 (drained_state r)
      /\ log_lines (drained_effects r)
         = (if log_enabled st && log_open st
            then imap (fun i ev => log_line (clock i) ev) (lastn (kEventCap - 1) evs)
            else []).
Proof.
  intros st pw_buf clock st1 effs.
  assert (H1 : process 4 st pw_buf = Some (st1, effs)) by (vm_compute; reflexivity).
  assert (H2 : spsc_wf st) by (apply ready_detector_wf).
  assert (H3 : ev_tail st = ev_head st) by reflexivity.
  assert (H4 : (total_beats st < 2 ^ 64)%N) by reflexivity.
  assert (H5 : (total_onsets st < 2 ^ 64)%N) by reflexivity.
  assert (H6 : kEventCap <= 1024) by (unfold kEventCap; lia).
  split; [exact H1|]. split; [exact H2|]. split; [exact H3|]. split; [exact H4|].
  split; [exact H5|]. split; [exact H6|].
  exact (events_reach_the_log nat Z ScriptedEngine PlainFormat 4 1024 clock st st1
           pw_buf effs H1 H2 H3 H4 H5 H6).
Defined.

(** ** The three ways to make a view *)

Lemma spaStrideBytes_raw (memory : option (list F32.t)) (c : audio_blocks.spa_chunk) :
  (- 2 ^ 31 <= audio_blocks.chunk_stride c < 2 ^ 31)%Z ->
  audio_blocks.spaStrideBytes
    (Some {| audio_blocks.data := memory; audio_blocks.chunk := Some c |}) 4 = 4%N
  <-> (audio_blocks.chunk_stride c = 0 \/ audio_blocks.chunk_stride c = 4)%Z.
Proof.
  intros Hrange. unfold audio_blocks.spaStrideBytes.
  cbn [audio_blocks.chunk].
  set (s := audio_blocks.chunk_stride c) in *.
  assert (Hmod : (s mod 2 ^ 64 = if s <? 0 then s + 2 ^ 64 else s)%Z).
  { destruct (Z.ltb_spec s 0).
    - symmetry. apply Z.mod_unique with (q := (-1)%Z); lia.
    - apply Z.mod_small. lia. }
  rewrite Hmod.
  destruct (Z.ltb_spec s 0);
    match goal with
    | |- context [N.eqb ?a 0] => destruct (N.eqb_spec a 0) as [Hz|Hz]
    end; cbn [negb]; lia.
Qed.

(** X16. Which transport buffers give a view, in terms of the raw chunk.
    For a buffer with data and a chunk whose stride is an [int32]:
    [makeBufferViewFromSpaMonoF32] accepts it exactly when the block size
    is not zero, the stride is 4 or 0 (a stride of 0 stands for the
    default, [sizeof(float)]; a negative stride is refused) and the chunk
    size is a multiple of 4, and the view is then over the first
    [size / 4] floats with the given block size. Whenever the stride is
    fine the function agrees with [makeBufferViewFromBytes] on the same
    data and size, errors included, and on a size that is a multiple of 4
    that one agrees with [makeBufferViewFromSpan] on the floats. *)
Theorem spa_view_accepted_iff :
  forall (memory : list F32.t) (c : audio_blocks.spa_chunk) (block : N)
         (view : audio_blocks.BufferView),
    (- 2 ^ 31 <= audio_blocks.chunk_stride c < 2 ^ 31)%Z ->
    let spa := Some {| audio_blocks.data := Some memory;
                       audio_blocks.chunk := Some c |} in
    let size := audio_blocks.chunk_size c in
    let floats := take (N.to_nat (size / 4)) memory in
    (audio_blocks.makeBufferViewFromSpaMonoF32 spa block = Ok view
     <-> block <> 0%N
         /\ (audio_blocks.chunk_stride c = 0 \/ audio_blocks.chunk_stride c = 4)%Z
         /\ (size mod 4 = 0)%N
         /\ view = audio_blocks.mkBufferView floats block)
    /\ ((audio_blocks.chunk_stride c = 0 \/ audio_blocks.chunk_stride c = 4)%Z ->
        audio_blocks.makeBufferViewFromSpaMonoF32 spa block
        = audio_blocks.makeBufferViewFromBytes (Some memory) size block)
    /\ ((size mod 4 = 0)%N ->
        audio_blocks.makeBufferViewFromBytes (Some memory) size block
        = makeBufferViewFromSpan floats block).
Proof.
  intros memory c block view Hrange spa size floats.
  pose proof (spaStrideBytes_raw (Some memory) c Hrange) as Hstride.
  unfold audio_blocks.makeBufferViewFromSpaMonoF32, audio_blocks.makeBufferViewFromBytes,
    makeBufferViewFromSpan, audio_blocks.sizeof_float.
  subst spa. cbn [audio_blocks.spaDataPtr audio_blocks.spaSizeBytes audio_blocks.data
                  audio_blocks.chunk].
  fold size. fold floats.
  destruct (N.eqb_spec block 0) as [Hb|Hb].
  { split; [|split; reflexivity || (intros; reflexivity)].
    split; [discriminate | intros (Hne & _); contradiction]. }
  destruct (N.eqb_spec (audio_blocks.spaStrideBytes
                          (Some {| audio_blocks.data := Some memory;
                                   audio_blocks.chunk := Some c |}) 4) 4) as [Hs|Hs];
    cbn [negb].
  - destruct (N.eqb_spec (size mod 4) 0) as [Hm|Hm]; cbn [negb].
    + split; [|split; intros; reflexivity].
      split.
      * intros [= <-]. repeat split; try assumption. apply Hstride, Hs.
      * intros (_ & _ & _ & ->). reflexivity.
    + split; [|split; [intros; reflexivity | intros; contradiction]].
      split; [discriminate | intros (_ & _ & Hm' & _); contradiction].
  - assert (Hno : ~ (audio_blocks.chunk_stride c = 0 \/ audio_blocks.chunk_stride c = 4)%Z)
      by (intros Hc; apply Hs, Hstride, Hc).
    split; [|split; [intros; contradiction|]].
    + split; [discriminate | intros (_ & Hc & _); contradiction].
    + intros Hm. destruct (N.eqb_spec (size mod 4) 0); [reflexivity | contradiction].
Qed.

Lemma spa_view_accepted_iff_witness :
  let memory := map F32.of_nat [1; 2; 3; 4] in
  let c := {| audio_blocks.chunk_size := 12; audio_blocks.chunk_stride := 0 |} in
  let view := audio_blocks.mkBufferView (map F32.of_nat [1; 2; 3]) 2 in
  let spa := Some {| audio_blocks.data := Some memory;
                     audio_blocks.chunk := Some c |} in
  let size := audio_blocks.chunk_size c in
  let floats := take (N.to_nat (size / 4)) memory in
  (- 2 ^ 31 <= audio_blocks.chunk_stride c < 2 ^ 31)%Z
  /\ (audio_blocks.makeBufferViewFromSpaMonoF32 spa 2 = Ok view
      <-> 2%N <> 0%N
          /\ (audio_blocks.chunk_stride c = 0 \/ audio_blocks.chunk_stride c = 4)%Z
          /\ (size mod 4 = 0)%N
          /\ view = audio_blocks.mkBufferView floats 2)
  /\ ((audio_blocks.chunk_stride c = 0 \/ audio_blocks.chunk_stride c = 4)%Z ->
      audio_blocks.makeBufferViewFromSpaMonoF32 spa 2
      = audio_blocks.makeBufferViewFromBytes (Some memory) size 2)
  /\ ((size mod 4 = 0)%N ->
      audio_blocks.makeBufferViewFromBytes (Some memory) size 2
      = makeBufferViewFromSpan floats 2).
Proof.
  intros memory c view spa size floats.
  assert (H1 : (- 2 ^ 31 <= audio_blocks.chunk_stride c < 2 ^ 31)%Z)
    by (cbn; lia).
  split; [exact H1|].
  exact (spa_view_accepted_iff memory c 2%N view H1).
Defined.

(** ** A signal before [run()] *)

(** X17. A signal that arrives before [run()] is lost, and takes the
    monitor with it. Let a signal arrive while the instance pointer is
    set and the monitor is alive, let the monitor take a round, and let
    [run()] then open a run. The monitor has ended; if the mainloop
    exists, [run()] has cleared [quit] again; and in the run that follows,
    whatever happens, the monitor never asks the mainloop to quit: a later
    signal or [stop()] still sets [quit], but [pw_main_loop_quit] is called
    only in the reaction to an [Error] notification. *)
Theorem signal_before_run_ends_monitor :
  forall (E Time : Type) (A : AnalysisEngine E) (F : LogFormat Time) (fuel : nat)
         (ops : list (Op Time)) (s st' : DetectorState E)
         (log : list (Op Time * list Effect)),
    instance s = true -> quit_monitor s = true ->
    let st := run_enter (fst (quit_monitor_poll (signalHandler s))) in
    run_ops fuel st ops = Some (st', log) ->
    snd (quit_monitor_poll (signalHandler s))
    = (if main_loop s then [PwMainLoopQuit] else [])
    /\ quit_monitor st = false
    /\ quit st = negb (main_loop s)
    /\ monitor_quits log = 0
    /\ Forall (fun entry =>
                 existsb is_loop_quit (snd entry) = true ->
                 is_error_notification (fst entry) = true) log
    /\ quit st'
       = (quit st || existsb is_stop ops || (instance s && existsb is_signal_op ops)).
Proof.
  intros E Time A F fuel ops s st' log Hi Hqm st Hrun.
  assert (Hst : snd (quit_monitor_poll (signalHandler s))
                = (if main_loop s then [PwMainLoopQuit] else [])
                /\ quit_monitor st = false /\ quit st = negb (main_loop s)
                /\ instance st = instance s).
  { subst st. unfold run_enter, quit_monitor_poll, signalHandler.
    rewrite Hi. fields. rewrite Hqm. fields.
    destruct (main_loop s) eqn:Hm; fields; rewrite ?Hm; repeat split; exact Hi. }
  destruct Hst as (Hpoll & Hqm2 & Hq2 & Hi2).
  destruct (run_ops_monitor _ _ _ _ _ Hrun) as (Hcount & _).
  rewrite Hqm2, andb_false_r in Hcount. cbn [andb] in Hcount.
  destruct (run_ops_quit_exact _ _ _ _ _ Hrun) as (Hq & _ & _).
  rewrite Hi2 in Hq.
  split; [exact Hpoll|]. split; [exact Hqm2|]. split; [exact Hq2|].
  split; [exact Hcount|]. split; [|exact Hq].
  pose proof (run_ops_loop_quit _ _ _ _ _ Hrun) as Hprov.
  apply List.Forall_forall. intros entry Hin Hex.
  rewrite List.Forall_forall in Hprov. destruct (Hprov entry Hin) as (Hfrom & _).
  destruct (Hfrom Hex) as [Herr | Hmon]; [exact Herr|]. exfalso.
  unfold monitor_quits in Hcount. apply length_zero_iff_nil in Hcount.
  assert (Hf : In entry (List.filter
                 (fun entry => is_monitor (fst entry) && existsb is_loop_quit (snd entry))
                 log)).
  { apply filter_In. split; [exact Hin|]. rewrite Hmon, Hex. reflexivity. }
  rewrite Hcount in Hf. destruct Hf.
Qed.

Lemma signal_before_run_ends_monitor_witness :
  let s := ready_detector false false in
  let ops := [OpProcess (Some (buffer_of beat_block 4)); OpSignal; OpMonitor;
              OpStop; OpMonitor] in
  let st := run_enter (fst (quit_monitor_poll (signalHandler s))) in
  let r := default (st, []) (run_ops (Time := Z) 3 st ops) in
  instance s = true /\ quit_monitor s = true
  /\ run_ops 3 st ops = Some r
  /\ snd (quit_monitor_poll (signalHandler s))
     = (if main_loop s then [PwMainLoopQuit] else [])
  /\ quit_monitor st = false
  /\ quit st = negb (main_loop s)
  /\ monitor_quits (snd r) = 0
  /\ Forall (fun entry =>
               existsb is_loop_quit (snd entry) = true ->
               is_error_notification (fst entry) = true) (snd r)
  /\ quit (fst r)
     = (quit st || existsb is_stop ops || (instance s && existsb is_signal_op ops)).
Proof.
  intros s ops st r.
  assert (H1 : instance s = true) by reflexivity.
  assert (H2 : quit_monitor s = true) by reflexivity.
  assert (H3 : run_ops 3 st ops = Some (fst r, snd r)) by (vm_compute; reflexivity).
  split; [exact H1|]. split; [exact H2|]. split; [vm_compute; reflexivity|].
  exact (signal_before_run_ends_monitor nat Z ScriptedEngine PlainFormat 3 ops s
           (fst r) (snd r) H1 H2 H3).
Defined.

(** * Part IV: the ring indices and the log lines, over whole callbacks *)

(** ** The indices of the ring *)

Section Indices.

Context {E : Type}.
Implicit Types st : DetectorState E.

(** One push: the head moves by one, the tail moves by one exactly on a
    full ring, and one more event waits unless the ring was full. *)
Lemma spsc_push_step st ev :
  spsc_wf st ->
  spsc_wf (spsc_push st ev)
  /\ ev_head (spsc_push st ev) = (ev_head st + 1) mod kEventCap
  /\ ev_tail (spsc_push st ev)
     = (if spsc_size st =? kEventCap - 1
        then (ev_tail st + 1) mod kEventCap else ev_tail st)
  /\ spsc_contents (spsc_push st ev)
     = (if spsc_size st =? kEventCap - 1
        then tail (spsc_contents st) else spsc_contents st) ++ [ev]
  /\ spsc_size (spsc_push st ev) = Nat.min (spsc_size st + 1) (kEventCap - 1).
Proof using Type.
  intros Hwf.
  split; [apply spsc_push_wf; assumption|].
  split; [apply spsc_push_head|].
  pose proof (spsc_contents_push st ev Hwf) as Hcont.
  split; [|split; [exact Hcont|]].
  - rewrite spsc_push_tail. pose proof (spsc_full_iff st Hwf) as Hfull.
    destruct (Nat.eqb_spec ((ev_head st + 1) mod kEventCap) (ev_tail st)) as [Hf|Hnf];
      destruct (Nat.eqb_spec (spsc_size st) (kEventCap - 1)) as [Hs|Hns];
      try reflexivity; exfalso; tauto.
  - apply (f_equal length) in Hcont.
    rewrite length_app, spsc_size_contents in Hcont. cbn [length] in Hcont.
    pose proof (spsc_size_bound st Hwf) as Hb.
    pose proof (spsc_size_contents st) as Hlen.
    destruct (Nat.eqb_spec (spsc_size st) (kEventCap - 1)) as [Hs|Hns].
    + destruct (spsc_contents st) as [|e0 c0]; cbn [tail length] in *;
        unfold kEventCap in *; lia.
    + lia.
Qed.

(** The pushes of a whole callback: the head moves by their number, the
    tail by the number of events that did not fit. *)
Lemma spsc_push_all_indices evs : forall st,
  spsc_wf st ->
  let st' := fold_left spsc_push evs st in
  ev_head st' = (ev_head st + length evs) mod kEventCap
  /\ ev_tail st'
     = (ev_tail st
        + (spsc_size st + length evs
           - Nat.min (spsc_size st + length evs) (kEventCap - 1))) mod kEventCap
  /\ spsc_size st' = Nat.min (spsc_size st + length evs) (kEventCap - 1).
Proof using Type.
  induction evs as [|ev evs IH]; intros st Hwf; cbv zeta.
  - cbn [fold_left length]. pose proof (spsc_size_bound st Hwf) as Hb.
    destruct Hwf as (_ & Hh & Ht).
    replace (spsc_size st + 0 - Nat.min (spsc_size st + 0) (kEventCap - 1)) with 0 by lia.
    rewrite !Nat.add_0_r, !Nat.mod_small by assumption. split; [reflexivity|].
    split; [reflexivity | lia].
  - cbn [fold_left length].
    destruct (spsc_push_step st ev Hwf) as (Hwf1 & Hh1 & Ht1 & _ & Hs1).
    destruct (IH _ Hwf1) as (Hh & Ht & Hs). cbv zeta in Hh, Ht, Hs.
    pose proof (spsc_size_bound st Hwf) as Hb.
    rewrite Hh, Ht, Hs, Hh1, Ht1, Hs1.
    split; [rewrite Nat.Div0.add_mod_idemp_l; f_equal; lia|].
    split; [|lia].
    destruct (Nat.eqb_spec (spsc_size st) (kEventCap - 1)) as [Hfull|Hroom].
    + rewrite Nat.Div0.add_mod_idemp_l. f_equal. lia.
    + f_equal. lia.
Qed.

(** The tail is [spsc_size] slots behind the head. *)
Lemma spsc_tail_plus_size st :
  spsc_wf st -> (ev_tail st + spsc_size st) mod kEventCap = ev_head st.
Proof using Type.
  intros Hwf. rewrite spsc_size_cases by assumption. destruct Hwf as (_ & Hh & Ht).
  destruct (Nat.leb_spec (ev_tail st) (ev_head st)).
  - replace (ev_tail st + (ev_head st - ev_tail st)) with (ev_head st) by lia.
    apply Nat.mod_small. assumption.
  - replace (ev_tail st + (ev_head st + kEventCap - ev_tail st))
      with (ev_head st + 1 * kEventCap) by lia.
    rewrite Nat.Div0.mod_add. apply Nat.mod_small. assumption.
Qed.

End Indices.

Section CallbackRing.

Context {E : Type} `{AnalysisEngine E}.
Implicit Types st : DetectorState E.

(** The ring after the loop over the blocks is the ring before with some
    events pushed, at most one for each block. *)
Lemma process_blocks_ring : forall bl st effs,
  let r := fold_left process_block bl (st, effs) in
  exists evs, length evs <= length bl /\ same_ring (fst r) (fold_left spsc_push evs st).
Proof using Type.
  induction bl as [|block bl IH]; intros st effs.
  - exists []. split; [reflexivity | apply same_ring_refl].
  - cbn [fold_left]. cbv zeta.
    destruct (process_block_spec st effs block) as (_ & _ & _ & Hring).
    destruct (process_block (st, effs) block) as [st1 effs1]. cbn [fst] in Hring.
    destruct (IH st1 effs1) as (evs2 & Hlen2 & Hring2). cbv zeta in Hring2.
    destruct Hring as [(Hh & Ht & He) | (ev & _ & Hh & Ht & He & _)].
    + exists evs2. split; [cbn [length]; lia|].
      eapply same_ring_trans; [exact Hring2|].
      apply same_ring_push_all. repeat split; assumption.
    + exists (ev :: evs2). split; [cbn [length]; lia|]. cbn [fold_left].
      eapply same_ring_trans; [exact Hring2|].
      apply same_ring_push_all. repeat split; assumption.
Qed.

Lemma process_ring fuel st pw_buf st' effs :
  process fuel st pw_buf = Some (st', effs) ->
  exists evs,
    length evs <= length (analysed effs) /\ same_ring st' (fold_left spsc_push evs st).
Proof using Type.
  intros Hrun.
  apply process_cases in Hrun as (bl & pre & body & Hfold & -> & Hpre & _).
  destruct (process_blocks_ring bl st []) as (evs & Hlen & Hring).
  pose proof (process_blocks_spec bl st []) as (_ & _ & Han & _).
  rewrite Hfold in *. cbn [fst snd] in *.
  change (analysed []) with (@nil (list F32.t)) in Han. cbn [app] in Han.
  exists evs. split; [|exact Hring].
  rewrite !analysed_app, Han, length_app, length_app. lia.
Qed.

End CallbackRing.

(** C2 (amended). In a run in which a push and a drain do not overlap --
    each callback has finished before the other one starts, which is what
    a sequence of operations is -- and on a well-formed ring (both indices
    below [kEventCap]), every operation keeps both indices below
    [kEventCap] and never more than [kEventCap - 1] events waiting. The
    head moves in the real-time callback only. The tail moves in the drain
    callback, which takes it up to the head and leaves the slots alone,
    and in the real-time callback, and nowhere else. A call of the
    real-time callback pushes some events, at most one for each block it
    analysed: the ring is the old ring with these pushed, the head has
    moved by their number modulo [kEventCap], and the tail has moved by
    exactly the number of events that did not fit, so not at all unless
    the ring became full. One push moves the head by one and, on a full
    ring only, the tail by one, which drops the oldest waiting event. The
    callback around the pushes returns: a push never blocks or fails. *)
Theorem spsc_index_discipline :
  forall (E Time : Type) (A : AnalysisEngine E) (F : LogFormat Time) (fuel : nat)
         (st st' : DetectorState E) (op : Op Time) (effs : list Effect),
    spsc_wf st -> step fuel st op = Some (st', effs) ->
    spsc_wf st'
    /\ spsc_size st' <= kEventCap - 1
    /\ ((forall pw_buf, op <> OpProcess pw_buf) -> ev_head st' = ev_head st)
    /\ ((forall pw_buf, op <> OpProcess pw_buf) -> (forall clock, op <> OpDrain clock) ->
        ev_tail st' = ev_tail st)
    /\ (is_drain op = true ->
        ev_head st' = ev_head st /\ events st' = events st
        /\ ev_tail st' = (ev_tail st + spsc_size st) mod kEventCap
        /\ spsc_size st' = 0)
    /\ (is_process op = true ->
        exists evs,
          length evs <= length (analysed effs)
          /\ same_ring st' (fold_left spsc_push evs st)
          /\ ev_head st' = (ev_head st + length evs) mod kEventCap
          /\ ev_tail st'
             = (ev_tail st
                + (spsc_size st + length evs
                   - Nat.min (spsc_size st + length evs) (kEventCap - 1)))
               mod kEventCap
          /\ spsc_size st' = Nat.min (spsc_size st + length evs) (kEventCap - 1)
          /\ (spsc_size st + length evs <= kEventCap - 1 -> ev_tail st' = ev_tail st))
    /\ (forall ev,
          spsc_wf (spsc_push st ev)
          /\ ev_head (spsc_push st ev) = (ev_head st + 1) mod kEventCap
          /\ ev_tail (spsc_push st ev)
             = (if spsc_size st =? kEventCap - 1
                then (ev_tail st + 1) mod kEventCap else ev_tail st)
          /\ spsc_contents (spsc_push st ev)
             = (if spsc_size st =? kEventCap - 1
                then tail (spsc_contents st) else spsc_contents st) ++ [ev]
          /\ spsc_size (spsc_push st ev) = Nat.min (spsc_size st + 1) (kEventCap - 1))
    /\ (forall pw_buf,
          (forall pb spa c,
              pw_buf = Some pb -> buffer pb = Some spa ->
              audio_blocks.chunk spa = Some c ->
              (audio_blocks.chunk_size c < 2 ^ 64)%N
              /\ N.to_nat (audio_blocks.chunk_size c / 4) < fuel) ->
          exists st1 effs1, process fuel st pw_buf = Some (st1, effs1)).
Proof.
  intros E Time A F fuel st st' op effs Hwf Hstep.
  pose proof (step_wf _ _ _ _ _ Hwf Hstep) as Hwf'.
  pose proof (spsc_size_bound st' Hwf') as Hbound.
  destruct (step_indices _ _ _ _ _ Hstep) as (Hhead & Htail).
  split; [exact Hwf'|]. split; [lia|]. split; [exact Hhead|]. split; [exact Htail|].
  split; [|split; [|split]].
  - destruct op; try discriminate. intros _. cbn [step] in Hstep.
    destruct (drain fuel clock st) as [r|] eqn:Hd; [|discriminate].
    injection Hstep as <- <-. unfold drain in Hd.
    apply drain_loop_sound in Hd; [|assumption]. subst r.
    cbn [drain_result drained_state]. fields.
    split; [reflexivity|]. split; [reflexivity|].
    split; [symmetry; apply spsc_tail_plus_size; assumption|].
    unfold spsc_size. fields.
    replace (ev_head st + kEventCap - ev_head st) with kEventCap by lia.
    apply Nat.Div0.mod_same.
  - destruct op; try discriminate. intros _. cbn [step] in Hstep.
    apply process_ring in Hstep as (evs & Hlen & Hring).
    destruct (spsc_push_all_indices evs st Hwf) as (Hh & Ht & Hs). cbv zeta in Hh, Ht, Hs.
    pose proof Hring as (He' & Hh' & Ht').
    assert (Hsize : spsc_size st' = spsc_size (fold_left spsc_push evs st))
      by (unfold spsc_size; rewrite Hh', Ht'; reflexivity).
    exists evs. split; [exact Hlen|]. split; [exact Hring|].
    split; [congruence|]. split; [congruence|]. split; [congruence|].
    intros Hfits. rewrite Ht', Ht.
    replace (spsc_size st + length evs
             - Nat.min (spsc_size st + length evs) (kEventCap - 1)) with 0 by lia.
    rewrite Nat.add_0_r. apply Nat.mod_small. apply Hwf.
  - intros ev. apply spsc_push_step. exact Hwf.
  - intros pw_buf. apply process_returns.
Qed.

Lemma spsc_index_discipline_witness :
  let st := fold_left spsc_push (map numbered_event (seq 0 (kEventCap - 1)))
              (ready_detector false false) in
  let op := @OpProcess Z (Some (buffer_of beat_block 4)) in
  let r := default (st, []) (step 2 st op) in
  let st' := fst r in
  let effs := snd r in
  spsc_wf st /\ step 2 st op = Some (st', effs)
  /\ (ev_head st = 1023 /\ ev_tail st = 0 /\ ev_head st' = 0 /\ ev_tail st' = 1)
  /\ spsc_wf st'
  /\ spsc_size st' <= kEventCap - 1
  /\ ((forall pw_buf, op <> OpProcess pw_buf) -> ev_head st' = ev_head st)
  /\ ((forall pw_buf, op <> OpProcess pw_buf) -> (forall clock, op <> OpDrain clock) ->
      ev_tail st' = ev_tail st)
  /\ (is_drain op = true ->
      ev_head st' = ev_head st /\ events st' = events st
      /\ ev_tail st' = (ev_tail st + spsc_size st) mod kEventCap
      /\ spsc_size st' = 0)
  /\ (is_process op = true ->
      exists evs,
        length evs <= length (analysed effs)
        /\ same_ring st' (fold_left spsc_push evs st)
        /\ ev_head st' = (ev_head st + length evs) mod kEventCap
        /\ ev_tail st'
           = (ev_tail st
              + (spsc_size st + length evs
                 - Nat.min (spsc_size st + length evs) (kEventCap - 1)))
             mod kEventCap
        /\ spsc_size st' = Nat.min (spsc_size st + length evs) (kEventCap - 1)
        /\ (spsc_size st + length evs <= kEventCap - 1 -> ev_tail st' = ev_tail st))
  /\ (forall ev,
        spsc_wf (spsc_push st ev)
        /\ ev_head (spsc_push st ev) = (ev_head st + 1) mod kEventCap
        /\ ev_tail (spsc_push st ev)
           = (if spsc_size st =? kEventCap - 1
              then (ev_tail st + 1) mod kEventCap else ev_tail st)
        /\ spsc_contents (spsc_push st ev)
           = (if spsc_size st =? kEventCap - 1
              then tail (spsc_contents st) else spsc_contents st) ++ [ev]
        /\ spsc_size (spsc_push st ev) = Nat.min (spsc_size st + 1) (kEventCap - 1))
  /\ (forall pw_buf,
        (forall pb spa c,
            pw_buf = Some pb -> buffer pb = Some spa ->
            audio_blocks.chunk spa = Some c ->
            (audio_blocks.chunk_size c < 2 ^ 64)%N
            /\ N.to_nat (audio_blocks.chunk_size c / 4) < 2) ->
        exists st1 effs1, process 2 st pw_buf = Some (st1, effs1)).
Proof.
  intros st op r st' effs.
  assert (H1 : spsc_wf st)
    by exact (proj1 (spsc_push_all (ready_detector false false)
                       (map numbered_event (seq 0 (kEventCap - 1)))
                       (ready_detector_wf false false))).
  assert (H2 : step 2 st op = Some (st', effs)) by (vm_compute; reflexivity).
  split; [exact H1|]. split; [exact H2|].
  split; [repeat split; vm_compute; reflexivity|].
  exact (spsc_index_discipline nat Z ScriptedEngine PlainFormat 2 st st' op effs H1 H2).
Defined.

(** ** The conversions of the log line *)

Lemma string_length_app (a b : string) :
  String.length (a ++ b) = String.length a + String.length b.
Proof. induction a as [|c a IH]; [reflexivity|]. cbn. rewrite IH. reflexivity. Qed.

Lemma digit_no_comma (n : N) :
  Ascii.eqb (ascii_of_N (48 + n mod 10)) "," = false.
Proof.
  assert (Hall : forallb (fun k => negb (Ascii.eqb (ascii_of_N (48 + N.of_nat k)) ","))
                   (seq 0 10) = true) by reflexivity.
  rewrite forallb_forall in Hall.
  specialize (Hall (N.to_nat (n mod 10))). rewrite N2Nat.id in Hall.
  apply negb_true_iff, Hall, in_seq.
  assert (Hlt : (n mod 10 < 10)%N) by (apply N.mod_upper_bound; discriminate).
  generalize dependent (n mod 10)%N. intros k _ Hk. lia.
Qed.

Lemma digits_of_length (width : nat) : forall n, String.length (digits_of width n) = width.
Proof.
  induction width as [|width IH]; intros n; [reflexivity|].
  cbn [digits_of]. rewrite string_length_app, IH. cbn. lia.
Qed.

Lemma digits_of_no_comma (width : nat) : forall n, has_comma (digits_of width n) = false.
Proof.
  induction width as [|width IH]; intros n; [reflexivity|].
  cbn [digits_of]. rewrite has_comma_app, IH. unfold has_comma, chars. cbn.
  rewrite digit_no_comma. reflexivity.
Qed.

(** The digits of a number, split at any place. *)
Lemma digits_of_add (a b : nat) : forall n,
  digits_of (a + b) n
  = (digits_of a (n / 10 ^ N.of_nat b) ++ digits_of b n)%string.
Proof.
  induction b as [|b IH]; intros n.
  - rewrite Nat.add_0_r. cbn [digits_of N.of_nat]. rewrite N.pow_0_r, N.div_1_r.
    symmetry. apply string_app_empty.
  - replace (a + S b) with (S (a + b)) by lia. cbn [digits_of].
    rewrite IH, string_app_assoc. f_equal. f_equal.
    rewrite Nat2N.inj_succ, N.pow_succ_r', N.Div0.div_div. reflexivity.
Qed.

Lemma decimal_no_comma (n : N) : has_comma (decimal n) = false.
Proof.
  unfold decimal. generalize (N.to_uint n). intros d.
  assert (Hrec : forall u, has_comma (DecimalString.NilEmpty.string_of_uint u) = false).
  { induction u; cbn; auto. }
  unfold DecimalString.NilZero.string_of_uint. destruct d; try reflexivity; apply Hrec.
Qed.

Lemma chrono_T_length (t : Z) : String.length (chrono_T t) = 18.
Proof.
  unfold chrono_T. cbv zeta. rewrite !string_length_app, !digits_of_length. reflexivity.
Qed.

Lemma chrono_T_no_comma (t : Z) : has_comma (chrono_T t) = false.
Proof.
  unfold chrono_T. cbv zeta. rewrite !has_comma_app, !digits_of_no_comma. reflexivity.
Qed.

Lemma format_fixed_no_comma (p : nat) (x : F32.t) : has_comma (format_fixed p x) = false.
Proof.
  assert (Hfixed : forall scaled,
            has_comma (decimal (scaled / 10 ^ N.of_nat p)
                       ++ match p with
                          | O => EmptyString
                          | S _ => "." ++ digits_of p scaled
                          end) = false).
  { intros scaled. rewrite has_comma_app, decimal_no_comma.
    destruct p; [reflexivity|]. rewrite has_comma_app, digits_of_no_comma. reflexivity. }
  unfold format_fixed. cbv zeta beta.
  destruct x as [s|s| |s m e]; [| |reflexivity|];
    rewrite has_comma_app, ?Hfixed; destruct s; reflexivity.
Qed.

(** [{:03}] of a number below 1000 is its three digits. *)
Lemma format_03_digits (k : N) :
  (k < 1000)%N -> format_03 (Z.of_N k) = digits_of 3 k.
Proof.
  intros Hk.
  assert (Hall : forallb (fun i => String.eqb (format_03 (Z.of_nat i))
                                     (digits_of 3 (N.of_nat i)))
                   (seq 0 1000) = true) by (vm_compute; reflexivity).
  rewrite forallb_forall in Hall.
  specialize (Hall (N.to_nat k)). rewrite N2Nat.id, N_nat_Z in Hall.
  apply String.eqb_eq, Hall, in_seq. lia.
Qed.

(** The milliseconds the code prints after the dot are the first three of
    the nine sub-second digits that [{:%T}] has printed already. *)
Lemma milliseconds_of_subseconds (t : Z) :
  (0 <= t)%Z ->
  Z.rem (Z.quot t 1000000) 1000
  = Z.of_N (Z.to_N ((t mod 86400000000000) mod 1000000000) / 1000000).
Proof.
  intros Ht.
  rewrite Z.quot_div_nonneg, Z.rem_mod_nonneg by (try apply Z.div_pos; lia).
  rewrite N2Z.inj_div, Z2N.id by (apply Z.mod_pos_bound; lia).
  change (Z.of_N 1000000) with 1000000%Z.
  Z.to_euclidean_division_equations. lia.
Qed.

(** ** The log lines *)

Section DrainLog.

Context {Time : Type} `{LogFormat Time}.

(** A drain writes one line for each event that is a beat or an onset. *)
Lemma drain_log_count (clock : nat -> Time) : forall evs round,
  length (log_lines (drain_log true clock round evs))
  = length (List.filter (fun ev => Event.is_beat ev || Event.is_onset ev) evs).
Proof using Type.
  induction evs as [|ev evs IH]; intros round; [reflexivity|].
  cbn [drain_log andb List.filter]. rewrite log_lines_app, length_app, IH.
  destruct (Event.is_beat ev || Event.is_onset ev); reflexivity.
Qed.

End DrainLog.

(** The first field of a line on the nanosecond clock. *)
Lemma chrono_T_milliseconds (t : Z) :
  let subseconds := Z.to_N ((t mod 86400000000000) mod 1000000000) in
  let seconds := Z.to_N ((t mod 86400000000000) / 1000000000) in
  chrono_T t
  = (digits_of 2 (seconds / 3600) ++ ":" ++ digits_of 2 (seconds / 60 mod 60) ++ ":"
     ++ digits_of 2 (seconds mod 60) ++ "." ++ digits_of 3 (subseconds / 1000000)
     ++ digits_of 6 subseconds)%string.
Proof.
  intros subseconds seconds. unfold chrono_T. cbv zeta. fold subseconds. fold seconds.
  do 6 f_equal. apply (digits_of_add 3 6).
Qed.

(** C8. What the log receives on a system clock that counts nanoseconds.
    With logging enabled and the log file open, [initialize] writes the
    banner line and then the header line
    [# Timestamp,BPM,Onset,Pitch(Hz),ProcessTime(ms)], this once; without
    logging it writes nothing. A drain on a well-formed ring returns; it
    has read exactly the events that waited, oldest first, and left the
    ring empty; with the log on it has written one line for each of them
    that is a beat or an onset, in order, and with the log off none. The
    fields of a line are, in order: the time field, the BPM with one
    decimal ([0.0F] when the event is not a beat), the onset flag as [1] or
    [0], the pitch with three decimals, and an empty last field. The time
    field is not a time with millisecond precision: [{:%T}] prints the time
    of day with the nine sub-second digits of the clock, and the code
    appends a dot and the milliseconds, which are the first three of these
    digits, once more -- 22 characters, as in [00:00:45.123000000.123].
    An event the real-time callback produces is a beat or an onset, and
    its pitch is [0.0F] when pitch detection is disabled. *)
Theorem log_lines_format :
  forall (E : Type) (A : AnalysisEngine E) (date_time : Z -> string)
         (env : InitEnv Z) (fuel : nat) (clock : nat -> Z)
         (st0 st : DetectorState E),
    spsc_wf st -> kEventCap <= fuel ->
    let F := SystemClockFormat date_time in
    (log_lines (snd (initialize (H := F) env st0))
     = if log_enabled st0 && log_opens env
       then [log_banner (H := F) (utc_current_time env); log_header] else [])
    /\ log_header = "# Timestamp,BPM,Onset,Pitch(Hz),ProcessTime(ms)"%string
    /\ log_banner (H := F) (utc_current_time env) <> log_header
    /\ (exists r,
          drain (H := F) fuel clock st = Some r
          /\ drained_events r = spsc_contents st
          /\ spsc_contents (drained_state r) = []
          /\ drained_effects r
             = drain_log (H := F) (log_enabled st && log_open st) clock 0
                 (spsc_contents st)
          /\ length (log_lines (drained_effects r))
             = (if log_enabled st && log_open st
                then length (List.filter
                               (fun ev => Event.is_beat ev || Event.is_onset ev)
                               (spsc_contents st))
                else 0)
          /\ (log_enabled st && log_open st = true ->
              Forall beat_or_onset (spsc_contents st) ->
              log_lines (drained_effects r)
              = imap (fun i ev => log_line (H := F) (clock i) ev) (spsc_contents st)))
    /\ (forall (t : Z) (event : Event.t),
          (0 <= t)%Z ->
          let subseconds := Z.to_N ((t mod 86400000000000) mod 1000000000) in
          let seconds := Z.to_N ((t mod 86400000000000) / 1000000000) in
          let milliseconds := digits_of 3 (subseconds / 1000000) in
          split_commas (log_line (H := F) t event)
          = [(chrono_T t ++ "." ++ milliseconds)%string;
             format_fixed 1 (if Event.is_beat event then Event.bpm event else F32.zero);
             (if Event.is_onset event then "1" else "0")%string;
             format_fixed 3 (Event.pitch_hz event);
             EmptyString]
          /\ chrono_T t
             = (digits_of 2 (seconds / 3600) ++ ":" ++ digits_of 2 (seconds / 60 mod 60)
                ++ ":" ++ digits_of 2 (seconds mod 60) ++ "." ++ milliseconds
                ++ digits_of 6 subseconds)%string
          /\ String.length (chrono_T t ++ "." ++ milliseconds) = 22)
    /\ (forall (effs : list Effect) (block : list F32.t),
          let st' := fst (process_block (st, effs) block) in
          (ev_head st' = ev_head st /\ ev_tail st' = ev_tail st
           /\ events st' = events st)
          \/ exists ev,
               ev_head st' = ev_head (spsc_push st ev)
               /\ ev_tail st' = ev_tail (spsc_push st ev)
               /\ events st' = events (spsc_push st ev)
               /\ Event.is_beat ev || Event.is_onset ev = true
               /\ (pitch_enabled st = false -> Event.pitch_hz ev = F32.zero)).
Proof.
  intros E A date_time env fuel clock st0 st Hwf Hfuel F.
  split.
  { unfold initialize. destruct (log_enabled st0), (log_opens env); cbn [andb negb];
      try reflexivity; destruct (initialize_resources env (pitch_enabled st0));
      reflexivity. }
  split; [reflexivity|].
  split; [unfold log_banner, log_header; cbn; discriminate|].
  split.
  { exists (drain_result clock 0 st).
    pose proof (spsc_size_bound st Hwf) as Hsize.
    split; [unfold drain; apply drain_loop_total; [exact Hwf | lia]|].
    cbn [drain_result drained_events drained_state drained_effects].
    split; [reflexivity|]. split; [apply spsc_contents_drained|].
    split; [reflexivity|].
    split.
    - destruct (log_enabled st && log_open st).
      + apply drain_log_count.
      + rewrite drain_log_off. reflexivity.
    - intros -> Hall. rewrite drain_log_lines by exact Hall. reflexivity. }
  split.
  { intros t event Ht subseconds seconds milliseconds.
    assert (Hsub : (subseconds / 1000000 < 1000)%N).
    { apply N.Div0.div_lt_upper_bound. subst subseconds.
      pose proof (Z.mod_pos_bound (t mod 86400000000000) 1000000000). lia. }
    split; [|split].
    - rewrite (log_line_fields (H := F) t event)
        by first [apply chrono_T_no_comma | apply format_fixed_no_comma].
      cbn [format_T format_1f format_3f time_since_epoch_ms F SystemClockFormat].
      rewrite (milliseconds_of_subseconds t Ht). fold subseconds.
      rewrite (format_03_digits _ Hsub). reflexivity.
    - apply chrono_T_milliseconds.
    - rewrite !string_length_app, chrono_T_length. unfold milliseconds.
      rewrite digits_of_length. reflexivity. }
  intros effs block.
  destruct (process_block_spec st effs block) as (_ & _ & _ & [Hsame | (ev & Hev)]).
  - left. exact Hsame.
  - right. exists ev. destruct Hev as (_ & Hh & Ht & He & Hb & Hp). auto.
Qed.

Lemma log_lines_format_witness :
  let event := {| Event.is_beat := true; Event.is_onset := false;
                  Event.bpm := f32_120; Event.pitch_hz := F32.zero;
                  Event.process_ms := S754_zero false |} in
  let st := spsc_push (ready_detector true false) event in
  let st0 := DetectorState_new 0 512%N true false false in
  let env := mkInitEnv true 0%Z true true true true true true true true in
  let clock := fun _ : nat => 45123000000%Z in
  let date_time := fun _ : Z => "1970-01-01 00:00:00.000000000"%string in
  let F := SystemClockFormat date_time in
  spsc_wf st /\ kEventCap <= 1024
  /\ option_map (fun r => log_lines (drained_effects r))
       (drain (H := F) 1024 clock st)
     = Some ["00:00:45.123000000.123,120.0,0,0.000,"%string]
  /\ (log_lines (snd (initialize (H := F) env st0))
      = if log_enabled st0 && log_opens env
        then [log_banner (H := F) (utc_current_time env); log_header] else [])
  /\ log_header = "# Timestamp,BPM,Onset,Pitch(Hz),ProcessTime(ms)"%string
  /\ log_banner (H := F) (utc_current_time env) <> log_header
  /\ (exists r,
        drain (H := F) 1024 clock st = Some r
        /\ drained_events r = spsc_contents st
        /\ spsc_contents (drained_state r) = []
        /\ drained_effects r
           = drain_log (H := F) (log_enabled st && log_open st) clock 0
               (spsc_contents st)
        /\ length (log_lines (drained_effects r))
           = (if log_enabled st && log_open st
              then length (List.filter
                             (fun ev => Event.is_beat ev || Event.is_onset ev)
                             (spsc_contents st))
              else 0)
        /\ (log_enabled st && log_open st = true ->
            Forall beat_or_onset (spsc_contents st) ->
            log_lines (drained_effects r)
            = imap (fun i ev => log_line (H := F) (clock i) ev) (spsc_contents st)))
  /\ (forall (t : Z) (event : Event.t),
        (0 <= t)%Z ->
        let subseconds := Z.to_N ((t mod 86400000000000) mod 1000000000) in
        let seconds := Z.to_N ((t mod 86400000000000) / 1000000000) in
        let milliseconds := digits_of 3 (subseconds / 1000000) in
        split_commas (log_line (H := F) t event)
        = [(chrono_T t ++ "." ++ milliseconds)%string;
           format_fixed 1 (if Event.is_beat event then Event.bpm event else F32.zero);
           (if Event.is_onset event then "1" else "0")%string;
           format_fixed 3 (Event.pitch_hz event);
           EmptyString]
        /\ chrono_T t
           = (digits_of 2 (seconds / 3600) ++ ":" ++ digits_of 2 (seconds / 60 mod 60)
              ++ ":" ++ digits_of 2 (seconds mod 60) ++ "." ++ milliseconds
              ++ digits_of 6 subseconds)%string
        /\ String.length (chrono_T t ++ "." ++ milliseconds) = 22)
  /\ (forall (effs : list Effect) (block : list F32.t),
        let st' := fst (process_block (st, effs) block) in
        (ev_head st' = ev_head st /\ ev_tail st' = ev_tail st
         /\ events st' = events st)
        \/ exists ev,
             ev_head st' = ev_head (spsc_push st ev)
             /\ ev_tail st' = ev_tail (spsc_push st ev)
             /\ events st' = events (spsc_push st ev)
             /\ Event.is_beat ev || Event.is_onset ev = true
             /\ (pitch_enabled st = false -> Event.pitch_hz ev = F32.zero)).
Proof.
  intros event st st0 env clock date_time F.
  assert (H1 : spsc_wf st) by (apply spsc_push_wf, ready_detector_wf).
  assert (H2 : kEventCap <= 1024) by (unfold kEventCap; lia).
  split; [exact H1|]. split; [exact H2|].
  split; [vm_compute; reflexivity|].
  exact (log_lines_format nat ScriptedEngine date_time env 1024 clock st0 st H1 H2).
Defined.

(** ** A push that overlaps a drain *)

(** X18. A push that overlaps a drain can move the tail backwards. The
    push, split into its loads and its stores, is the push; and a round of
    the drain is what the drain loop does in a round. On a full ring, let
    the push load the two indices, let the drain then run two rounds, and
    let the push go on after that with what it had loaded: it stores its
    tail plus one, which is one slot behind the tail the drain has
    reached, and the next round of the drain reads the event of that slot,
    which the second round has delivered already, once more. *)
Theorem overlapping_push_rewinds_tail :
  forall (E Time : Type) (F : LogFormat Time) (st : DetectorState E) (ev : Event.t),
    spsc_wf st -> spsc_size st = kEventCap - 1 ->
    let loaded := push_load st in
    let r1 := drain_round_once st in
    let r2 := drain_round_once (fst r1) in
    let st3 := push_store (fst r2) loaded ev in
    let r4 := drain_round_once st3 in
    push_store st loaded ev = spsc_push st ev
    /\ (forall fuel (clock : nat -> Time) round,
          option_map drained_events (drain_loop (S fuel) clock round st)
          = match snd r1 with
            | Some event =>
                option_map (fun r => event :: drained_events r)
                  (drain_loop fuel clock (S round) (fst r1))
            | None => Some []
            end)
    /\ snd r1 = Some (nth (ev_tail st) (events st) Event.zero)
    /\ snd r2 = Some (nth ((ev_tail st + 1) mod kEventCap) (events st) Event.zero)
    /\ ev_tail (fst r2) = (ev_tail st + 2) mod kEventCap
    /\ ev_tail st3 = (ev_tail st + 1) mod kEventCap
    /\ spsc_wf st3
    /\ snd r4 = snd r2.
Proof.
  intros E Time F st ev Hwf Hfull loaded r1 r2 st3 r4.
  pose proof (proj2 (spsc_full_iff st Hwf) Hfull) as Hnext.
  pose proof (spsc_size_cases st Hwf) as Hcases. rewrite Hfull in Hcases.
  destruct Hwf as (Hlen & Hh & Ht).
  assert (Hne1 : ev_tail st <> ev_head st)
    by (destruct (Nat.leb_spec (ev_tail st) (ev_head st)); unfold kEventCap in *; lia).
  assert (Hne2 : (ev_tail st + 1) mod kEventCap <> ev_head st).
  { rewrite mod_succ_wrap by assumption.
    destruct (Nat.eqb_spec (ev_tail st + 1) kEventCap);
      destruct (Nat.leb_spec (ev_tail st) (ev_head st)); unfold kEventCap in *; lia. }
  assert (Hne3 : (ev_tail st + 1) mod kEventCap <> ev_tail st).
  { rewrite mod_succ_wrap by assumption.
    destruct (Nat.eqb_spec (ev_tail st + 1) kEventCap); unfold kEventCap in *; lia. }
  assert (Hr1 : r1 = (set_ev_tail st ((ev_tail st + 1) mod kEventCap),
                      Some (nth (ev_tail st) (events st) Event.zero))).
  { subst r1. unfold drain_round_once.
    destruct (Nat.eqb_spec (ev_tail st) (ev_head st)); [contradiction | reflexivity]. }
  assert (Hr2 : r2 = (set_ev_tail st (((ev_tail st + 1) mod kEventCap + 1) mod kEventCap),
                      Some (nth ((ev_tail st + 1) mod kEventCap) (events st) Event.zero))).
  { subst r2. rewrite Hr1. unfold drain_round_once. fields.
    destruct (Nat.eqb_spec ((ev_tail st + 1) mod kEventCap) (ev_head st));
      [contradiction | reflexivity]. }
  assert (Hst3 : ev_tail st3 = (ev_tail st + 1) mod kEventCap
                 /\ ev_head st3 = ev_tail st
                 /\ events st3 = <[ev_head st := ev]> (events st)).
  { subst st3 loaded. rewrite Hr2. unfold push_store, push_load. fields.
    cbn [loaded_head loaded_tail]. rewrite Hnext, Nat.eqb_refl. fields. auto. }
  destruct Hst3 as (Ht3 & Hh3 & He3).
  split; [reflexivity|].
  split.
  { intros fuel clock round. cbn [drain_loop]. rewrite Hr1. cbn [fst snd].
    destruct (Nat.eqb_spec (ev_tail st) (ev_head st)); [contradiction|].
    destruct (drain_loop fuel clock (S round) _); reflexivity. }
  split; [rewrite Hr1; reflexivity|].
  split; [rewrite Hr2; reflexivity|].
  split.
  { rewrite Hr2. fields. rewrite Nat.Div0.add_mod_idemp_l. f_equal. lia. }
  split; [exact Ht3|].
  split.
  { unfold spsc_wf. rewrite Ht3, Hh3, He3, length_insert.
    repeat split; try assumption. apply Nat.mod_upper_bound. unfold kEventCap. lia. }
  rewrite Hr2. cbn [snd]. subst r4. unfold drain_round_once.
  rewrite Ht3, Hh3, He3.
  destruct (Nat.eqb_spec ((ev_tail st + 1) mod kEventCap) (ev_tail st));
    [contradiction|].
  cbn [snd]. f_equal. rewrite !nth_lookup, list_lookup_insert_ne; [reflexivity|].
  intros Heq. apply Hne2. symmetry. exact Heq.
Qed.

Lemma overlapping_push_rewinds_tail_witness :
  let st := fold_left spsc_push (map numbered_event (seq 0 (kEventCap - 1)))
              (ready_detector false false) in
  let ev := numbered_event 2000 in
  let loaded := push_load st in
  let r1 := drain_round_once st in
  let r2 := drain_round_once (fst r1) in
  let st3 := push_store (fst r2) loaded ev in
  let r4 := drain_round_once st3 in
  spsc_wf st /\ spsc_size st = kEventCap - 1
  /\ (ev_tail (fst r2) = 2 /\ ev_tail st3 = 1
      /\ snd r2 = Some (numbered_event 1) /\ snd r4 = Some (numbered_event 1))
  /\ push_store st loaded ev = spsc_push st ev
  /\ (forall fuel (clock : nat -> Z) round,
        option_map drained_events (drain_loop (H := PlainFormat) (S fuel) clock round st)
        = match snd r1 with
          | Some event =>
              option_map (fun r => event :: drained_events r)
                (drain_loop (H := PlainFormat) fuel clock (S round) (fst r1))
          | None => Some []
          end)
  /\ snd r1 = Some (nth (ev_tail st) (events st) Event.zero)
  /\ snd r2 = Some (nth ((ev_tail st + 1) mod kEventCap) (events st) Event.zero)
  /\ ev_tail (fst r2) = (ev_tail st + 2) mod kEventCap
  /\ ev_tail st3 = (ev_tail st + 1) mod kEventCap
  /\ spsc_wf st3
  /\ snd r4 = snd r2.
Proof.
  intros st ev loaded r1 r2 st3 r4.
  assert (H1 : spsc_wf st)
    by exact (proj1 (spsc_push_all (ready_detector false false)
                       (map numbered_event (seq 0 (kEventCap - 1)))
                       (ready_detector_wf false false))).
  assert (H2 : spsc_size st = kEventCap - 1) by (vm_compute; reflexivity).
  split; [exact H1|]. split; [exact H2|].
  split; [repeat split; vm_compute; reflexivity|].
  exact (overlapping_push_rewinds_tail nat Z PlainFormat st ev H1 H2).
Defined.
